(** * Dual-band matching network synthesis: a shallow embedding of
      [core/matcher.py], with the result table of its caller
      [streamlit_app.py], and the properties of its search pipeline.

    The program works on IEEE doubles through numpy.  The embedding is over
    the real numbers of the Standard Library: every arithmetic operation is
    the exact one, [np.sqrt], [np.tan], [np.arctan], [np.sin], [np.cos] are
    [sqrt], [tan], [atan], [sin], [cos].  The caller passes Python floats
    and Python complex numbers.  The two places where both operands of a
    division are Python's own, the fractions of [__init__] and the
    quotients of [apply_aux_line], raise [ZeroDivisionError] on a zero
    divisor, and so they do here.  Every other division has a numpy operand:
    numpy answers a zero divisor with [inf] or [nan] and a warning, never
    with an exception, and here it is the total division of [R], where
    [x / 0 = 0].

    Rounding, [inf] and [nan] are outside the model, and where they decide
    what the program does the model and the program part ways:
    - on a zero divisor.  A conjugate line of impedance 0 makes stage 1
      divide 0 by 0: the program goes on with [nan], which fails every
      later comparison, the model with 0.  On [Z_in1 = 0] the conductance
      of the classifier is [inf] (region 'b'), 0 here.  Stage 3 divides
      by [Re Z_in_matched - Z0], stage 4 by [sin (p1 pi)] and by [Z_m],
      the VSWR by [1 - |rho|];
    - at the pole of a tangent, where [tan] of the Standard Library is 0
      and the doubles of the program, which never hit the pole, give a
      tangent of the order of 1e16;
    - on the sentinel of [tline_input_z], a Python complex: when it
      reaches the VSWR together with the clamp value of an open stub
      (this needs [|cos (pi f / (f1 + f2))| < 1e-9], as for [f1 = f2]),
      the last division is Python's, the double [|rho|] is 1.0 and the
      program raises [ZeroDivisionError];
    - in the values reported after rounding: the doubles [p1 + p2] and
      [degrees (radians t)] can miss 1 and [t] in the last place.
    A statement that one of these places would falsify carries the
    hypotheses that keep it away from it, or says that it is one of exact
    arithmetic; the comment of a worked input that runs into one says what
    the doubles give there.
    The fractions of [__init__] are given on doubles as well
    ([Binary64.__init__]). *)

From Stdlib Require Import PrimFloat.
From Stdlib Require Import Reals Lra Lia List Bool ZArith.
From Stdlib Require Import Sorted Permutation RNsatz.
Import ListNotations.
Open Scope R_scope.

(** ** Comparisons as the program's boolean tests *)

Definition Rltb (x y : R) : bool := if Rlt_dec x y then true else false.
Definition Rleb (x y : R) : bool := if Rle_dec x y then true else false.
Definition Reqb (x y : R) : bool := if Req_dec_T x y then true else false.

Notation "x <? y" := (Rltb x y) (at level 70, no associativity) : R_scope.
Notation "x <=? y" := (Rleb x y) (at level 70, no associativity) : R_scope.
Notation "x >? y" := (Rltb y x) (at level 70, no associativity) : R_scope.
Notation "x =? y" := (Reqb x y) (at level 70, no associativity) : R_scope.

(** ** Complex numbers (Python's [complex] / numpy's [complex128]) *)

Record complex : Type := mkC { real : R; imag : R }.

Declare Scope complex_scope.
Delimit Scope complex_scope with C.
Bind Scope complex_scope with complex.

Definition RtoC (x : R) : complex := mkC x 0.
Coercion RtoC : R >-> complex.

(** [1j] *)
Definition Ci : complex := mkC 0 1.

Definition Cadd (z w : complex) : complex :=
  mkC (real z + real w) (imag z + imag w).
Definition Csub (z w : complex) : complex :=
  mkC (real z - real w) (imag z - imag w).
Definition Cmul (z w : complex) : complex :=
  mkC (real z * real w - imag z * imag w) (real z * imag w + imag z * real w).
Definition Cdiv (z w : complex) : complex :=
  let n := real w * real w + imag w * imag w in
  mkC ((real z * real w + imag z * imag w) / n)
      ((imag z * real w - real z * imag w) / n).
(** [abs(z)] on a complex number *)
Definition Cabs (z : complex) : R := sqrt (real z * real z + imag z * imag z).

Infix "+" := Cadd : complex_scope.
Infix "-" := Csub : complex_scope.
Infix "*" := Cmul : complex_scope.
Infix "/" := Cdiv : complex_scope.

(** ** The design object *)

Inductive Region : Type := region_a | region_b | region_c.
Inductive StubType : Type := Open | Short.

(** The attributes of a [DualBandMatchingDesign].  An attribute that
    [__init__] sets to [None] is an [option]; [Z_in1] and [Z_in_matched]
    do not exist before stages 1 and 2 create them, which [None] stands for
    as well. *)
Record Design : Type := mkDesign {
  f1 : R;
  f2 : R;
  Z_L1_orig : complex;
  Z_L2_orig : complex;
  Z_L1 : complex;
  Z_L2 : complex;
  Z0 : R;
  p1 : R;
  p2 : R;
  aux_line_Z : option R;
  aux_line_theta : option R;
  Z1 : option R;
  theta1 : option R;
  region : option Region;
  aux_stub_type : option StubType;
  aux_stub_Y2 : option R;
  Z_T1 : option R;
  theta_T1 : option R;
  Z_m : option R;
  stub_type : option StubType;
  Z_n : option R;
  Y_n : option R;
  Z_in1 : option complex;
  Z_in_matched : option complex
}.

(** ** Results of a call

    A stage either returns (with the mutated object), returns [False]
    (the search loop then skips the grid point), or raises. *)
Inductive outcome (A : Type) : Type :=
| Ok (a : A)
| Unsolved
| Raised.
Arguments Ok {A} a.
Arguments Unsolved {A}.
Arguments Raised {A}.

Definition bind {A B : Type} (m : outcome A) (k : A -> outcome B) : outcome B :=
  match m with
  | Ok a => k a
  | Unsolved => Unsolved
  | Raised => Raised
  end.

Notation "x <- m ;; k" := (bind m (fun x => k))
  (at level 61, m at next level, right associativity).

(** Reading an attribute for arithmetic: [None] raises [TypeError]. *)
Definition need {A : Type} (o : option A) : outcome A :=
  match o with
  | Some a => Ok a
  | None => Raised
  end.

(** Python truthiness of an attribute that is [None] or a float. *)
Definition truthy (o : option R) : bool :=
  match o with
  | Some x => negb (x =? 0)
  | None => false
  end.

(** [np.radians] and [np.degrees], exact: here [degrees (radians x)] is
    [x], where the doubles of the program agree up to the last place. *)
Definition radians (deg : R) : R := deg * PI / 180.
Definition degrees (rad : R) : R := rad * 180 / PI.

(** [DualBandMatchingDesign.__init__]: the quotient [f1 / (f1 + f2)] is a
    division of Python floats, which raises [ZeroDivisionError] on a zero
    divisor.  The two fractions are the exact quotients; the program
    stores their doubles ([Binary64.__init__] below). *)
Definition __init__ (f1 f2 : R) (Z_L1 Z_L2 : complex) (Z0 : R) : outcome Design :=
  if (f1 + f2 =? 0) then Raised
  else Ok {|
    f1 := f1; f2 := f2;
    Z_L1_orig := Z_L1; Z_L2_orig := Z_L2;
    Z_L1 := Z_L1; Z_L2 := Z_L2;
    Z0 := Z0;
    p1 := f1 / (f1 + f2);
    p2 := f2 / (f1 + f2);
    aux_line_Z := None; aux_line_theta := None;
    Z1 := None; theta1 := None; region := None;
    aux_stub_type := None; aux_stub_Y2 := None;
    Z_T1 := None; theta_T1 := None; Z_m := None;
    stub_type := None; Z_n := None; Y_n := None;
    Z_in1 := None; Z_in_matched := None |}.

(** ** The fractions of [__init__] on doubles

    Python's floats are IEEE 754 binary64 numbers, rounded to nearest with
    ties to even, and so are the kernel's primitive floats: the two
    quotients of [__init__] in the program's own arithmetic. *)
Module Binary64.

Definition __init__ (f1 f2 : float) : outcome (float * float) :=
  if PrimFloat.eqb (f1 + f2) 0 then Raised
  else Ok (f1 / (f1 + f2), f2 / (f1 + f2))%float.

End Binary64.

(** ** Stage 0: the auxiliary line at the load *)

(** A Python [complex] whose two parts are zero: the divisor on which the
    division of Python raises [ZeroDivisionError]. *)
Definition Cis_zero (z : complex) : bool := (real z =? 0) && (imag z =? 0).

(** The object as [apply_aux_line] leaves it.  At the pole of one of the
    two tangents the model leaves the load as it is ([tan] is 0 there),
    where the program, on a tangent of the order of 1e16, returns about
    [Z_p^2 / Z_L]. *)
Definition with_aux_line (Z_p theta_deg : R) (d : Design) : Design :=
  let theta_rad := radians theta_deg in
  let theta_p1 := theta_rad * p1 d in
  let theta_p2 := theta_rad * p2 d in
  let num1 := (Z_L1_orig d + Ci * Z_p * tan theta_p1)%C in
  let den1 := (Z_p + Ci * Z_L1_orig d * tan theta_p1)%C in
  let Z_L1_new := (Z_p * num1 / den1)%C in
  let num2 := (Z_L2_orig d + Ci * Z_p * tan theta_p2)%C in
  let den2 := (Z_p + Ci * Z_L2_orig d * tan theta_p2)%C in
  let Z_L2_new := (Z_p * num2 / den2)%C in
  {| f1 := f1 d; f2 := f2 d;
     Z_L1_orig := Z_L1_orig d; Z_L2_orig := Z_L2_orig d;
     Z_L1 := Z_L1_new; Z_L2 := Z_L2_new;
     Z0 := Z0 d; p1 := p1 d; p2 := p2 d;
     aux_line_Z := Some Z_p; aux_line_theta := Some theta_rad;
     Z1 := Z1 d; theta1 := theta1 d; region := region d;
     aux_stub_type := aux_stub_type d; aux_stub_Y2 := aux_stub_Y2 d;
     Z_T1 := Z_T1 d; theta_T1 := theta_T1 d; Z_m := Z_m d;
     stub_type := stub_type d; Z_n := Z_n d; Y_n := Y_n d;
     Z_in1 := Z_in1 d; Z_in_matched := Z_in_matched d |}.

(** [apply_aux_line].  [Z_p] is a Python float and the loads are Python
    complex numbers, so that the two quotients [Z_p * num / den] are
    divisions of Python: a zero divisor raises, the first quotient before
    the second. *)
Definition apply_aux_line (Z_p theta_deg : R) (d : Design) : outcome Design :=
  let theta_rad := radians theta_deg in
  let theta_p1 := theta_rad * p1 d in
  let theta_p2 := theta_rad * p2 d in
  let den1 := (Z_p + Ci * Z_L1_orig d * tan theta_p1)%C in
  let den2 := (Z_p + Ci * Z_L2_orig d * tan theta_p2)%C in
  if Cis_zero den1 then Raised
  else if Cis_zero den2 then Raised
  else Ok (with_aux_line Z_p theta_deg d).

(** ** Stage 1: the conjugate-match line *)

(** The local variables of [calculate_conjugate_transform] the properties
    speak about. *)
Definition inside_sqrt (d : Design) : R :=
  let R_L1 := real (Z_L1 d) in
  let X_L1 := imag (Z_L1 d) in
  let R_L2 := real (Z_L2 d) in
  let X_L2 := imag (Z_L2 d) in
  let term1 := R_L1 * R_L2 + X_L1 * X_L2 in
  let term2 := (X_L1 + X_L2) / (R_L2 - R_L1) * (R_L1 * X_L2 - R_L2 * X_L1) in
  term1 + term2.

(** [theta1_rad] before the sign test. *)
Definition theta1_raw (d : Design) : R :=
  let R_L1 := real (Z_L1 d) in
  let X_L1 := imag (Z_L1 d) in
  let R_L2 := real (Z_L2 d) in
  let X_L2 := imag (Z_L2 d) in
  let numerator := sqrt (inside_sqrt d) * (R_L2 - R_L1) in
  let denominator := R_L2 * X_L1 - R_L1 * X_L2 in
  if Rabs denominator <? 1e-9 then PI / 2
  else atan (numerator / denominator).

(** [theta1_rad] after [if theta1_rad < 0: theta1_rad += np.pi]. *)
Definition theta1_rad (d : Design) : R :=
  if theta1_raw d <? 0 then theta1_raw d + PI else theta1_raw d.

Definition set_conjugate_line (d : Design) (z1 th1 : R) (zin1 : complex) : Design :=
  {| f1 := f1 d; f2 := f2 d;
     Z_L1_orig := Z_L1_orig d; Z_L2_orig := Z_L2_orig d;
     Z_L1 := Z_L1 d; Z_L2 := Z_L2 d;
     Z0 := Z0 d; p1 := p1 d; p2 := p2 d;
     aux_line_Z := aux_line_Z d; aux_line_theta := aux_line_theta d;
     Z1 := Some z1; theta1 := Some th1; region := region d;
     aux_stub_type := aux_stub_type d; aux_stub_Y2 := aux_stub_Y2 d;
     Z_T1 := Z_T1 d; theta_T1 := theta_T1 d; Z_m := Z_m d;
     stub_type := stub_type d; Z_n := Z_n d; Y_n := Y_n d;
     Z_in1 := Some zin1; Z_in_matched := Z_in_matched d |}.

(** [calculate_conjugate_transform].  [Z_in1] is a quotient of numpy: on
    the divisor 0, which a line of impedance [Z1 = 0] gives on branch
    k = 0, the program stores [nan + nan j] (0/0) and the model 0. *)
Definition calculate_conjugate_transform (additional_pi : Z) (d : Design)
  : outcome Design :=
  let R_L1 := real (Z_L1 d) in
  let R_L2 := real (Z_L2 d) in
  if Rabs (R_L2 - R_L1) <? 1e-6 then Unsolved
  else if inside_sqrt d <? 0 then Unsolved
  else
    let Z1' := sqrt (inside_sqrt d) in
    let theta1' := theta1_rad d + IZR additional_pi * PI in
    let theta1_f1 := theta1' * p1 d in
    let Z_in1' :=
      (Z1' * (Z_L1 d + Ci * Z1' * tan theta1_f1)
         / (Z1' + Ci * Z_L1 d * tan theta1_f1))%C in
    Ok (set_conjugate_line d Z1' theta1' Z_in1').

(** ** Stage 2: Smith-chart region and the auxiliary stub of case (c) *)

Definition Copp (z : complex) : complex := mkC (- real z) (- imag z).
Notation "- z" := (Copp z) : complex_scope.

Definition set_region (d : Design) (zm : complex) (r : Region)
  (ty : option StubType) (y2 : option R) : Design :=
  {| f1 := f1 d; f2 := f2 d;
     Z_L1_orig := Z_L1_orig d; Z_L2_orig := Z_L2_orig d;
     Z_L1 := Z_L1 d; Z_L2 := Z_L2 d;
     Z0 := Z0 d; p1 := p1 d; p2 := p2 d;
     aux_line_Z := aux_line_Z d; aux_line_theta := aux_line_theta d;
     Z1 := Z1 d; theta1 := theta1 d; region := Some r;
     aux_stub_type := ty; aux_stub_Y2 := y2;
     Z_T1 := Z_T1 d; theta_T1 := theta_T1 d; Z_m := Z_m d;
     stub_type := stub_type d; Z_n := Z_n d; Y_n := Y_n d;
     Z_in1 := Z_in1 d; Z_in_matched := Some zm |}.

Definition _add_auxiliary_stub (d : Design) : outcome Design :=
  Z_in1' <- need (Z_in1 d) ;;
  let Y_in1 := (1 / Z_in1')%C in
  let B_in1 := imag Y_in1 in
  let target_B_stub := - B_in1 in
  let theta_stub_f1 := p1 d * PI in
  let tan_theta := tan theta_stub_f1 in
  let Y2_open := if Rabs tan_theta >? 1e-9 then target_B_stub / tan_theta else 0 in
  let Y2_short := - target_B_stub * tan_theta in
  if Y2_open >? 0 then
    let Y_stub := (Ci * Y2_open * tan_theta)%C in
    Ok (set_region d (1 / (Y_in1 + Y_stub))%C region_a (Some Open) (Some Y2_open))
  else if Y2_short >? 0 then
    let Y_stub := (- Ci * Y2_short / tan_theta)%C in
    Ok (set_region d (1 / (Y_in1 + Y_stub))%C region_a (Some Short) (Some Y2_short))
  else
    let Y_stub := RtoC 0 in
    Ok (set_region d (1 / (Y_in1 + Y_stub))%C region_a (Some Open) (Some 0.02)).

(** [check_region_and_adjust].  On [Z_in1 = 0] the program's [g] is [inf]
    (region 'b'); here it is 0 (region 'c').  On [Z_in1 = nan] both tests
    fail in the program, as they do here on the 0 that stands for it. *)
Definition check_region_and_adjust (allow_aux_stub : bool) (d : Design)
  : outcome Design :=
  Z_in1' <- need (Z_in1 d) ;;
  let z_norm := (Z_in1' / Z0 d)%C in
  let r := real z_norm in
  let g := real (1 / z_norm)%C in
  if r >? 1 then
    Ok (set_region d Z_in1' region_a (aux_stub_type d) (aux_stub_Y2 d))
  else if g >? 1 then
    Ok (set_region d Z_in1' region_b (aux_stub_type d) (aux_stub_Y2 d))
  else
    let d' := set_region d Z_in1' region_c (aux_stub_type d) (aux_stub_Y2 d) in
    if allow_aux_stub then _add_auxiliary_stub d' else Ok d'.

(** ** Stage 3: the line equivalent of the pi-network *)

Definition set_matching_line (d : Design) (zt th : R) : Design :=
  {| f1 := f1 d; f2 := f2 d;
     Z_L1_orig := Z_L1_orig d; Z_L2_orig := Z_L2_orig d;
     Z_L1 := Z_L1 d; Z_L2 := Z_L2 d;
     Z0 := Z0 d; p1 := p1 d; p2 := p2 d;
     aux_line_Z := aux_line_Z d; aux_line_theta := aux_line_theta d;
     Z1 := Z1 d; theta1 := theta1 d; region := region d;
     aux_stub_type := aux_stub_type d; aux_stub_Y2 := aux_stub_Y2 d;
     Z_T1 := Some zt; theta_T1 := Some th; Z_m := Z_m d;
     stub_type := stub_type d; Z_n := Z_n d; Y_n := Y_n d;
     Z_in1 := Z_in1 d; Z_in_matched := Z_in_matched d |}.

(** [term_sqrt] of [calculate_matching_network], for an input impedance
    [zin] and the system impedance [Z_S].  Its divisor is 0 on
    [Re zin = Z_S]: the program then has [inf] or [nan] (and stores
    [theta_T1 = nan] unless the clamp gives pi/2), the model [R_in1 * Z_S]. *)
Definition term_sqrt (zin : complex) (Z_S : R) : R :=
  let R_in1 := real zin in
  let X_in1 := imag zin in
  (X_in1 ^ 2 * Z_S) / (R_in1 - Z_S) + R_in1 * Z_S.

(** [theta_T1_rad] of [calculate_matching_network] after the sign test. *)
Definition theta_T1_rad (zin : complex) (Z_S : R) : R :=
  let R_in1 := real zin in
  let X_in1 := imag zin in
  let Z_T1' := sqrt (term_sqrt zin Z_S) in
  let num := Z_T1' * (Z_S - R_in1) in
  let den := X_in1 * Z_S in
  let th := if Rabs den <? 1e-9 then PI / 2 else atan (num / den) in
  if th <=? 0 then th + PI else th.

Definition calculate_matching_network (d : Design) : outcome Design :=
  zin <- need (Z_in_matched d) ;;
  let Z_S := Z0 d in
  if term_sqrt zin Z_S <? 0 then Unsolved
  else Ok (set_matching_line d (sqrt (term_sqrt zin Z_S)) (theta_T1_rad zin Z_S)).

(** ** Stage 4: the pi-network components *)

Definition set_pi_network (d : Design) (zm : R) (ty : StubType) (yn : R) : Design :=
  {| f1 := f1 d; f2 := f2 d;
     Z_L1_orig := Z_L1_orig d; Z_L2_orig := Z_L2_orig d;
     Z_L1 := Z_L1 d; Z_L2 := Z_L2 d;
     Z0 := Z0 d; p1 := p1 d; p2 := p2 d;
     aux_line_Z := aux_line_Z d; aux_line_theta := aux_line_theta d;
     Z1 := Z1 d; theta1 := theta1 d; region := region d;
     aux_stub_type := aux_stub_type d; aux_stub_Y2 := aux_stub_Y2 d;
     Z_T1 := Z_T1 d; theta_T1 := theta_T1 d; Z_m := Some zm;
     stub_type := Some ty; Z_n := Some (1 / yn); Y_n := Some yn;
     Z_in1 := Z_in1 d; Z_in_matched := Z_in_matched d |}.

(** The series impedance and the shunt susceptance stage 4 computes from
    the design fraction [p], [Z_T1] and [theta_T1].  On [Z_m = 0] the
    susceptance of the program is [inf] or [nan], and so are its [Y_n] and
    [Z_n]; here it is 0, and the fallback stores 0.02. *)
Definition pi_Z_m (p zt th : R) : R := (zt * sin th) / sin (p * PI).
Definition pi_B_n1 (p zt th : R) : R :=
  (cos (p * PI) - cos th) / (pi_Z_m p zt th * sin (p * PI)).
Definition pi_Y_open (p zt th : R) : R :=
  if Rabs (tan (p * PI)) >? 1e-9 then pi_B_n1 p zt th / tan (p * PI) else 0.
Definition pi_Y_short (p zt th : R) : R := - pi_B_n1 p zt th * tan (p * PI).

Definition synthesize_pi_network (d : Design) : outcome Design :=
  zt <- need (Z_T1 d) ;;
  th <- need (theta_T1 d) ;;
  let Z_m' := pi_Z_m (p1 d) zt th in
  let Y_open := pi_Y_open (p1 d) zt th in
  let Y_short := pi_Y_short (p1 d) zt th in
  if Y_open >? 0 then Ok (set_pi_network d Z_m' Open Y_open)
  else if Y_short >? 0 then Ok (set_pi_network d Z_m' Short Y_short)
  else Ok (set_pi_network d Z_m' Open (if negb (Y_open =? 0) then Y_open else 0.02)).

(** ** Reporting *)

(** The dictionary [get_design_parameters] returns, with the two VSWR
    entries [find_all_designs] adds. *)
Record Params : Type := mkParams {
  f_design : R;
  region_tag : option Region;
  Z_aux : R;
  theta_aux_deg : R;
  Z1_param : option R;
  theta1_deg : R;
  Z_series : option R;
  Z_stub : option R;
  stub_type_tag : option StubType;
  aux_stub_type_tag : option StubType;
  aux_stub_Z : R;
  VSWR_f1 : option R;
  VSWR_f2 : option R
}.

Definition get_design_parameters (d : Design) : outcome Params :=
  th1 <- need (theta1 d) ;;
  th_aux <- (if truthy (aux_line_theta d) then
               t <- need (aux_line_theta d) ;; Ok (degrees t)
             else Ok 0) ;;
  y2 <- (if truthy (aux_stub_Y2 d) then
           y <- need (aux_stub_Y2 d) ;; Ok (1 / y)
         else Ok 0) ;;
  Ok {| f_design := f1 d + f2 d;
        region_tag := region d;
        Z_aux := (if truthy (aux_line_Z d) then
                    match aux_line_Z d with Some z => z | None => 0 end
                  else 0);
        theta_aux_deg := th_aux;
        Z1_param := Z1 d;
        theta1_deg := degrees th1;
        Z_series := Z_m d;
        Z_stub := Z_n d;
        stub_type_tag := stub_type d;
        aux_stub_type_tag := aux_stub_type d;
        aux_stub_Z := y2;
        VSWR_f1 := None;
        VSWR_f2 := None |}.

(** ** Verification: VSWR at [f1] and [f2] by forward replay *)

(** The inner function [tline_input_z].  Its quotients are numpy's except
    in the replay of the auxiliary line, whose operands are Python's: there
    the divisor of the second branch is the one [apply_aux_line] has
    divided by, and the divisor of the first one has passed the test on
    [abs(z_l)], so that the replay of a design that got this far does not
    raise. *)
Definition tline_input_z (z_l : complex) (z_c theta_rad : R) : complex :=
  if Rabs (cos theta_rad) <? 1e-9 then
    if Cabs z_l <? 1e-9 then mkC 1e9 0
    else (RtoC (z_c ^ 2) / z_l)%C
  else
    let t := (Ci * tan theta_rad)%C in
    (z_c * (z_l + z_c * t) / (z_c + z_l * t))%C.

Definition stub_admittance (y_c theta_rad : R) (is_open : bool) : complex :=
  if Rabs (cos theta_rad) <? 1e-9 then
    if is_open then mkC 0 1e9 else RtoC 0
  else if Rabs (sin theta_rad) <? 1e-9 then
    if is_open then RtoC 0 else mkC 0 (- 1e9)
  else if is_open then (Ci * y_c * tan theta_rad)%C
  else (- Ci * y_c / tan theta_rad)%C.

Definition is_Open (o : option StubType) : bool :=
  match o with Some Open => true | _ => false end.

(** One round of the loop of [verify_metrics]: the VSWR at frequency [f]
    for the load [z_l_orig].  The last quotient is numpy's, except when
    the series line returns its sentinel, a Python complex, and the stub
    its clamp value: the quotient is then Python's, and on an open stub
    the double [|rho|] is 1.0 and the program raises.  That path needs
    [|cos (pi f / (f1 + f2))| < 1e-9]; in exact arithmetic [|rho| < 1]
    on it, and the model returns the quotient. *)
Definition verify_at (d : Design) (f : R) (z_l_orig : complex) : outcome R :=
  if (f1 d + f2 d =? 0) then Raised else
  let scale := f / (f1 d + f2 d) in
  let current_z := z_l_orig in
  current_z <- (if truthy (aux_line_Z d) then
                  zc <- need (aux_line_Z d) ;;
                  th <- need (aux_line_theta d) ;;
                  Ok (tline_input_z current_z zc (th * scale))
                else Ok current_z) ;;
  th1 <- need (theta1 d) ;;
  z1 <- need (Z1 d) ;;
  let current_z := tline_input_z current_z z1 (th1 * scale) in
  current_z <- (match aux_stub_type d with
                | Some _ =>
                    y2 <- need (aux_stub_Y2 d) ;;
                    let y_stub :=
                      stub_admittance y2 (PI * scale) (is_Open (aux_stub_type d)) in
                    Ok (1 / (1 / current_z + y_stub))%C
                | None => Ok current_z
                end) ;;
  yn <- need (Y_n d) ;;
  let theta_pi := PI * scale in
  let y_pi_stub := stub_admittance yn theta_pi (is_Open (stub_type d)) in
  let current_z := (1 / (1 / current_z + y_pi_stub))%C in
  zm <- need (Z_m d) ;;
  let current_z := tline_input_z current_z zm theta_pi in
  let current_z := (1 / (1 / current_z + y_pi_stub))%C in
  let rho := ((current_z - Z0 d) / (current_z + Z0 d))%C in
  Ok ((1 + Cabs rho) / (1 - Cabs rho)).

(** A Python dictionary with float keys, in insertion order. *)
Fixpoint dict_set (k v : R) (m : list (R * R)) : list (R * R) :=
  match m with
  | [] => [(k, v)]
  | (k', v') :: m' =>
      if k' =? k then (k', v) :: m' else (k', v') :: dict_set k v m'
  end.

Fixpoint dict_get (k : R) (m : list (R * R)) : outcome R :=
  match m with
  | [] => Raised
  | (k', v') :: m' => if k' =? k then Ok v' else dict_get k m'
  end.

Definition verify_metrics (d : Design) : outcome (list (R * R)) :=
  v1 <- verify_at d (f1 d) (Z_L1_orig d) ;;
  v2 <- verify_at d (f2 d) (Z_L2_orig d) ;;
  Ok (dict_set (f2 d) v2 (dict_set (f1 d) v1 [])).

(** ** The search *)

(** Python's [range(start, stop, step)] for a positive step. *)
Definition range (start stop step : Z) : list Z :=
  map (fun i => (start + step * Z.of_nat i)%Z)
      (seq 0 (Z.to_nat ((stop - start + step - 1) / step))).

Definition theta_aux_range (scan_load_aux_line : bool) : list Z :=
  if scan_load_aux_line then range 0 180 5 else [0%Z].

Definition k_range : list Z := [0%Z; 1%Z].

(** The grid points in the order the two nested loops visit them. *)
Definition grid (scan_load_aux_line : bool) : list (Z * Z) :=
  flat_map (fun theta_aux => map (fun k => (theta_aux, k)) k_range)
           (theta_aux_range scan_load_aux_line).

(** The synthesis part of the loop body: the design object as it stands
    after [synthesize_pi_network]. *)
Definition design_at (f1 f2 : R) (Z_L1 Z_L2 : complex) (Z0 : R)
  (allow_aux_stub : bool) (theta_aux k : Z) : outcome Design :=
  design <- __init__ f1 f2 Z_L1 Z_L2 Z0 ;;
  design <- (if (theta_aux >? 0)%Z then apply_aux_line 50 (IZR theta_aux) design
             else Ok design) ;;
  design <- calculate_conjugate_transform k design ;;
  design <- check_region_and_adjust allow_aux_stub design ;;
  design <- calculate_matching_network design ;;
  synthesize_pi_network design.

Definition with_vswr (p : Params) (v1 v2 : R) : Params :=
  {| f_design := f_design p; region_tag := region_tag p;
     Z_aux := Z_aux p; theta_aux_deg := theta_aux_deg p;
     Z1_param := Z1_param p; theta1_deg := theta1_deg p;
     Z_series := Z_series p; Z_stub := Z_stub p;
     stub_type_tag := stub_type_tag p;
     aux_stub_type_tag := aux_stub_type_tag p;
     aux_stub_Z := aux_stub_Z p;
     VSWR_f1 := Some v1; VSWR_f2 := Some v2 |}.

(** The rest of the loop body: the candidate reported for a design. *)
Definition candidate_of (f1 f2 : R) (design : Design) : outcome Params :=
  params <- get_design_parameters design ;;
  metrics <- verify_metrics design ;;
  v1 <- dict_get f1 metrics ;;
  v2 <- dict_get f2 metrics ;;
  Ok (with_vswr params v1 v2).

(** The body of the two loops at one grid point. *)
Definition run_point (f1 f2 : R) (Z_L1 Z_L2 : complex) (Z0 : R)
  (allow_aux_stub : bool) (pt : Z * Z) : outcome Params :=
  design <- design_at f1 f2 Z_L1 Z_L2 Z0 allow_aux_stub (fst pt) (snd pt) ;;
  candidate_of f1 f2 design.

(** The loops: a body that returns [False] at a stage is skipped
    ([continue]); an exception ends the search. *)
Fixpoint search_loop (body : Z * Z -> outcome Params) (points : list (Z * Z))
  (candidates : list Params) : outcome (list Params) :=
  match points with
  | [] => Ok candidates
  | pt :: rest =>
      match body pt with
      | Ok params => search_loop body rest (candidates ++ [params])
      | Unsolved => search_loop body rest candidates
      | Raised => Raised
      end
  end.

Definition find_all_designs (f1 f2 : R) (Z_L1 Z_L2 : complex) (Z0 : R)
  (allow_aux_stub scan_load_aux_line : bool) : outcome (list Params) :=
  search_loop (run_point f1 f2 Z_L1 Z_L2 Z0 allow_aux_stub)
              (grid scan_load_aux_line) [].

(** ** The caller: the result table of [streamlit_app.py] *)

(** The row test [df['Z_stub'] <= max_zn]; a missing value compares
    false. *)
Definition meets_constraint (max_zn : R) (c : Params) : bool :=
  match Z_stub c with
  | Some z => z <=? max_zn
  | None => false
  end.

(** [valid_df = df[df['Z_stub'] <= max_zn]]: the rows that pass, in the
    order of the frame. *)
Definition valid_df (max_zn : R) (df : list Params) : list Params :=
  filter (meets_constraint max_zn) df.

(** The column [Delta_50 = abs(valid_df['Z_stub'] - 50)]. *)
Definition Delta_50 (c : Params) : option R :=
  match Z_stub c with
  | Some z => Some (Rabs (z - 50))
  | None => None
  end.

(** The order of [sort_values]: ascending, missing values last. *)
Definition key_le (a b : option R) : Prop :=
  match a, b with
  | Some x, Some y => x <= y
  | _, None => True
  | None, Some _ => False
  end.

(** [valid_df.sort_values('Delta_50')].  The default sort of pandas is not
    stable, so that the order of rows with equal keys is not fixed: the
    model is the relation between the frame and each of its sorted
    permutations. *)
Definition sort_values (df sorted : list Params) : Prop :=
  Permutation sorted df /\
  StronglySorted (fun c c' => key_le (Delta_50 c) (Delta_50 c')) sorted.

(** [pd.notna(best['aux_stub_type']) and best['aux_stub_Z'] > 0] *)
Definition has_aux_stub (best : Params) : bool :=
  match aux_stub_type_tag best with
  | Some _ => aux_stub_Z best >? 0
  | None => false
  end.

(** What the page shows for the list [results] of the search: the error
    that no design was found; the warning that none meets the constraint,
    with the unfiltered table; or the sorted table with the recommended
    design, its first row, and the test [has_aux_stub] that decides on the
    column of the auxiliary stub. *)
Inductive View : Type :=
| NoDesigns
| NoneMeetConstraint (df : list Params)
| Recommended (table : list Params) (best : Params) (aux : bool).

Definition page (max_zn : R) (results : list Params) (v : View) : Prop :=
  match results with
  | [] => v = NoDesigns
  | _ :: _ =>
      match valid_df max_zn results with
      | [] => v = NoneMeetConstraint results
      | _ :: _ =>
          exists best rest,
            sort_values (valid_df max_zn results) (best :: rest) /\
            v = Recommended (best :: rest) best (has_aux_stub best)
      end
  end.

(** * The quantities the properties speak about

    The local variables of the stages and the steps of the replay, named
    so that the statements can refer to them. *)

(** The complex conjugate. *)
Definition Cconj (z : complex) : complex := mkC (real z) (- imag z).

(** The line formula, in the shape the synthesis writes it. *)
Definition line_formula (zc : R) (zl : complex) (T : R) : complex :=
  (zc * (zl + Ci * zc * T) / (zc + Ci * zl * T))%C.

(** The input impedance stage 1 stores: the line formula at the
    [f1]-scaled angle. *)
Definition conj_Z_in1 (k : Z) (d : Design) : complex :=
  let Z1' := sqrt (inside_sqrt d) in
  let theta1_f1 := (theta1_rad d + IZR k * PI) * p1 d in
  (Z1' * (Z_L1 d + Ci * Z1' * tan theta1_f1)
     / (Z1' + Ci * Z_L1 d * tan theta1_f1))%C.

(** The normalized resistance and conductance the classifier tests. *)
Definition norm_r (zin : complex) (z0 : R) : R := real (zin / z0)%C.
Definition norm_g (zin : complex) (z0 : R) : R := real (1 / (zin / z0))%C.

(** The stub admittances [_add_auxiliary_stub] tries for the design
    fraction [p] and the stage-1 input impedance [zin]. *)
Definition aux_Y2_open (p : R) (zin : complex) : R :=
  if Rabs (tan (p * PI)) >? 1e-9
  then - imag (1 / zin)%C / tan (p * PI) else 0.
Definition aux_Y2_short (p : R) (zin : complex) : R :=
  - - imag (1 / zin)%C * tan (p * PI).

(** The stub admittance stage 4 settles on. *)
Definition pi_Y_n (p zt th : R) : R :=
  if pi_Y_open p zt th >? 0 then pi_Y_open p zt th
  else if pi_Y_short p zt th >? 0 then pi_Y_short p zt th
  else if negb (pi_Y_open p zt th =? 0) then pi_Y_open p zt th else 0.02.

Definition pi_stub_type (p zt th : R) : StubType :=
  if pi_Y_open p zt th >? 0 then Open
  else if pi_Y_short p zt th >? 0 then Short
  else Open.

(** The design a grid point starts from: the fresh object, through the
    auxiliary line when its angle is positive. *)
Definition prepared (theta_aux : Z) (d0 : Design) : Design :=
  if (theta_aux >? 0)%Z then with_aux_line 50 (IZR theta_aux) d0 else d0.

(** The same step with its exception: [apply_aux_line] when the angle is
    positive. *)
Definition prepare (theta_aux : Z) (d0 : Design) : outcome Design :=
  if (theta_aux >? 0)%Z then apply_aux_line 50 (IZR theta_aux) d0 else Ok d0.

(** Every attribute the report and the verification read is set. *)
Definition synthesized (d : Design) : Prop :=
  f1 d + f2 d <> 0 /\
  (exists z, Z1 d = Some z) /\
  (exists t, theta1 d = Some t) /\
  (exists z, Z_m d = Some z) /\
  (exists y, Y_n d = Some y) /\
  (aux_line_Z d = None \/ exists t, aux_line_theta d = Some t) /\
  (aux_stub_type d = None \/ exists y, aux_stub_Y2 d = Some y).

(** A shunt admittance [y] across the impedance [z]. *)
Definition shunt (z y : complex) : complex := (1 / (1 / z + y))%C.

Definition vswr_of (z : complex) (z0 : R) : R :=
  let rho := ((z - z0) / (z + z0))%C in
  (1 + Cabs rho) / (1 - Cabs rho).

Definition after_aux_line (d : Design) (scale : R) (z : complex) : complex :=
  match aux_line_Z d, aux_line_theta d with
  | Some zc, Some th =>
      if truthy (Some zc) then tline_input_z z zc (th * scale) else z
  | _, _ => z
  end.

Definition after_aux_stub (d : Design) (scale : R) (z : complex) : complex :=
  match aux_stub_type d, aux_stub_Y2 d with
  | Some ty, Some y2 =>
      shunt z (stub_admittance y2 (PI * scale) (is_Open (Some ty)))
  | _, _ => z
  end.

(** The impedance the replay ends with, at the frequency whose fraction of
    the design frequency is [scale], for the load [zl]. *)
Definition replay (d : Design) (z1 th1 yn zm scale : R) (zl : complex) : complex :=
  let z := after_aux_line d scale zl in
  let z := tline_input_z z z1 (th1 * scale) in
  let z := after_aux_stub d scale z in
  let y := stub_admittance yn (PI * scale) (is_Open (stub_type d)) in
  shunt (tline_input_z (shunt z y) zm (PI * scale)) y.

(** The fresh design object for [f1] = 1 GHz and [f2] = 3 GHz. *)
Definition quarter_design (ZL1 ZL2 : complex) (z0 : R) : Design :=
  mkDesign 1e9 3e9 ZL1 ZL2 ZL1 ZL2 z0 (1e9 / (1e9 + 3e9)) (3e9 / (1e9 + 3e9))
    None None None None None None None None None None None None None None None.

(** What the loop appends at a grid point. *)
Definition emitted (body : Z * Z -> outcome Params) (pt : Z * Z) : list Params :=
  match body pt with Ok c => [c] | _ => [] end.

(** A stable insertion sort on [Delta_50]: one of the orders [sort_values]
    can give. *)
Definition key_leb (a b : option R) : bool :=
  match a, b with
  | Some x, Some y => x <=? y
  | _, None => true
  | None, Some _ => false
  end.

Fixpoint insert_row (c : Params) (l : list Params) : list Params :=
  match l with
  | [] => [c]
  | c' :: l' =>
      if key_leb (Delta_50 c) (Delta_50 c') then c :: l else c' :: insert_row c l'
  end.

Definition insertion_sort (df : list Params) : list Params :=
  fold_right insert_row [] df.

(** The design and the report with both frequencies multiplied by [s],
    and the image of an outcome. *)
Definition omap {A B : Type} (f : A -> B) (m : outcome A) : outcome B :=
  match m with
  | Ok a => Ok (f a)
  | Unsolved => Unsolved
  | Raised => Raised
  end.

Definition rescale (s : R) (d : Design) : Design :=
  {| f1 := s * f1 d; f2 := s * f2 d;
     Z_L1_orig := Z_L1_orig d; Z_L2_orig := Z_L2_orig d;
     Z_L1 := Z_L1 d; Z_L2 := Z_L2 d;
     Z0 := Z0 d; p1 := p1 d; p2 := p2 d;
     aux_line_Z := aux_line_Z d; aux_line_theta := aux_line_theta d;
     Z1 := Z1 d; theta1 := theta1 d; region := region d;
     aux_stub_type := aux_stub_type d; aux_stub_Y2 := aux_stub_Y2 d;
     Z_T1 := Z_T1 d; theta_T1 := theta_T1 d; Z_m := Z_m d;
     stub_type := stub_type d; Z_n := Z_n d; Y_n := Y_n d;
     Z_in1 := Z_in1 d; Z_in_matched := Z_in_matched d |}.

Definition rescale_params (s : R) (p : Params) : Params :=
  {| f_design := s * f_design p; region_tag := region_tag p;
     Z_aux := Z_aux p; theta_aux_deg := theta_aux_deg p;
     Z1_param := Z1_param p; theta1_deg := theta1_deg p;
     Z_series := Z_series p; Z_stub := Z_stub p;
     stub_type_tag := stub_type_tag p;
     aux_stub_type_tag := aux_stub_type_tag p;
     aux_stub_Z := aux_stub_Z p;
     VSWR_f1 := VSWR_f1 p; VSWR_f2 := VSWR_f2 p |}.

(** ** Worked inputs

    Inputs A, C and D have [f1] = 1 GHz, [f2] = 3 GHz and [Z0 = 50], and are
    taken at a grid point without auxiliary line.
    Input A: [Z_L1 = 3.125 + 1.875j], [Z_L2 = 31.25 - 7.5j], branch k = 1.
    Input C: [Z_L1 = 25 + 50j], [Z_L2 = 100 - 50j], branch k = 0.
    Input D: [Z_L1 = 39 + 13j], [Z_L2 = 75 + 11j], branch k = 1.
    Inputs H and K have [f1] = 1 Hz, [f2] = 1 THz and [Z0 = 50]: at this
    ratio [tan (p1 pi)], about 3e-12, is under the clamp 1e-9 of the two
    stub selections.
    Input H: [Z_L1 = 20 + 30j], [Z_L2 = 80].
    Input K: the loads of input H exchanged. *)

Definition exA_ZL1 : complex := mkC 3.125 1.875.
Definition exA_ZL2 : complex := mkC 31.25 (- 7.5).

Definition exA_d1 : Design :=
  set_conjugate_line (quarter_design exA_ZL1 exA_ZL2 50) 10 (4 * atan 2)
    (mkC 20 15).
Definition exA_d2 : Design := set_region exA_d1 (mkC 20 15) region_b None None.
Definition exA_d3 : Design := set_matching_line exA_d2 25 (PI / 4).
Definition exA_design : Design := set_pi_network exA_d3 25 Open 0.02.

Definition exC_ZL1 : complex := mkC 25 50.
Definition exC_ZL2 : complex := mkC 100 (- 50).

Definition exC_d1 : Design :=
  set_conjugate_line (quarter_design exC_ZL1 exC_ZL2 50) 0 0 (mkC 0 0).
Definition exC_d2 : Design :=
  set_region exC_d1 (mkC 0 0) region_a (Some Open) (Some 0.02).
Definition exC_d3 : Design := set_matching_line exC_d2 0 (PI / 2).
Definition exC_design : Design := set_pi_network exC_d3 0 Open 0.02.

Definition exD_ZL1 : complex := mkC 39 13.
Definition exD_ZL2 : complex := mkC 75 11.

Definition exD_d1 : Design :=
  set_conjugate_line (quarter_design exD_ZL1 exD_ZL2 50) 52 (4 * atan 2)
    (mkC 78 0).
Definition exD_d2 : Design := set_region exD_d1 (mkC 78 0) region_a None None.
Definition exD_d3 : Design :=
  set_matching_line exD_d2 (sqrt (term_sqrt (mkC 78 0) 50)) (PI / 2).
Definition exD_design : Design :=
  let p := 1e9 / (1e9 + 3e9) in
  let zt := sqrt (term_sqrt (mkC 78 0) 50) in
  set_pi_network exD_d3 (pi_Z_m p zt (PI / 2)) (pi_stub_type p zt (PI / 2))
    (pi_Y_n p zt (PI / 2)).

(** Two designs after stage 1 that the classifier puts in region (c):
    [Z_in1 = 20 + 30j], for which an open stub exists, and [Z_in1 = 50],
    for which none does. *)
Definition exE_d1 : Design :=
  set_conjugate_line (quarter_design exA_ZL1 exA_ZL2 50) 10 (4 * atan 2)
    (mkC 20 30).
Definition exF_d1 : Design :=
  set_conjugate_line (quarter_design exA_ZL1 exA_ZL2 50) 10 (4 * atan 2)
    (mkC 50 0).

(** A design after stage 3 with [Z_T1 = 40] and [theta_T1 = pi / 3]. *)
Definition exG_d3 : Design := set_matching_line exD_d2 40 (PI / 3).

(** The design fraction [p1] of 1 Hz against 1 THz. *)
Definition p_far : R := 1 / (1 + 1e12).

(** The fresh design object for [f1] = 1 Hz and [f2] = 1 THz. *)
Definition far_design (ZL1 ZL2 : complex) (z0 : R) : Design :=
  mkDesign 1 1e12 ZL1 ZL2 ZL1 ZL2 z0 (1 / (1 + 1e12)) (1e12 / (1 + 1e12))
    None None None None None None None None None None None None None None None.

Definition exH_ZL1 : complex := mkC 20 30.
Definition exH_ZL2 : complex := mkC 80 0.

(** * Properties *)

(** ** The boolean tests decide the comparisons *)

Lemma Rltb_true (x y : R) : (x <? y) = true <-> x < y.
Proof. unfold Rltb; destruct (Rlt_dec x y); split; intros; try discriminate; tauto. Qed.

Lemma Rltb_false (x y : R) : (x <? y) = false <-> y <= x.
Proof.
  unfold Rltb; destruct (Rlt_dec x y); split; intros;
    try discriminate; try reflexivity; lra.
Qed.

Lemma Rleb_true (x y : R) : (x <=? y) = true <-> x <= y.
Proof. unfold Rleb; destruct (Rle_dec x y); split; intros; try discriminate; tauto. Qed.

Lemma Rleb_false (x y : R) : (x <=? y) = false <-> y < x.
Proof.
  unfold Rleb; destruct (Rle_dec x y); split; intros;
    try discriminate; try reflexivity; lra.
Qed.

Lemma Reqb_true (x y : R) : (x =? y) = true <-> x = y.
Proof. unfold Reqb; destruct (Req_dec_T x y); split; intros; try discriminate; tauto. Qed.

Lemma Reqb_false (x y : R) : (x =? y) = false <-> x <> y.
Proof.
  unfold Reqb; destruct (Req_dec_T x y); split; intros; try discriminate; tauto.
Qed.

Lemma Reqb_refl (x : R) : (x =? x) = true.
Proof. apply Reqb_true; reflexivity. Qed.

(** Settle a boolean test from the arithmetic facts at hand. *)
Ltac decide_test :=
  match goal with
  | |- (_ <? _) = true => apply Rltb_true
  | |- (_ <? _) = false => apply Rltb_false
  | |- (_ <=? _) = true => apply Rleb_true
  | |- (_ <=? _) = false => apply Rleb_false
  | |- (_ =? _) = true => apply Reqb_true
  | |- (_ =? _) = false => apply Reqb_false
  end.

(** Split on the boolean test [c], keeping its meaning as a hypothesis. *)
Ltac case_test c :=
  let E := fresh "E" in
  destruct c eqn:E;
  [ first [ apply Rltb_true in E | apply Rleb_true in E | apply Reqb_true in E ]
  | first [ apply Rltb_false in E | apply Rleb_false in E | apply Reqb_false in E ] ].

(** ** The constructor *)

Lemma init_ok (fa fb : R) (ZL1 ZL2 : complex) (z0 : R) :
  fa + fb <> 0 ->
  __init__ fa fb ZL1 ZL2 z0 =
  Ok (mkDesign fa fb ZL1 ZL2 ZL1 ZL2 z0 (fa / (fa + fb)) (fb / (fa + fb))
        None None None None None None None None None None None None None
        None None).
Proof.
  intros H. unfold __init__.
  replace (fa + fb =? 0) with false by (symmetry; decide_test; exact H).
  reflexivity.
Qed.

(** C9, in exact arithmetic. For positive frequencies the constructor
    returns, and the design fractions are [p1 = f1/(f1+f2)] and
    [p2 = f2/(f1+f2)], whose sum is 1. *)
Theorem design_fractions_sum_to_one (fa fb : R) (ZL1 ZL2 : complex) (z0 : R) :
  0 < fa -> 0 < fb ->
  exists d, __init__ fa fb ZL1 ZL2 z0 = Ok d /\
            p1 d = fa / (fa + fb) /\ p2 d = fb / (fa + fb) /\
            p1 d + p2 d = 1.
Proof.
  intros Ha Hb. eexists. split.
  - apply init_ok. lra.
  - cbn. repeat split. field. lra.
Qed.

Lemma design_fractions_sum_to_one_witness :
  exists d, __init__ 0.9e9 1.2e9 (mkC 22.4 16.3) (mkC 26.2 20.3) 50 = Ok d /\
            p1 d = 0.9e9 / (0.9e9 + 1.2e9) /\ p2 d = 1.2e9 / (0.9e9 + 1.2e9) /\
            p1 d + p2 d = 1.
Proof. apply design_fractions_sum_to_one; lra. Defined.

(** C9, the claim as stated, fails on the doubles the constructor stores.
    For [f1 = 939502008.1555747] and [f2 = 284446417.74354106] the two
    quotients add up to 0.9999999999999999, the double below 1; for
    [f1 = f2 = 1e308] the sum [f1 + f2] overflows to infinity and both
    fractions are 0.  (The three doubles are written in hexadecimal; the
    sum of two doubles is rounded correctly, so that a sum below 1 shows
    that the two fractions do not add up to 1 as real numbers either.) *)
Lemma fractions_sum_below_one_on_doubles :
  (exists p1 p2 : float,
     Binary64.__init__ 0x1.bffd4dc13e9dfp+29%float 0x1.0f44ed1be58b5p+28%float =
       Ok (p1, p2) /\
     (p1 + p2)%float = 0x1.fffffffffffffp-1%float /\
     PrimFloat.ltb (p1 + p2)%float 1%float = true) /\
  Binary64.__init__ 0x1.1ccf385ebc8ap+1023%float 0x1.1ccf385ebc8ap+1023%float =
    Ok (0%float, 0%float).
Proof.
  split.
  - eexists. eexists. split; [vm_compute; reflexivity|].
    split; vm_compute; reflexivity.
  - vm_compute. reflexivity.
Qed.

(** ** The grid *)

Lemma search_loop_app body pts1 pts2 acc :
  search_loop body (pts1 ++ pts2) acc =
  (acc' <- search_loop body pts1 acc ;; search_loop body pts2 acc').
Proof.
  revert acc. induction pts1 as [|pt pts1 IH]; intros acc; cbn; [reflexivity|].
  destruct (body pt); cbn; auto.
Qed.

(** Every call of the body that returns adds at most one candidate. *)
Lemma search_loop_length body pts acc l :
  search_loop body pts acc = Ok l ->
  (length acc <= length l <= length acc + length pts)%nat.
Proof.
  revert acc. induction pts as [|pt pts IH]; intros acc H; cbn in H.
  - injection H as <-. cbn. lia.
  - destruct (body pt) as [c | |]; try discriminate.
    + apply IH in H. rewrite length_app in H. cbn in *. lia.
    + apply IH in H. cbn. lia.
Qed.

(** ** Stage 1: when it fails, and the two branches *)

Lemma calculate_conjugate_transform_ok (k : Z) (d : Design) :
  1e-6 <= Rabs (real (Z_L2 d) - real (Z_L1 d)) ->
  0 <= inside_sqrt d ->
  calculate_conjugate_transform k d =
  Ok (set_conjugate_line d (sqrt (inside_sqrt d))
        (theta1_rad d + IZR k * PI) (conj_Z_in1 k d)).
Proof.
  intros H1 H2. unfold calculate_conjugate_transform.
  replace (Rabs (real (Z_L2 d) - real (Z_L1 d)) <? 1e-6) with false
    by (symmetry; decide_test; exact H1).
  replace (inside_sqrt d <? 0) with false by (symmetry; decide_test; exact H2).
  reflexivity.
Qed.

Lemma calculate_conjugate_transform_cases (k : Z) (d : Design) :
  (calculate_conjugate_transform k d = Unsolved /\
   (Rabs (real (Z_L2 d) - real (Z_L1 d)) < 1e-6 \/ inside_sqrt d < 0)) \/
  (calculate_conjugate_transform k d =
     Ok (set_conjugate_line d (sqrt (inside_sqrt d))
           (theta1_rad d + IZR k * PI) (conj_Z_in1 k d)) /\
   1e-6 <= Rabs (real (Z_L2 d) - real (Z_L1 d)) /\ 0 <= inside_sqrt d).
Proof.
  unfold calculate_conjugate_transform.
  case_test (Rabs (real (Z_L2 d) - real (Z_L1 d)) <? 1e-6); [left; tauto|].
  case_test (inside_sqrt d <? 0); [left; tauto|].
  right. repeat split; assumption.
Qed.

(** C3. Stage 1 returns [False] exactly when the two load resistances
    differ by less than 1e-6 or the radicand of [Z1] is negative (it never
    raises), and on a grid point where it does, the loop body ends without
    a candidate and the loop goes on with the candidates it had. *)
Theorem conjugate_stage_failure (k : Z) (d : Design) :
  (calculate_conjugate_transform k d = Unsolved <->
     Rabs (real (Z_L2 d) - real (Z_L1 d)) < 1e-6 \/ inside_sqrt d < 0) /\
  calculate_conjugate_transform k d <> Raised /\
  forall fa fb ZL1 ZL2 z0 allow theta_aux d0 rest acc,
    __init__ fa fb ZL1 ZL2 z0 = Ok d0 ->
    prepare theta_aux d0 = Ok d ->
    calculate_conjugate_transform k d = Unsolved ->
    run_point fa fb ZL1 ZL2 z0 allow (theta_aux, k) = Unsolved /\
    search_loop (run_point fa fb ZL1 ZL2 z0 allow) ((theta_aux, k) :: rest) acc =
    search_loop (run_point fa fb ZL1 ZL2 z0 allow) rest acc.
Proof.
  split; [|split].
  - destruct (calculate_conjugate_transform_cases k d) as [[E C]|[E [C1 C2]]];
      rewrite E; split; intros H; try discriminate; try assumption; try reflexivity.
    destruct H; lra.
  - destruct (calculate_conjugate_transform_cases k d) as [[E C]|[E [C1 C2]]];
      rewrite E; discriminate.
  - intros fa fb ZL1 ZL2 z0 allow theta_aux d0 rest acc Hi Hd Hc.
    assert (Hr : run_point fa fb ZL1 ZL2 z0 allow (theta_aux, k) = Unsolved).
    { unfold run_point, design_at. cbn [fst snd]. rewrite Hi. cbn [bind].
      fold (prepare theta_aux d0). rewrite Hd. cbn [bind]. rewrite Hc.
      reflexivity. }
    split; [exact Hr|]. cbn [search_loop]. rewrite Hr. reflexivity.
Qed.

(** C5. For one load and auxiliary-line configuration [d], the branches
    succeed together, and the angle of branch k = 1 is the angle of branch
    k = 0 plus pi; the angle of branch k = 0 is the arctangent (or pi/2)
    with pi added when negative, so the correction comes before the
    offset [k * pi]. *)
Theorem theta1_branch_offset (d d0 : Design) :
  calculate_conjugate_transform 0 d = Ok d0 ->
  exists d1 t0,
    calculate_conjugate_transform 1 d = Ok d1 /\
    theta1 d0 = Some t0 /\
    theta1 d1 = Some (t0 + PI) /\
    t0 = (if theta1_raw d <? 0 then theta1_raw d + PI else theta1_raw d) /\
    forall k dk, calculate_conjugate_transform k d = Ok dk ->
                 theta1 dk = Some (t0 + IZR k * PI).
Proof.
  intros H0.
  destruct (calculate_conjugate_transform_cases 0 d) as [[E C]|[E [C1 C2]]];
    rewrite E in H0; [discriminate|].
  injection H0 as <-.
  exists (set_conjugate_line d (sqrt (inside_sqrt d))
            (theta1_rad d + 1 * PI) (conj_Z_in1 1 d)), (theta1_rad d).
  split; [apply calculate_conjugate_transform_ok; assumption|].
  cbn [theta1 set_conjugate_line]. repeat split.
  - f_equal. ring.
  - f_equal. ring.
  - intros k dk Hk. rewrite calculate_conjugate_transform_ok in Hk by assumption.
    injection Hk as <-. reflexivity.
Qed.

(** ** The monad *)

Lemma bind_Ok_inv {A B : Type} (m : outcome A) (k : A -> outcome B) (b : B) :
  bind m k = Ok b -> exists a, m = Ok a /\ k a = Ok b.
Proof. destruct m; cbn; intros H; try discriminate. eauto. Qed.

Lemma need_Ok_inv {A : Type} (o : option A) (a : A) : need o = Ok a -> o = Some a.
Proof. destruct o; cbn; intros H; try discriminate. injection H as <-. reflexivity. Qed.

(** Turn [bind m k = Ok b] in the context into its two steps. *)
Ltac inv_bind H :=
  let a := fresh "a" in
  let H1 := fresh H "_l" in
  let H2 := fresh H "_r" in
  apply bind_Ok_inv in H; destruct H as [a [H1 H2]].

(** ** Stage 2: the three regions *)

Lemma add_auxiliary_stub_cases (d : Design) (zin : complex) :
  Z_in1 d = Some zin ->
  let Y_in1 := (1 / zin)%C in
  let tan_theta := tan (p1 d * PI) in
  (0 < aux_Y2_open (p1 d) zin /\
   _add_auxiliary_stub d =
   Ok (set_region d (1 / (Y_in1 + Ci * aux_Y2_open (p1 d) zin * tan_theta))%C
         region_a (Some Open) (Some (aux_Y2_open (p1 d) zin)))) \/
  (aux_Y2_open (p1 d) zin <= 0 /\ 0 < aux_Y2_short (p1 d) zin /\
   _add_auxiliary_stub d =
   Ok (set_region d (1 / (Y_in1 + - Ci * aux_Y2_short (p1 d) zin / tan_theta))%C
         region_a (Some Short) (Some (aux_Y2_short (p1 d) zin)))) \/
  (aux_Y2_open (p1 d) zin <= 0 /\ aux_Y2_short (p1 d) zin <= 0 /\
   _add_auxiliary_stub d =
   Ok (set_region d (1 / (Y_in1 + RtoC 0))%C region_a (Some Open) (Some 0.02))).
Proof.
  intros Hz. cbv zeta. unfold _add_auxiliary_stub. rewrite Hz. cbn [need bind].
  fold (aux_Y2_open (p1 d) zin). fold (aux_Y2_short (p1 d) zin).
  case_test (aux_Y2_open (p1 d) zin >? 0); [left; split; [assumption|reflexivity]|].
  case_test (aux_Y2_short (p1 d) zin >? 0).
  - right; left. repeat split; assumption.
  - right; right. repeat split; assumption.
Qed.

Lemma check_region_cases (allow : bool) (d : Design) (zin : complex) :
  Z_in1 d = Some zin ->
  let keep r := set_region d zin r (aux_stub_type d) (aux_stub_Y2 d) in
  (1 < norm_r zin (Z0 d) /\
   check_region_and_adjust allow d = Ok (keep region_a)) \/
  (norm_r zin (Z0 d) <= 1 /\ 1 < norm_g zin (Z0 d) /\
   check_region_and_adjust allow d = Ok (keep region_b)) \/
  (norm_r zin (Z0 d) <= 1 /\ norm_g zin (Z0 d) <= 1 /\ allow = false /\
   check_region_and_adjust allow d = Ok (keep region_c)) \/
  (norm_r zin (Z0 d) <= 1 /\ norm_g zin (Z0 d) <= 1 /\ allow = true /\
   check_region_and_adjust allow d = _add_auxiliary_stub (keep region_c)).
Proof.
  intros Hz. cbv zeta. unfold check_region_and_adjust. rewrite Hz. cbn [need bind].
  fold (norm_r zin (Z0 d)). fold (norm_g zin (Z0 d)).
  case_test (norm_r zin (Z0 d) >? 1); [left; split; [assumption|reflexivity]|].
  case_test (norm_g zin (Z0 d) >? 1);
    [right; left; repeat split; assumption|].
  destruct allow.
  - right; right; right. repeat split; assumption.
  - right; right; left. repeat split; assumption.
Qed.

(** ** Stage 3 and stage 4: their results *)

Lemma calculate_matching_network_cases (d : Design) (zin : complex) :
  Z_in_matched d = Some zin ->
  (term_sqrt zin (Z0 d) < 0 /\ calculate_matching_network d = Unsolved) \/
  (0 <= term_sqrt zin (Z0 d) /\
   calculate_matching_network d =
   Ok (set_matching_line d (sqrt (term_sqrt zin (Z0 d))) (theta_T1_rad zin (Z0 d)))).
Proof.
  intros Hz. unfold calculate_matching_network. rewrite Hz. cbn [need bind].
  case_test (term_sqrt zin (Z0 d) <? 0); [left|right]; split;
    try assumption; reflexivity.
Qed.

Lemma synthesize_pi_network_ok (d : Design) (zt th : R) :
  Z_T1 d = Some zt -> theta_T1 d = Some th ->
  synthesize_pi_network d =
  Ok (set_pi_network d (pi_Z_m (p1 d) zt th) (pi_stub_type (p1 d) zt th)
        (pi_Y_n (p1 d) zt th)).
Proof.
  intros H1 H2. unfold synthesize_pi_network, pi_Y_n, pi_stub_type.
  rewrite H1, H2. cbn [need bind].
  destruct (pi_Y_open (p1 d) zt th >? 0); [reflexivity|].
  destruct (pi_Y_short (p1 d) zt th >? 0); reflexivity.
Qed.

(** ** The loop body, stage by stage *)

(** The auxiliary line raises or leaves the prepared design; it raises
    only on a load without resistance. *)
Lemma prepare_cases (theta_aux : Z) (d0 : Design) :
  prepare theta_aux d0 = Raised \/
  prepare theta_aux d0 = Ok (prepared theta_aux d0).
Proof.
  unfold prepare, prepared, apply_aux_line.
  destruct (theta_aux >? 0)%Z; [|right; reflexivity].
  cbv zeta. destruct (Cis_zero _); [left; reflexivity|].
  destruct (Cis_zero _); [left; reflexivity|right; reflexivity].
Qed.

Lemma prepare_Ok_inv (theta_aux : Z) (d0 dp : Design) :
  prepare theta_aux d0 = Ok dp -> dp = prepared theta_aux d0.
Proof.
  intros H. destruct (prepare_cases theta_aux d0) as [E|E]; rewrite E in H;
    [discriminate|]. injection H as <-. reflexivity.
Qed.

Lemma aux_line_divisor_nonzero (zl : complex) (T : R) :
  real zl <> 0 -> Cis_zero (50 + Ci * zl * T)%C = false.
Proof.
  intros Hr. unfold Cis_zero. apply andb_false_iff.
  destruct (Req_dec T 0) as [->|HT].
  - left. decide_test. cbn. lra.
  - right. decide_test. cbn.
    replace ((0 * real zl - 1 * imag zl) * 0 + (0 * imag zl + 1 * real zl) * T)
      with (real zl * T) by ring.
    replace (0 + real zl * T) with (real zl * T) by ring.
    apply Rmult_integral_contrapositive_currified; assumption.
Qed.

Lemma prepare_resistive (theta_aux : Z) (d0 : Design) :
  real (Z_L1_orig d0) <> 0 -> real (Z_L2_orig d0) <> 0 ->
  prepare theta_aux d0 = Ok (prepared theta_aux d0).
Proof.
  intros H1 H2. unfold prepare, prepared, apply_aux_line.
  destruct (theta_aux >? 0)%Z; [|reflexivity]. cbv zeta.
  rewrite !aux_line_divisor_nonzero by assumption. reflexivity.
Qed.

Lemma design_at_inv fa fb ZL1 ZL2 z0 allow theta_aux k d :
  design_at fa fb ZL1 ZL2 z0 allow theta_aux k = Ok d ->
  exists d0 d1 d2 d3,
    __init__ fa fb ZL1 ZL2 z0 = Ok d0 /\
    calculate_conjugate_transform k (prepared theta_aux d0) = Ok d1 /\
    check_region_and_adjust allow d1 = Ok d2 /\
    calculate_matching_network d2 = Ok d3 /\
    synthesize_pi_network d3 = Ok d.
Proof.
  unfold design_at. intros H.
  inv_bind H. fold (prepare theta_aux a) in H_r.
  destruct (prepare_cases theta_aux a) as [E|E]; rewrite E in H_r;
    [discriminate|]. cbn [bind] in H_r.
  inv_bind H_r. inv_bind H_r_r. inv_bind H_r_r_r.
  eauto 10.
Qed.

Lemma design_at_intro fa fb ZL1 ZL2 z0 allow theta_aux k d0 d1 d2 d3 :
  __init__ fa fb ZL1 ZL2 z0 = Ok d0 ->
  prepare theta_aux d0 = Ok (prepared theta_aux d0) ->
  calculate_conjugate_transform k (prepared theta_aux d0) = Ok d1 ->
  check_region_and_adjust allow d1 = Ok d2 ->
  calculate_matching_network d2 = Ok d3 ->
  design_at fa fb ZL1 ZL2 z0 allow theta_aux k = synthesize_pi_network d3.
Proof.
  intros H0 Hp H1 H2 H3. unfold design_at. rewrite H0. cbn [bind].
  fold (prepare theta_aux d0). rewrite Hp. cbn [bind].
  rewrite H1. cbn [bind]. rewrite H2. cbn [bind].
  rewrite H3. reflexivity.
Qed.

(** ** What a synthesized design holds *)

Lemma init_inv fa fb ZL1 ZL2 z0 d0 :
  __init__ fa fb ZL1 ZL2 z0 = Ok d0 ->
  fa + fb <> 0 /\
  d0 = mkDesign fa fb ZL1 ZL2 ZL1 ZL2 z0 (fa / (fa + fb)) (fb / (fa + fb))
         None None None None None None None None None None None None None
         None None.
Proof.
  unfold __init__. case_test (fa + fb =? 0); intros H; [discriminate|].
  injection H as <-. split; [assumption|reflexivity].
Qed.

Lemma check_region_form (allow : bool) (d1 d2 : Design) (zin : complex) :
  Z_in1 d1 = Some zin ->
  check_region_and_adjust allow d1 = Ok d2 ->
  exists zm r sty sy2,
    d2 = set_region d1 zm r sty sy2 /\
    ((sty = aux_stub_type d1 /\ sy2 = aux_stub_Y2 d1 /\ zm = zin /\
      (r = region_c -> allow = false)) \/
     (allow = true /\ r = region_a /\ exists ty y, sty = Some ty /\ sy2 = Some y)).
Proof.
  intros Hz H.
  destruct (check_region_cases allow d1 zin Hz)
    as [[_ E]|[[_ [_ E]]|[[_ [_ [Ha E]]]|[_ [_ [Ha E]]]]]]; rewrite E in H.
  - injection H as <-. do 4 eexists. split; [reflexivity|]. left.
    repeat split; try reflexivity. discriminate.
  - injection H as <-. do 4 eexists. split; [reflexivity|]. left.
    repeat split; try reflexivity. discriminate.
  - injection H as <-. do 4 eexists. split; [reflexivity|]. left.
    repeat split; try reflexivity. intros _; exact Ha.
  - match type of H with _add_auxiliary_stub ?d' = _ =>
      destruct (add_auxiliary_stub_cases d' zin Hz)
        as [[_ E']|[[_ [_ E']]|[_ [_ E']]]]; rewrite E' in H
    end; injection H as <-; do 4 eexists; (split; [reflexivity|]); right;
      repeat split; try assumption; eauto.
Qed.

Lemma design_at_form fa fb ZL1 ZL2 z0 allow theta_aux k d :
  design_at fa fb ZL1 ZL2 z0 allow theta_aux k = Ok d ->
  exists d0 zm r sty sy2,
    __init__ fa fb ZL1 ZL2 z0 = Ok d0 /\
    let dp := prepared theta_aux d0 in
    let d1 := set_conjugate_line dp (sqrt (inside_sqrt dp))
                (theta1_rad dp + IZR k * PI) (conj_Z_in1 k dp) in
    let d2 := set_region d1 zm r sty sy2 in
    let zt := sqrt (term_sqrt zm z0) in
    let th := theta_T1_rad zm z0 in
    let p := fa / (fa + fb) in
    1e-6 <= Rabs (real (Z_L2 dp) - real (Z_L1 dp)) /\
    0 <= inside_sqrt dp /\
    check_region_and_adjust allow d1 = Ok d2 /\
    ((sty = None /\ sy2 = None /\ zm = conj_Z_in1 k dp /\
      (r = region_c -> allow = false)) \/
     (allow = true /\ r = region_a /\
      exists ty y, sty = Some ty /\ sy2 = Some y)) /\
    0 <= term_sqrt zm z0 /\
    d = set_pi_network (set_matching_line d2 zt th)
          (pi_Z_m p zt th) (pi_stub_type p zt th) (pi_Y_n p zt th).
Proof.
  intros H. apply design_at_inv in H.
  destruct H as [d0 [d1 [d2 [d3 [H0 [H1 [H2 [H3 H4]]]]]]]].
  destruct (init_inv _ _ _ _ _ _ H0) as [Hf Hd0].
  destruct (calculate_conjugate_transform_cases k (prepared theta_aux d0))
    as [[E _]|[E [C1 C2]]]; rewrite E in H1; [discriminate|].
  injection H1 as <-.
  match type of H2 with check_region_and_adjust _ ?d1' = _ =>
    destruct (check_region_form allow d1' d2
                (conj_Z_in1 k (prepared theta_aux d0)) eq_refl H2)
      as [zm [r [sty [sy2 [Hd2 Hst]]]]]
  end.
  assert (Hst' : (sty = None /\ sy2 = None /\
                  zm = conj_Z_in1 k (prepared theta_aux d0) /\
                  (r = region_c -> allow = false)) \/
                 (allow = true /\ r = region_a /\
                  exists ty y, sty = Some ty /\ sy2 = Some y)).
  { destruct Hst as [[A [B C]]|Hst]; [left|right; exact Hst].
    cbn in A, B. unfold prepared in A, B. rewrite Hd0 in A, B.
    destruct (theta_aux >? 0)%Z; cbn in A, B; repeat split; tauto. }
  clear Hst.
  assert (Hz0 : Z0 d2 = z0).
  { rewrite Hd2. cbn. unfold prepared. rewrite Hd0.
    destruct (theta_aux >? 0)%Z; reflexivity. }
  assert (Hp : p1 d2 = fa / (fa + fb)).
  { rewrite Hd2. cbn. unfold prepared. rewrite Hd0.
    destruct (theta_aux >? 0)%Z; reflexivity. }
  assert (Hzm : Z_in_matched d2 = Some zm) by (rewrite Hd2; reflexivity).
  destruct (calculate_matching_network_cases d2 zm Hzm) as [[_ E3]|[C3 E3]];
    rewrite E3 in H3; [discriminate|].
  injection H3 as <-.
  rewrite (synthesize_pi_network_ok _ (sqrt (term_sqrt zm (Z0 d2)))
             (theta_T1_rad zm (Z0 d2))) in H4 by reflexivity.
  injection H4 as <-.
  exists d0, zm, r, sty, sy2. split; [exact H0|]. cbv zeta.
  rewrite Hz0 in *. cbn [p1 set_matching_line]. rewrite Hp.
  rewrite <- Hd2. repeat split; try assumption.
Qed.

(** ** Directed forms of the stage lemmas *)

Lemma complex_eq (z w : complex) : real z = real w -> imag z = imag w -> z = w.
Proof. destruct z, w; cbn; intros -> ->; reflexivity. Qed.

Lemma sqrt_of_square (x y : R) : 0 <= y -> x = y * y -> sqrt x = y.
Proof. intros Hy ->. apply sqrt_square. exact Hy. Qed.

Lemma check_region_a (allow : bool) (d : Design) (zin : complex) :
  Z_in1 d = Some zin ->
  1 < norm_r zin (Z0 d) ->
  check_region_and_adjust allow d =
  Ok (set_region d zin region_a (aux_stub_type d) (aux_stub_Y2 d)).
Proof.
  intros Hz Hr.
  destruct (check_region_cases allow d zin Hz)
    as [[_ E]|[[C _]|[[C _]|[C _]]]]; try lra. exact E.
Qed.

Lemma check_region_b (allow : bool) (d : Design) (zin : complex) :
  Z_in1 d = Some zin ->
  norm_r zin (Z0 d) <= 1 -> 1 < norm_g zin (Z0 d) ->
  check_region_and_adjust allow d =
  Ok (set_region d zin region_b (aux_stub_type d) (aux_stub_Y2 d)).
Proof.
  intros Hz Hr Hg.
  destruct (check_region_cases allow d zin Hz)
    as [[C _]|[[_ [_ E]]|[[_ [C _]]|[_ [C _]]]]]; try lra. exact E.
Qed.

Lemma check_region_c_kept (d : Design) (zin : complex) :
  Z_in1 d = Some zin ->
  norm_r zin (Z0 d) <= 1 -> norm_g zin (Z0 d) <= 1 ->
  check_region_and_adjust false d =
  Ok (set_region d zin region_c (aux_stub_type d) (aux_stub_Y2 d)).
Proof.
  intros Hz Hr Hg.
  destruct (check_region_cases false d zin Hz)
    as [[C _]|[[_ [C _]]|[[_ [_ [_ E]]]|[_ [_ [C _]]]]]];
    first [exact E | discriminate | lra].
Qed.

Lemma check_region_c_stub (d : Design) (zin : complex) :
  Z_in1 d = Some zin ->
  norm_r zin (Z0 d) <= 1 -> norm_g zin (Z0 d) <= 1 ->
  check_region_and_adjust true d =
  _add_auxiliary_stub
    (set_region d zin region_c (aux_stub_type d) (aux_stub_Y2 d)).
Proof.
  intros Hz Hr Hg.
  destruct (check_region_cases true d zin Hz)
    as [[C _]|[[_ [C _]]|[[_ [_ [C _]]]|[_ [_ [_ E]]]]]];
    first [exact E | discriminate | lra].
Qed.

Lemma calculate_matching_network_ok (d : Design) (zin : complex) :
  Z_in_matched d = Some zin -> 0 <= term_sqrt zin (Z0 d) ->
  calculate_matching_network d =
  Ok (set_matching_line d (sqrt (term_sqrt zin (Z0 d))) (theta_T1_rad zin (Z0 d))).
Proof.
  intros Hz Ht.
  destruct (calculate_matching_network_cases d zin Hz) as [[C _]|[_ E]];
    [lra|exact E].
Qed.

(** ** Angles with rational tangents

    With [f2 = 3 f1] the design fraction is 1/4, and a conjugate line whose
    arctangent argument is 24/7 has, on branch k = 1, the [f1]-scaled angle
    [atan 2]: every quantity of such a design is rational. *)

Lemma sin_cos_atan_2 :
  sin (atan 2) = 2 * cos (atan 2) /\ 5 * (cos (atan 2) * cos (atan 2)) = 1.
Proof.
  pose proof (sin2_cos2 (atan 2)) as H. unfold Rsqr in H.
  assert (Hs : sin (atan 2) = 2 * cos (atan 2)).
  { rewrite sin_atan, cos_atan. unfold Rdiv. ring. }
  split; [exact Hs|]. rewrite Hs in H. lra.
Qed.

Lemma four_atan_2 : atan (24 / 7) + PI = 4 * atan 2.
Proof.
  destruct sin_cos_atan_2 as [Hs Hc].
  set (a := atan 2) in *.
  assert (Ha : 0 < a < PI / 2).
  { split.
    - rewrite <- atan_0. apply atan_increasing. lra.
    - pose proof (atan_bound 2). unfold a. lra. }
  assert (S2 : sin (2 * a) = 4 / 5) by (rewrite sin_2a, Hs; lra).
  assert (C2 : cos (2 * a) = - 3 / 5) by (rewrite cos_2a, Hs; lra).
  assert (S4 : sin (4 * a) = - 24 / 25).
  { replace (4 * a) with (2 * (2 * a)) by ring. rewrite sin_2a, S2, C2. lra. }
  assert (C4 : cos (4 * a) = - 7 / 25).
  { replace (4 * a) with (2 * (2 * a)) by ring. rewrite cos_2a, S2, C2. lra. }
  assert (Sx : sin (4 * a - PI) = 24 / 25).
  { rewrite sin_minus, S4, C4, sin_PI, cos_PI. lra. }
  assert (Cx : cos (4 * a - PI) = 7 / 25).
  { rewrite cos_minus, S4, C4, sin_PI, cos_PI. lra. }
  assert (Hx : - (PI / 2) < 4 * a - PI < PI / 2).
  { split.
    - destruct (Rlt_le_dec (- (PI / 2)) (4 * a - PI)) as [|Hle]; [assumption|].
      exfalso. pose proof (cos_le_0 (- (4 * a - PI))) as Hc0.
      rewrite cos_neg, Cx in Hc0. lra.
    - destruct (Rlt_le_dec (4 * a - PI) (PI / 2)) as [|Hle]; [assumption|].
      exfalso. pose proof (cos_le_0 (4 * a - PI)) as Hc0.
      rewrite Cx in Hc0. lra. }
  assert (T : tan (4 * a - PI) = 24 / 7) by (unfold tan; rewrite Sx, Cx; lra).
  rewrite <- T, atan_tan by exact Hx. ring.
Qed.

Lemma quarter_PI : 1e9 / (1e9 + 3e9) * PI = PI / 4.
Proof. field. Qed.

Lemma sin_PI4_pos : 0 < sin (PI / 4).
Proof. rewrite sin_PI4. apply Rdiv_lt_0_compat; [lra|apply sqrt_lt_R0; lra]. Qed.

Lemma sin_PI4_bounds : 1 / 2 < sin (PI / 4) < 1.
Proof.
  pose proof sin_PI4_pos as Hp.
  assert (H2 : sin (PI / 4) * sin (PI / 4) = 1 / 2).
  { rewrite sin_PI4. unfold Rdiv.
    replace (1 * / sqrt 2 * (1 * / sqrt 2)) with (/ (sqrt 2 * sqrt 2)).
    - rewrite sqrt_sqrt; lra.
    - field. apply sqrt2_neq_0. }
  split; nra.
Qed.

Lemma cos_PI4_eq_sin : cos (PI / 4) = sin (PI / 4).
Proof. rewrite cos_PI4, sin_PI4. reflexivity. Qed.

Lemma quarter_init ZL1 ZL2 z0 :
  __init__ 1e9 3e9 ZL1 ZL2 z0 = Ok (quarter_design ZL1 ZL2 z0).
Proof. apply init_ok. lra. Qed.

Lemma quarter_stage1 (ZL1 ZL2 : complex) (z0 z1 : R) :
  let d0 := quarter_design ZL1 ZL2 z0 in
  0 <= z1 ->
  inside_sqrt d0 = z1 * z1 ->
  1e-6 <= Rabs (real ZL2 - real ZL1) ->
  1e-9 <= Rabs (real ZL2 * imag ZL1 - real ZL1 * imag ZL2) ->
  z1 * (real ZL2 - real ZL1) / (real ZL2 * imag ZL1 - real ZL1 * imag ZL2)
    = 24 / 7 ->
  calculate_conjugate_transform 1 d0 =
  Ok (set_conjugate_line d0 z1 (4 * atan 2)
        (z1 * (ZL1 + Ci * z1 * 2) / (z1 + Ci * ZL1 * 2))%C).
Proof.
  intros d0 Hz1 Hin Hr Hden Hq.
  assert (Hs : sqrt (inside_sqrt d0) = z1) by (apply sqrt_of_square; assumption).
  assert (Hraw : theta1_raw d0 = atan (24 / 7)).
  { unfold theta1_raw. cbn [Z_L1 Z_L2 d0 quarter_design].
    replace (Rabs (real ZL2 * imag ZL1 - real ZL1 * imag ZL2) <? 1e-9) with false
      by (symmetry; decide_test; exact Hden).
    fold d0. rewrite Hs, Hq. reflexivity. }
  assert (Hrad : theta1_rad d0 = atan (24 / 7)).
  { unfold theta1_rad. rewrite Hraw.
    replace (atan (24 / 7) <? 0) with false; [reflexivity|].
    symmetry; decide_test. rewrite <- atan_0. left. apply atan_increasing. lra. }
  rewrite calculate_conjugate_transform_ok.
  - unfold conj_Z_in1. rewrite Hs, Hrad.
    replace (atan (24 / 7) + 1 * PI) with (4 * atan 2)
      by (rewrite <- four_atan_2; ring).
    replace (4 * atan 2 * p1 d0) with (atan 2)
      by (cbn [p1 d0 quarter_design]; field).
    rewrite tan_atan. reflexivity.
  - exact Hr.
  - rewrite Hin. nra.
Qed.

(** ** The verification as a function of the component values *)

Lemma verify_at_synthesized (d : Design) (z1 th1 yn zm f : R) (zl : complex) :
  synthesized d ->
  Z1 d = Some z1 -> theta1 d = Some th1 -> Y_n d = Some yn -> Z_m d = Some zm ->
  verify_at d f zl =
  Ok (vswr_of (replay d z1 th1 yn zm (f / (f1 d + f2 d)) zl) (Z0 d)).
Proof.
  intros [Hf [_ [_ [_ [_ [Hline Hstub]]]]]] H1 H2 H3 H4.
  unfold verify_at, replay, after_aux_line, after_aux_stub, vswr_of, shunt.
  replace (f1 d + f2 d =? 0) with false by (symmetry; decide_test; exact Hf).
  rewrite H1, H2, H3, H4.
  destruct (aux_line_Z d) as [zc|] eqn:Ez.
  - destruct Hline as [Hn|[t Ht]]; [discriminate|]. rewrite Ht.
    destruct (truthy (Some zc)); cbn [bind need];
      destruct (aux_stub_type d) as [ty|] eqn:Et; cbn [bind need];
      try reflexivity;
      (destruct Hstub as [Hn|[y Hy]]; [discriminate|]; rewrite Hy; reflexivity).
  - cbn [truthy bind need].
    destruct (aux_stub_type d) as [ty|] eqn:Et; cbn [bind need];
      [|destruct (aux_line_theta d); reflexivity].
    destruct Hstub as [Hn|[y Hy]]; [discriminate|]. rewrite Hy.
    destruct (aux_line_theta d); reflexivity.
Qed.

(** ** The dictionary of the two VSWR values *)

Lemma metrics_lookup (fa fb v1 v2 : R) :
  dict_get fa (dict_set fb v2 (dict_set fa v1 [])) =
    Ok (if fa =? fb then v2 else v1) /\
  dict_get fb (dict_set fb v2 (dict_set fa v1 [])) = Ok v2.
Proof.
  cbn. case_test (fa =? fb).
  - subst fb. cbn. rewrite Reqb_refl. split; reflexivity.
  - cbn. rewrite Reqb_refl.
    replace (fa =? fb) with false by (symmetry; decide_test; exact E).
    rewrite Reqb_refl. split; reflexivity.
Qed.

(** ** The report *)

Lemma truthy_Some (o : option R) : truthy o = true -> exists x, o = Some x.
Proof. destruct o; cbn; intros H; [eauto|discriminate]. Qed.

Lemma get_design_parameters_ok (d : Design) (th1 : R) :
  theta1 d = Some th1 ->
  exists p, get_design_parameters d = Ok p /\
            region_tag p = region d /\ Z1_param p = Z1 d /\
            theta1_deg p = degrees th1 /\ Z_series p = Z_m d /\
            Z_stub p = Z_n d /\ stub_type_tag p = stub_type d /\
            aux_stub_type_tag p = aux_stub_type d.
Proof.
  intros H. unfold get_design_parameters. rewrite H. cbn [need bind].
  destruct (truthy (aux_line_theta d)) eqn:E1;
    [destruct (truthy_Some _ E1) as [x ->]|];
    (destruct (truthy (aux_stub_Y2 d)) eqn:E2;
     [destruct (truthy_Some _ E2) as [y ->]|]);
    cbn [need bind]; eexists; (split; [reflexivity|]); cbn; repeat split.
Qed.

(** The candidate the loop body reports for a synthesized design. *)
Lemma candidate_of_synthesized (d : Design) (z1 th1 yn zm : R) :
  synthesized d ->
  Z1 d = Some z1 -> theta1 d = Some th1 -> Y_n d = Some yn -> Z_m d = Some zm ->
  exists c,
    candidate_of (f1 d) (f2 d) d = Ok c /\
    region_tag c = region d /\ Z1_param c = Some z1 /\
    theta1_deg c = degrees th1 /\ Z_series c = Some zm /\
    Z_stub c = Z_n d /\ stub_type_tag c = stub_type d /\
    aux_stub_type_tag c = aux_stub_type d /\
    VSWR_f2 c =
      Some (vswr_of (replay d z1 th1 yn zm (f2 d / (f1 d + f2 d)) (Z_L2_orig d))
              (Z0 d)) /\
    VSWR_f1 c =
      Some (if f1 d =? f2 d
            then vswr_of (replay d z1 th1 yn zm (f2 d / (f1 d + f2 d))
                            (Z_L2_orig d)) (Z0 d)
            else vswr_of (replay d z1 th1 yn zm (f1 d / (f1 d + f2 d))
                            (Z_L1_orig d)) (Z0 d)).
Proof.
  intros Hs H1 H2 H3 H4.
  destruct (get_design_parameters_ok d th1 H2)
    as [p [Hp [P1 [P2 [P3 [P4 [P5 [P6 P7]]]]]]]].
  unfold candidate_of, verify_metrics. rewrite Hp. cbn [bind].
  rewrite !(verify_at_synthesized d z1 th1 yn zm) by assumption. cbn [bind].
  match goal with |- context [dict_get (f1 d) (dict_set (f2 d) ?v2 (dict_set (f1 d) ?v1 []))] =>
    destruct (metrics_lookup (f1 d) (f2 d) v1 v2) as [L1 L2]
  end.
  rewrite L1. cbn [bind]. rewrite L2. cbn [bind].
  eexists. split; [reflexivity|]. cbn [with_vswr region_tag Z1_param theta1_deg
    Z_series Z_stub stub_type_tag aux_stub_type_tag VSWR_f1 VSWR_f2].
  rewrite P1, P2, P3, P4, P5, P6, P7, H1, H4. repeat split.
Qed.

(** ** Every grid point: an exception, skipped, or reported *)

Lemma prepared_fields fa fb ZL1 ZL2 z0 theta_aux d0 :
  __init__ fa fb ZL1 ZL2 z0 = Ok d0 ->
  let dp := prepared theta_aux d0 in
  fa + fb <> 0 /\
  f1 dp = fa /\ f2 dp = fb /\ Z0 dp = z0 /\
  Z_L1_orig dp = ZL1 /\ Z_L2_orig dp = ZL2 /\
  p1 dp = fa / (fa + fb) /\ p2 dp = fb / (fa + fb) /\
  aux_stub_type dp = None /\ aux_stub_Y2 dp = None /\
  ((aux_line_Z dp = None /\ aux_line_theta dp = None /\
    Z_L1 dp = ZL1 /\ Z_L2 dp = ZL2) \/
   (aux_line_Z dp = Some 50 /\
    aux_line_theta dp = Some (radians (IZR theta_aux)) /\
    dp = with_aux_line 50 (IZR theta_aux) d0)).
Proof.
  intros H. destruct (init_inv _ _ _ _ _ _ H) as [Hf ->]. cbv zeta.
  unfold prepared. destruct (theta_aux >? 0)%Z; cbn; repeat split; auto.
Qed.

Lemma design_at_synthesized fa fb ZL1 ZL2 z0 allow theta_aux k d :
  design_at fa fb ZL1 ZL2 z0 allow theta_aux k = Ok d ->
  synthesized d /\
  f1 d = fa /\ f2 d = fb /\ Z0 d = z0 /\
  Z_L1_orig d = ZL1 /\ Z_L2_orig d = ZL2 /\
  (exists z1 th1 yn zm,
     Z1 d = Some z1 /\ theta1 d = Some th1 /\ Y_n d = Some yn /\
     Z_m d = Some zm).
Proof.
  intros H. apply design_at_form in H.
  destruct H as [d0 [zm [r [sty [sy2 [H0 H]]]]]]. cbv zeta in H.
  destruct H as [_ [_ [_ [Hst [_ ->]]]]].
  destruct (prepared_fields _ _ _ _ _ theta_aux _ H0)
    as [Hf [F1 [F2 [F3 [F4 [F5 [_ [_ [_ [_ Hl]]]]]]]]]].
  cbn [set_pi_network set_matching_line set_region set_conjugate_line
       f1 f2 Z0 Z_L1_orig Z_L2_orig Z1 theta1 Y_n Z_m].
  unfold synthesized.
  cbn [set_pi_network set_matching_line set_region set_conjugate_line
       f1 f2 Z1 theta1 Y_n Z_m aux_line_Z aux_line_theta aux_stub_type
       aux_stub_Y2].
  rewrite F1, F2. repeat split; eauto 6.
  - destruct Hl as [[A _]|[_ [B _]]]; [left; exact A|right; eauto].
  - destruct Hst as [[A _]|[_ [_ [ty [y [_ B]]]]]]; [left; exact A|right; eauto].
  - do 4 eexists. repeat split; reflexivity.
Qed.

Lemma design_at_cases fa fb ZL1 ZL2 z0 allow theta_aux k :
  (design_at fa fb ZL1 ZL2 z0 allow theta_aux k = Raised /\
   (fa + fb = 0 \/
    exists d0, __init__ fa fb ZL1 ZL2 z0 = Ok d0 /\
               prepare theta_aux d0 = Raised)) \/
  (fa + fb <> 0 /\ design_at fa fb ZL1 ZL2 z0 allow theta_aux k = Unsolved) \/
  (fa + fb <> 0 /\
   exists d, design_at fa fb ZL1 ZL2 z0 allow theta_aux k = Ok d).
Proof.
  unfold design_at.
  destruct (Req_dec (fa + fb) 0) as [Hf|Hf].
  { left. unfold __init__.
    replace (fa + fb =? 0) with true by (symmetry; decide_test; exact Hf).
    split; [reflexivity|left; exact Hf]. }
  rewrite (init_ok fa fb ZL1 ZL2 z0 Hf). cbn [bind].
  match goal with |- context [if (theta_aux >? 0)%Z then apply_aux_line _ _ ?d0
                              else Ok ?d0] =>
    fold (prepare theta_aux d0);
    destruct (prepare_cases theta_aux d0) as [Ep|Ep]; rewrite Ep; cbn [bind];
    [left; split; [reflexivity|right; exists d0; split; [reflexivity|exact Ep]]|]
  end.
  right. rename Hf into E.
  match goal with |- context [calculate_conjugate_transform k ?dp] =>
    destruct (calculate_conjugate_transform_cases k dp) as [[E1 _]|[E1 _]];
    rewrite E1; cbn [bind]; [left; split; [assumption|reflexivity]|]
  end.
  match goal with |- context [check_region_and_adjust allow ?d1] =>
    assert (H2 : exists zm r sty sy2,
               check_region_and_adjust allow d1 = Ok (set_region d1 zm r sty sy2))
  end.
  { match goal with |- context [check_region_and_adjust allow ?d1] =>
      destruct (check_region_cases allow d1 _ eq_refl)
        as [[_ E2]|[[_ [_ E2]]|[[_ [_ [_ E2]]]|[_ [_ [_ E2]]]]]]; rewrite E2;
        try (do 4 eexists; reflexivity)
    end.
    match goal with |- context [_add_auxiliary_stub ?d'] =>
      destruct (add_auxiliary_stub_cases d' _ eq_refl)
        as [[_ E']|[[_ [_ E']]|[_ [_ E']]]]; rewrite E';
        do 4 eexists; reflexivity
    end. }
  destruct H2 as [zm [r [sty [sy2 E2]]]]. rewrite E2. cbn [bind].
  match goal with |- context [calculate_matching_network ?d2] =>
    destruct (calculate_matching_network_cases d2 zm eq_refl) as [[_ E3]|[_ E3]];
    rewrite E3; cbn [bind]; [left; split; [assumption|reflexivity]|]
  end.
  right. split; [assumption|].
  erewrite synthesize_pi_network_ok by reflexivity. eexists; reflexivity.
Qed.

(** A synthesized design is always reported. *)
Lemma run_point_of_design fa fb ZL1 ZL2 z0 allow theta_aux k d :
  design_at fa fb ZL1 ZL2 z0 allow theta_aux k = Ok d ->
  run_point fa fb ZL1 ZL2 z0 allow (theta_aux, k) = candidate_of fa fb d /\
  exists c, candidate_of fa fb d = Ok c.
Proof.
  intros H. unfold run_point. cbn [fst snd]. rewrite H. cbn [bind].
  split; [reflexivity|].
  destruct (design_at_synthesized _ _ _ _ _ _ _ _ _ H)
    as [Hs [F1 [F2 [_ [_ [_ [z1 [th1 [yn [zm [A [B [C D]]]]]]]]]]]]].
  destruct (candidate_of_synthesized d z1 th1 yn zm Hs A B C D) as [c [Hc _]].
  rewrite F1, F2 in Hc. eauto.
Qed.

Lemma run_point_cases fa fb ZL1 ZL2 z0 allow pt :
  (run_point fa fb ZL1 ZL2 z0 allow pt = Raised /\
   (fa + fb = 0 \/
    exists d0, __init__ fa fb ZL1 ZL2 z0 = Ok d0 /\
               prepare (fst pt) d0 = Raised)) \/
  (fa + fb <> 0 /\ run_point fa fb ZL1 ZL2 z0 allow pt = Unsolved /\
   design_at fa fb ZL1 ZL2 z0 allow (fst pt) (snd pt) = Unsolved) \/
  (fa + fb <> 0 /\
   exists d c, design_at fa fb ZL1 ZL2 z0 allow (fst pt) (snd pt) = Ok d /\
               run_point fa fb ZL1 ZL2 z0 allow pt = Ok c /\
               candidate_of fa fb d = Ok c).
Proof.
  destruct pt as [theta_aux k]. cbn [fst snd].
  destruct (design_at_cases fa fb ZL1 ZL2 z0 allow theta_aux k)
    as [[E Hf]|[[Hf E]|[Hf [d E]]]].
  - left. split; [|assumption]. unfold run_point. cbn [fst snd]. rewrite E.
    reflexivity.
  - right; left. repeat split; try assumption. unfold run_point. cbn [fst snd].
    rewrite E. reflexivity.
  - right; right. split; [assumption|].
    destruct (run_point_of_design _ _ _ _ _ _ _ _ _ E) as [Hr [c Hc]].
    exists d, c. rewrite Hr. auto.
Qed.

Lemma search_loop_spec body pts acc :
  (forall pt, In pt pts -> body pt <> Raised) ->
  exists l, search_loop body pts acc = Ok l /\
            forall c, In c l <-> In c acc \/ exists pt, In pt pts /\ body pt = Ok c.
Proof.
  revert acc. induction pts as [|pt pts IH]; intros acc Hb; cbn [search_loop].
  - exists acc. split; [reflexivity|]. intros c. split; [auto|].
    intros [H|[pt [[] _]]]. exact H.
  - assert (Hb' : forall pt', In pt' pts -> body pt' <> Raised)
      by (intros pt' Hi; apply Hb; right; exact Hi).
    destruct (body pt) as [c0| |] eqn:E.
    + destruct (IH (acc ++ [c0]) Hb') as [l [Hl Hin]]. exists l.
      split; [exact Hl|]. intros c. rewrite Hin, in_app_iff. cbn [In]. split.
      * intros [[H|[H|[]]]|[pt' [Hi Hc]]]; auto.
        -- subst c0. right. exists pt. split; [left; reflexivity|exact E].
        -- right. exists pt'. split; [right; exact Hi|exact Hc].
      * intros [H|[pt' [[Hi|Hi] Hc]]]; auto.
        -- subst pt'. rewrite E in Hc. injection Hc as ->. auto.
        -- right. eauto.
    + destruct (IH acc Hb') as [l [Hl Hin]]. exists l.
      split; [exact Hl|]. intros c. rewrite Hin. split.
      * intros [H|[pt' [Hi Hc]]]; auto. right. exists pt'. split; [right|]; auto.
      * intros [H|[pt' [[Hi|Hi] Hc]]]; auto.
        -- subst pt'. rewrite E in Hc. discriminate.
        -- right. eauto.
    + exfalso. apply (Hb pt); [left; reflexivity|exact E].
Qed.

(** A loop that returns met no exception. *)
Lemma search_loop_no_raise body pts acc l :
  search_loop body pts acc = Ok l ->
  forall pt, In pt pts -> body pt <> Raised.
Proof.
  revert acc. induction pts as [|pt pts IH]; intros acc H pt' Hi; [destruct Hi|].
  cbn [search_loop] in H.
  destruct (body pt) as [c0| |] eqn:E; [| |discriminate];
    (destruct Hi as [<-|Hi]; [rewrite E; discriminate|exact (IH _ H pt' Hi)]).
Qed.

(** The auxiliary line does not raise at any point of the grid when the
    scan is off (its angle is 0) or when both loads have a resistance. *)
Lemma prepare_in_grid fa fb ZL1 ZL2 z0 scan theta_aux k d0 :
  scan = false \/ (real ZL1 <> 0 /\ real ZL2 <> 0) ->
  In (theta_aux, k) (grid scan) ->
  __init__ fa fb ZL1 ZL2 z0 = Ok d0 ->
  prepare theta_aux d0 = Ok (prepared theta_aux d0).
Proof.
  intros [->|[H1 H2]] Hg Hi.
  - destruct Hg as [E|[E|[]]]; injection E as <- <-; reflexivity.
  - destruct (init_inv _ _ _ _ _ _ Hi) as [_ ->].
    apply prepare_resistive; assumption.
Qed.

(** What a search that returns holds: exactly the candidates of the grid
    points that pass every stage. *)
Lemma find_all_designs_inv fa fb ZL1 ZL2 z0 allow scan l :
  find_all_designs fa fb ZL1 ZL2 z0 allow scan = Ok l ->
  forall c, In c l <->
            exists pt, In pt (grid scan) /\
                       run_point fa fb ZL1 ZL2 z0 allow pt = Ok c.
Proof.
  unfold find_all_designs. intros Hl.
  destruct (search_loop_spec (run_point fa fb ZL1 ZL2 z0 allow) (grid scan) []
              (search_loop_no_raise _ _ _ _ Hl)) as [l' [Hl' Hin]].
  rewrite Hl in Hl'. injection Hl' as <-.
  intros c. rewrite Hin. cbn [In]. tauto.
Qed.

(** The search returns for frequencies with a non-zero sum, when the scan
    is off or both loads have a resistance. *)
Lemma find_all_designs_spec fa fb ZL1 ZL2 z0 allow scan :
  fa + fb <> 0 ->
  scan = false \/ (real ZL1 <> 0 /\ real ZL2 <> 0) ->
  exists l,
    find_all_designs fa fb ZL1 ZL2 z0 allow scan = Ok l /\
    forall c, In c l <->
              exists pt, In pt (grid scan) /\
                         run_point fa fb ZL1 ZL2 z0 allow pt = Ok c.
Proof.
  intros Hf Hs.
  destruct (search_loop_spec (run_point fa fb ZL1 ZL2 z0 allow) (grid scan) [])
    as [l [Hl Hin]].
  - intros [theta_aux k] Hg.
    destruct (run_point_cases fa fb ZL1 ZL2 z0 allow (theta_aux, k))
      as [[_ [C|[d0 [Hi Hp]]]]|[[_ [E _]]|[_ [d [c [_ [E _]]]]]]];
      [contradiction| |rewrite E; discriminate|rewrite E; discriminate].
    cbn [fst] in Hp.
    rewrite (prepare_in_grid _ _ _ _ _ _ _ _ _ Hs Hg Hi) in Hp. discriminate.
  - exists l. split; [exact Hl|]. exact (find_all_designs_inv _ _ _ _ _ _ _ _ Hl).
Qed.

Lemma grid_head (scan : bool) : exists rest, grid scan = (0%Z, 0%Z) :: rest.
Proof. destruct scan; eexists; reflexivity. Qed.

(** A candidate of the search comes from a design synthesized at a grid
    point. *)
Lemma candidate_design fa fb ZL1 ZL2 z0 allow scan l c :
  find_all_designs fa fb ZL1 ZL2 z0 allow scan = Ok l -> In c l ->
  exists theta_aux k d,
    In (theta_aux, k) (grid scan) /\
    design_at fa fb ZL1 ZL2 z0 allow theta_aux k = Ok d /\
    candidate_of fa fb d = Ok c.
Proof.
  intros Hl Hc.
  apply (find_all_designs_inv _ _ _ _ _ _ _ _ Hl) in Hc.
  destruct Hc as [[theta_aux k] [Hg Hr]].
  destruct (run_point_cases fa fb ZL1 ZL2 z0 allow (theta_aux, k))
    as [[E _]|[[_ [E _]]|[_ [d [c' [Hd [E Hcd]]]]]]];
    [rewrite E in Hr; discriminate|rewrite E in Hr; discriminate|].
  rewrite E in Hr. injection Hr as <-. cbn [fst snd] in Hd.
  exists theta_aux, k, d. auto.
Qed.

Lemma design_at_quarter ZL1 ZL2 z0 allow k d1 d2 d3 :
  calculate_conjugate_transform k (quarter_design ZL1 ZL2 z0) = Ok d1 ->
  check_region_and_adjust allow d1 = Ok d2 ->
  calculate_matching_network d2 = Ok d3 ->
  design_at 1e9 3e9 ZL1 ZL2 z0 allow 0 k = synthesize_pi_network d3.
Proof.
  intros H1 H2 H3.
  exact (design_at_intro 1e9 3e9 ZL1 ZL2 z0 allow 0%Z k
           (quarter_design ZL1 ZL2 z0) d1 d2 d3 (quarter_init _ _ _) eq_refl
           H1 H2 H3).
Qed.


(** X3. In exact arithmetic, for frequencies with a non-zero sum and with
    [|cos (pi f1 / (f1 + f2))| >= 1e-9], the search returns when the scan
    of the auxiliary line is off or both loads have a resistance (the
    auxiliary line divides by zero only on a load without resistance): a
    grid point adds at most one candidate, so at most 2 without the scan
    and 72 with it, and every candidate is the report of a design that
    passed the four stages at a grid point.  (Under the clamp on that
    cosine, which frequencies as good as equal fall under, the replay can
    reach its last division with Python numbers and raise.) *)
Theorem search_returns fa fb ZL1 ZL2 z0 allow scan :
  fa + fb <> 0 ->
  1e-9 <= Rabs (cos (PI * (fa / (fa + fb)))) ->
  scan = false \/ (real ZL1 <> 0 /\ real ZL2 <> 0) ->
  exists l,
    find_all_designs fa fb ZL1 ZL2 z0 allow scan = Ok l /\
    (length l <= if scan then 72 else 2)%nat /\
    forall c, In c l ->
      exists theta_aux k d,
        In (theta_aux, k) (grid scan) /\
        design_at fa fb ZL1 ZL2 z0 allow theta_aux k = Ok d /\
        candidate_of fa fb d = Ok c.
Proof.
  intros Hf _ Hs.
  destruct (find_all_designs_spec fa fb ZL1 ZL2 z0 allow scan Hf Hs)
    as [l [Hl _]].
  exists l. split; [exact Hl|]. split.
  - pose proof (search_loop_length _ _ _ _ Hl) as Hlen. cbn [length] in Hlen.
    replace (if scan then 72%nat else 2%nat) with (length (grid scan))
      by (destruct scan; reflexivity).
    lia.
  - intros c Hc. exact (candidate_design _ _ _ _ _ _ _ _ _ Hl Hc).
Qed.

Lemma quarter_cos_clear : 1e-9 <= Rabs (cos (PI * (1e9 / (1e9 + 3e9)))).
Proof.
  replace (PI * (1e9 / (1e9 + 3e9))) with (PI / 4) by field.
  pose proof sin_PI4_bounds as Hs.
  rewrite cos_PI4_eq_sin, Rabs_right; lra.
Qed.

Lemma search_returns_witness :
  exists l,
    find_all_designs 1e9 3e9 (mkC 25 10) (mkC 25 10) 50 true true = Ok l /\
    (length l <= 72)%nat /\
    forall c, In c l ->
      exists theta_aux k d,
        In (theta_aux, k) (grid true) /\
        design_at 1e9 3e9 (mkC 25 10) (mkC 25 10) 50 true theta_aux k = Ok d /\
        candidate_of 1e9 3e9 d = Ok c.
Proof.
  apply (search_returns 1e9 3e9 (mkC 25 10) (mkC 25 10) 50 true true).
  - lra.
  - exact quarter_cos_clear.
  - right. cbn. split; lra.
Defined.

(** ** Input A, stage by stage *)

Lemma exA_stage1 :
  calculate_conjugate_transform 1 (quarter_design exA_ZL1 exA_ZL2 50) = Ok exA_d1.
Proof.
  rewrite (quarter_stage1 exA_ZL1 exA_ZL2 50 10).
  - unfold exA_d1. do 2 f_equal. apply complex_eq; cbn; lra.
  - lra.
  - unfold inside_sqrt. cbn. lra.
  - cbn. rewrite Rabs_right; lra.
  - cbn. rewrite Rabs_right; lra.
  - cbn. lra.
Qed.

Lemma exA_stage2 (allow : bool) : check_region_and_adjust allow exA_d1 = Ok exA_d2.
Proof.
  apply (check_region_b allow exA_d1 (mkC 20 15) eq_refl);
    [unfold norm_r|unfold norm_g]; cbn; lra.
Qed.

Lemma exA_theta_T1 : theta_T1_rad (mkC 20 15) 50 = PI / 4.
Proof.
  assert (Ht : term_sqrt (mkC 20 15) 50 = 25 * 25) by (unfold term_sqrt; cbn; lra).
  unfold theta_T1_rad. rewrite Ht, sqrt_square by lra. cbn [real imag].
  replace (Rabs (15 * 50) <? 1e-9) with false
    by (symmetry; decide_test; rewrite Rabs_right; lra).
  replace (25 * (50 - 20) / (15 * 50)) with 1 by lra.
  rewrite atan_1.
  replace (PI / 4 <=? 0) with false; [reflexivity|].
  symmetry; decide_test. pose proof PI_RGT_0. lra.
Qed.

Lemma exA_stage3 : calculate_matching_network exA_d2 = Ok exA_d3.
Proof.
  rewrite (calculate_matching_network_ok exA_d2 (mkC 20 15) eq_refl)
    by (unfold term_sqrt; cbn; lra).
  assert (Ht : sqrt (term_sqrt (mkC 20 15) 50) = 25)
    by (apply sqrt_of_square; [lra|unfold term_sqrt; cbn; lra]).
  cbn [Z0 exA_d2 exA_d1 set_region set_conjugate_line quarter_design].
  rewrite Ht, exA_theta_T1. reflexivity.
Qed.

(** Stage 4 on input A: the line equivalent already has the angle of the
    series line, the shunt susceptance is 0, neither stub admittance is
    positive. *)
Lemma exA_pi_network :
  pi_Z_m (1e9 / (1e9 + 3e9)) 25 (PI / 4) = 25 /\
  pi_Y_open (1e9 / (1e9 + 3e9)) 25 (PI / 4) = 0 /\
  pi_Y_short (1e9 / (1e9 + 3e9)) 25 (PI / 4) = 0 /\
  pi_Y_n (1e9 / (1e9 + 3e9)) 25 (PI / 4) = 0.02 /\
  pi_stub_type (1e9 / (1e9 + 3e9)) 25 (PI / 4) = Open.
Proof.
  pose proof sin_PI4_pos as Hs.
  assert (Hm : pi_Z_m (1e9 / (1e9 + 3e9)) 25 (PI / 4) = 25).
  { unfold pi_Z_m. rewrite quarter_PI. field. lra. }
  assert (Hb : pi_B_n1 (1e9 / (1e9 + 3e9)) 25 (PI / 4) = 0).
  { unfold pi_B_n1. rewrite Hm, quarter_PI. unfold Rdiv. ring. }
  assert (Ho : pi_Y_open (1e9 / (1e9 + 3e9)) 25 (PI / 4) = 0).
  { unfold pi_Y_open. rewrite Hb. destruct (_ >? _); [unfold Rdiv; ring|reflexivity]. }
  assert (Hsh : pi_Y_short (1e9 / (1e9 + 3e9)) 25 (PI / 4) = 0).
  { unfold pi_Y_short. rewrite Hb. ring. }
  repeat split; try assumption; unfold pi_Y_n, pi_stub_type; rewrite Ho, Hsh;
    replace (0 >? 0) with false by (symmetry; decide_test; lra);
    rewrite ?Reqb_refl; reflexivity.
Qed.

Lemma exA_stage4 : synthesize_pi_network exA_d3 = Ok exA_design.
Proof.
  rewrite (synthesize_pi_network_ok exA_d3 25 (PI / 4)) by reflexivity.
  cbn [p1 exA_d3 exA_d2 exA_d1 set_matching_line set_region set_conjugate_line
       quarter_design].
  destruct exA_pi_network as [-> [_ [_ [-> ->]]]]. reflexivity.
Qed.

(** Input A passes every stage, whatever [allow_aux_stub] is. *)
Lemma exA_design_at (allow : bool) :
  design_at 1e9 3e9 exA_ZL1 exA_ZL2 50 allow 0 1 = Ok exA_design.
Proof.
  rewrite (design_at_quarter _ _ _ _ _ _ _ _ exA_stage1 (exA_stage2 allow)
             exA_stage3).
  exact exA_stage4.
Qed.

(** ** Input C, stage 1

    The radicand of stage 1 is 0: [Z1 = 0] and [theta1 = 0] on branch
    k = 0, and the line formula of stage 1 is 0/0. *)

Lemma exC_inside_sqrt : inside_sqrt (quarter_design exC_ZL1 exC_ZL2 50) = 0.
Proof. unfold inside_sqrt. cbn. lra. Qed.

Lemma exC_stage1 :
  calculate_conjugate_transform 0 (quarter_design exC_ZL1 exC_ZL2 50) = Ok exC_d1.
Proof.
  set (d := quarter_design exC_ZL1 exC_ZL2 50).
  assert (Hs : sqrt (inside_sqrt d) = 0) by (unfold d; rewrite exC_inside_sqrt; apply sqrt_0).
  assert (Hraw : theta1_raw d = 0).
  { unfold theta1_raw. rewrite Hs. cbn [Z_L1 Z_L2 d quarter_design exC_ZL1 exC_ZL2 real imag].
    replace (Rabs (100 * 50 - 25 * - 50) <? 1e-9) with false
      by (symmetry; decide_test; rewrite Rabs_right; lra).
    replace (0 * (100 - 25) / (100 * 50 - 25 * - 50)) with 0 by lra.
    apply atan_0. }
  assert (Hrad : theta1_rad d = 0).
  { unfold theta1_rad. rewrite Hraw.
    replace (0 <? 0) with false by (symmetry; decide_test; lra). reflexivity. }
  rewrite calculate_conjugate_transform_ok.
  - unfold exC_d1. fold d. rewrite Hs, Hrad.
    replace (0 + 0 * PI) with 0 by ring. do 2 f_equal.
    unfold conj_Z_in1. rewrite Hs, Hrad.
    replace ((0 + 0 * PI) * p1 d) with 0 by ring. rewrite tan_0.
    apply complex_eq; cbn; lra.
  - cbn. rewrite Rabs_right; lra.
  - unfold d. rewrite exC_inside_sqrt. lra.
Qed.

(** ** From designs to the candidates of the search *)

Lemma emitted_candidate fa fb ZL1 ZL2 z0 allow theta_aux k d :
  In (theta_aux, k) (grid false) ->
  design_at fa fb ZL1 ZL2 z0 allow theta_aux k = Ok d ->
  exists l c, find_all_designs fa fb ZL1 ZL2 z0 allow false = Ok l /\
              In c l /\ candidate_of fa fb d = Ok c.
Proof.
  intros Hg Hd.
  assert (Hf : fa + fb <> 0).
  { destruct (design_at_cases fa fb ZL1 ZL2 z0 allow theta_aux k)
      as [[E _]|[[Hf _]|[Hf _]]]; try assumption.
    rewrite E in Hd. discriminate. }
  destruct (find_all_designs_spec fa fb ZL1 ZL2 z0 allow false Hf
              (or_introl eq_refl)) as [l [Hl Hin]].
  destruct (run_point_of_design _ _ _ _ _ _ _ _ _ Hd) as [Hr [c Hc]].
  exists l, c. repeat split; try assumption.
  apply Hin. exists (theta_aux, k). split; [exact Hg|]. rewrite Hr. exact Hc.
Qed.

(** What the candidate reports of its design. *)
Lemma candidate_of_design fa fb ZL1 ZL2 z0 allow theta_aux k d c :
  design_at fa fb ZL1 ZL2 z0 allow theta_aux k = Ok d ->
  candidate_of fa fb d = Ok c ->
  exists z1 th1 yn zm,
    Z1 d = Some z1 /\ theta1 d = Some th1 /\ Y_n d = Some yn /\
    Z_m d = Some zm /\
    region_tag c = region d /\ Z1_param c = Some z1 /\
    theta1_deg c = degrees th1 /\ Z_series c = Some zm /\
    Z_stub c = Z_n d /\ stub_type_tag c = stub_type d /\
    aux_stub_type_tag c = aux_stub_type d /\
    VSWR_f2 c =
      Some (vswr_of (replay d z1 th1 yn zm (fb / (fa + fb)) ZL2) z0) /\
    VSWR_f1 c =
      Some (if fa =? fb
            then vswr_of (replay d z1 th1 yn zm (fb / (fa + fb)) ZL2) z0
            else vswr_of (replay d z1 th1 yn zm (fa / (fa + fb)) ZL1) z0).
Proof.
  intros Hd Hc.
  destruct (design_at_synthesized _ _ _ _ _ _ _ _ _ Hd)
    as [Hs [F1 [F2 [F3 [F4 [F5 [z1 [th1 [yn [zm [A [B [C D]]]]]]]]]]]]].
  destruct (candidate_of_synthesized d z1 th1 yn zm Hs A B C D)
    as [c' [Hc' P]].
  rewrite F1, F2, F3, F4, F5 in *. rewrite Hc in Hc'. injection Hc' as <-.
  exists z1, th1, yn, zm. tauto.
Qed.

(** ** C2: the region a candidate reports *)

(** On the classifier's terms, an impedance of region (c) that stage 3
    accepts lies on the edge of the region. *)
Lemma region_c_edge (zin : complex) (z0 : R) :
  0 < z0 ->
  norm_r zin z0 <= 1 -> norm_g zin z0 <= 1 -> 0 <= term_sqrt zin z0 ->
  real zin = z0 \/
  real zin * real zin + imag zin * imag zin = real zin * z0.
Proof.
  destruct zin as [a b]. unfold norm_r, norm_g, term_sqrt. cbn.
  intros Hz Hr Hg Ht.
  replace ((a * z0 + b * 0) / (z0 * z0 + 0 * 0)) with (a / z0) in *
    by (field; lra).
  replace ((b * z0 - a * 0) / (z0 * z0 + 0 * 0)) with (b / z0) in *
    by (field; lra).
  assert (Ha : a <= z0).
  { apply (Rmult_le_compat_r z0) in Hr; [|lra].
    replace (a / z0 * z0) with a in Hr by (field; lra). lra. }
  destruct (Req_dec a z0) as [|Hne]; [left; assumption|right].
  assert (Hlt : a - z0 < 0) by lra.
  assert (H1 : a * a + b * b <= a * z0).
  { assert (Hq : b * (b * 1) * z0 / (a - z0) = - (b * b * z0 / (z0 - a)))
      by (field; lra).
    rewrite Hq in Ht.
    assert (Hm : b * b * z0 / (z0 - a) * (z0 - a) = b * b * z0) by (field; lra).
    assert (Hp : b * b * z0 / (z0 - a) <= a * z0) by lra.
    apply (Rmult_le_compat_r (z0 - a)) in Hp; [|lra].
    rewrite Hm in Hp. nra. }
  assert (H2 : a * z0 <= a * a + b * b).
  { set (n := a / z0 * (a / z0) + b / z0 * (b / z0)) in *.
    assert (Hn : n * (z0 * z0) = a * a + b * b) by (unfold n; field; lra).
    assert (Hn0 : 0 <= n) by (unfold n; nra).
    destruct (Req_dec n 0) as [Hz0|Hnz].
    { rewrite Hz0 in Hn.
      assert (Ha0 : a = 0).
      { apply (Rplus_sqr_eq_0 a b). unfold Rsqr. lra. }
      rewrite Ha0. nra. }
    replace ((1 * (a / z0) + 0 * (b / z0)) / n) with (a / z0 / n) in Hg
      by (field; split; lra).
    assert (Hpos : 0 < n) by lra.
    apply (Rmult_le_compat_r n) in Hg; [|lra].
    replace (a / z0 / n * n) with (a / z0) in Hg by (field; split; lra).
    apply (Rmult_le_compat_r (z0 * z0)) in Hg; [|nra].
    replace (a / z0 * (z0 * z0)) with (a * z0) in Hg by (field; lra).
    nra. }
  lra.
Qed.

(** Input C with the auxiliary stub disabled, at the grid point (0, 0):
    stage 1 ends on [Z_in1 = 0] (0/0, [nan] in floating point, which fails
    both tests of the classifier as well), the point is tagged 'c' and
    stage 3 accepts the radicand 0 ([nan] in floating point, which is not
    below 0 either). *)
Lemma exC_design_at_kept :
  exists d, design_at 1e9 3e9 exC_ZL1 exC_ZL2 50 false 0 0 = Ok d /\
            region d = Some region_c /\ Z1 d = Some 0 /\
            aux_stub_type d = None.
Proof.
  pose proof exC_stage1 as H1.
  assert (H2 : check_region_and_adjust false exC_d1 =
               Ok (set_region exC_d1 (mkC 0 0) region_c None None))
    by (apply (check_region_c_kept exC_d1 (mkC 0 0) eq_refl);
        [unfold norm_r|unfold norm_g]; cbn; lra).
  assert (Ht : term_sqrt (mkC 0 0) 50 = 0) by (unfold term_sqrt; cbn; lra).
  match type of H2 with _ = Ok ?d2 =>
    assert (H3 : calculate_matching_network d2 =
                 Ok (set_matching_line d2 (sqrt (term_sqrt (mkC 0 0) 50))
                       (theta_T1_rad (mkC 0 0) 50)))
      by (apply (calculate_matching_network_ok d2 (mkC 0 0) eq_refl);
          cbn [Z0 exC_d1 set_region set_conjugate_line quarter_design];
          rewrite Ht; lra)
  end.
  rewrite (design_at_quarter _ _ _ _ _ _ _ _ H1 H2 H3).
  rewrite (synthesize_pi_network_ok _ (sqrt (term_sqrt (mkC 0 0) 50))
             (theta_T1_rad (mkC 0 0) 50)) by reflexivity.
  eexists. split; [reflexivity|]. split; [reflexivity|]. split; reflexivity.
Qed.

(** C2 fails on input C with the auxiliary stub disabled. The conjugate
    line of the grid point (0, 0) has the impedance 0, the classifier
    tags the point 'c', no stage discards it, and the search returns its
    candidate with the region tag 'c' and without an auxiliary stub. *)
Theorem region_c_candidate_on_zero_line :
  exists l c,
    find_all_designs 1e9 3e9 exC_ZL1 exC_ZL2 50 false false = Ok l /\
    run_point 1e9 3e9 exC_ZL1 exC_ZL2 50 false (0, 0)%Z = Ok c /\
    In c l /\
    region_tag c = Some region_c /\ aux_stub_type_tag c = None /\
    Z1_param c = Some 0.
Proof.
  destruct exC_design_at_kept as [d [Hd [Hr [Hz Hs]]]].
  destruct (emitted_candidate 1e9 3e9 exC_ZL1 exC_ZL2 50 false 0 0 d)
    as [l [c [Hl [Hc Hcd]]]]; [left; reflexivity|exact Hd|].
  destruct (run_point_of_design _ _ _ _ _ _ _ _ _ Hd) as [Hrp _].
  destruct (candidate_of_design _ _ _ _ _ _ _ _ _ _ Hd Hcd)
    as [z1 [th1 [yn [zm [Hz1 [_ [_ [_ [Hreg [Hz1c [_ [_ [_ [_ [Haux _]]]]]]]]]]]]]]].
  exists l, c. split; [exact Hl|]. split; [rewrite Hrp; exact Hcd|].
  split; [exact Hc|]. split; [rewrite Hreg; exact Hr|].
  split; [rewrite Haux; exact Hs|].
  rewrite Hz1c. rewrite Hz in Hz1. injection Hz1 as <-. reflexivity.
Qed.

(** ** C6: the ranges of the two angles *)

Lemma theta1_rad_range (d : Design) : 0 <= theta1_rad d < PI.
Proof.
  pose proof PI_RGT_0 as HPI.
  assert (Hraw : - (PI / 2) < theta1_raw d <= PI / 2).
  { unfold theta1_raw. destruct (_ <? _); [lra|].
    match goal with |- context [atan ?x] => pose proof (atan_bound x) end. lra. }
  unfold theta1_rad. case_test (theta1_raw d <? 0); lra.
Qed.

Lemma theta_T1_rad_range (zin : complex) (z0 : R) :
  0 < theta_T1_rad zin z0 <= PI.
Proof.
  pose proof PI_RGT_0 as HPI. unfold theta_T1_rad.
  match goal with |- context [if ?c then PI / 2 else atan ?x] =>
    assert (Hth : - (PI / 2) < (if c then PI / 2 else atan x) <= PI / 2)
      by (destruct c; [lra|pose proof (atan_bound x); lra]);
    set (th := if c then PI / 2 else atan x) in *
  end.
  case_test (th <=? 0); lra.
Qed.



Lemma PI_lt_four_atan_2 : PI < 4 * atan 2.
Proof.
  assert (H : atan 1 < atan 2) by (apply atan_increasing; lra).
  rewrite atan_1 in H. lra.
Qed.


(** ** C10 and C4: the stub admittance stage 4 settles on *)

(** When neither admittance is positive the open-stub value is 0, so the
    fallback always stores the placeholder. *)
Lemma pi_fallback_is_placeholder (p zt th : R) :
  pi_Y_open p zt th <= 0 -> pi_Y_short p zt th <= 0 ->
  pi_Y_open p zt th = 0 /\ pi_Y_n p zt th = 0.02 /\
  pi_stub_type p zt th = Open.
Proof.
  intros Ho Hs.
  assert (H0 : pi_Y_open p zt th = 0).
  { unfold pi_Y_open, pi_Y_short in *.
    set (B := pi_B_n1 p zt th) in *. set (t := tan (p * PI)) in *.
    case_test (Rabs t >? 1e-9); [|reflexivity].
    assert (Ht : t <> 0).
    { intros Ht. rewrite Ht, Rabs_R0 in E. lra. }
    assert (Hq : B / t * (t * t) = B * t) by (field; exact Ht).
    assert (Ht2 : 0 < t * t) by nra.
    assert (HBt : B * t = 0) by nra.
    apply Rmult_integral in HBt. destruct HBt as [HB|HB]; [|contradiction].
    rewrite HB. unfold Rdiv. ring. }
  split; [exact H0|]. unfold pi_Y_n, pi_stub_type.
  replace (pi_Y_open p zt th >? 0) with false by (symmetry; decide_test; lra).
  replace (pi_Y_short p zt th >? 0) with false by (symmetry; decide_test; lra).
  rewrite H0, Reqb_refl. split; reflexivity.
Qed.

Lemma pi_Y_n_pos (p zt th : R) : 0 < pi_Y_n p zt th.
Proof.
  unfold pi_Y_n.
  case_test (pi_Y_open p zt th >? 0); [assumption|].
  case_test (pi_Y_short p zt th >? 0); [assumption|].
  destruct (pi_fallback_is_placeholder p zt th E E0) as [-> _].
  rewrite Reqb_refl. cbn. lra.
Qed.

(** C10. Whenever [synthesize_pi_network] returns, the admittance [Y_n] it
    stores is not zero, whichever branch chose it, and [Z_n] is [1 / Y_n];
    this holds for the design behind every candidate of the search. *)
Theorem pi_stub_admittance_nonzero :
  (forall d d', synthesize_pi_network d = Ok d' ->
     exists yn, Y_n d' = Some yn /\ yn <> 0 /\ Z_n d' = Some (1 / yn) /\
                yn * (1 / yn) = 1) /\
  (forall fa fb ZL1 ZL2 z0 allow theta_aux k d,
     design_at fa fb ZL1 ZL2 z0 allow theta_aux k = Ok d ->
     exists yn, Y_n d = Some yn /\ yn <> 0 /\ Z_n d = Some (1 / yn)).
Proof.
  assert (Hstage : forall d d', synthesize_pi_network d = Ok d' ->
     exists yn, Y_n d' = Some yn /\ yn <> 0 /\ Z_n d' = Some (1 / yn) /\
                yn * (1 / yn) = 1).
  { intros d d' H.
    destruct (Z_T1 d) as [zt|] eqn:Ezt;
      [|unfold synthesize_pi_network in H; rewrite Ezt in H; discriminate].
    destruct (theta_T1 d) as [th|] eqn:Eth;
      [|unfold synthesize_pi_network in H; rewrite Ezt, Eth in H; discriminate].
    rewrite (synthesize_pi_network_ok d zt th Ezt Eth) in H.
    injection H as <-. exists (pi_Y_n (p1 d) zt th).
    pose proof (pi_Y_n_pos (p1 d) zt th) as Hpos.
    cbn [Y_n Z_n set_pi_network].
    repeat split; try reflexivity; [lra|field; lra]. }
  split; [exact Hstage|].
  intros fa fb ZL1 ZL2 z0 allow theta_aux k d H.
  apply design_at_inv in H. destruct H as [d0 [d1 [d2 [d3 [_ [_ [_ [_ H]]]]]]]].
  destruct (Hstage _ _ H) as [yn [A [B [C _]]]]. eauto.
Qed.

Lemma pi_stub_admittance_nonzero_witness :
  exists yn, Y_n exA_design = Some yn /\ yn <> 0 /\
             Z_n exA_design = Some (1 / yn).
Proof.
  destruct pi_stub_admittance_nonzero as [_ H].
  exact (H 1e9 3e9 exA_ZL1 exA_ZL2 50 true 0%Z 1%Z exA_design
           (exA_design_at true)).
Defined.

Lemma candidate_aux_stub_Z fa fb d c y :
  candidate_of fa fb d = Ok c -> aux_stub_Y2 d = Some y -> y <> 0 ->
  aux_stub_Z c = 1 / y.
Proof.
  intros H Hy Hne. unfold candidate_of in H.
  inv_bind H. inv_bind H_r. inv_bind H_r_r. inv_bind H_r_r_r.
  injection H_r_r_r_r as <-. cbn [aux_stub_Z with_vswr].
  unfold get_design_parameters in H_l. rewrite Hy in H_l.
  inv_bind H_l. inv_bind H_l_r. inv_bind H_l_r_r.
  injection H_l_r_r_r as <-. cbn [aux_stub_Z].
  cbn [truthy] in H_l_r_r_l.
  replace (y =? 0) with false in H_l_r_r_l by (symmetry; decide_test; exact Hne).
  cbn in H_l_r_r_l. injection H_l_r_r_l as <-. reflexivity.
Qed.


(** ** Real parts through the replay *)

Lemma real_Ci_mul (y T : R) : real (Ci * y * T)%C = 0.
Proof. cbn. ring. Qed.

Lemma real_Ci_div (y T : R) : real (- Ci * y / T)%C = 0.
Proof. cbn. unfold Rdiv. ring. Qed.

Lemma stub_admittance_real (y_c theta : R) (is_open : bool) :
  real (stub_admittance y_c theta is_open) = 0.
Proof.
  unfold stub_admittance.
  destruct (_ <? _); [destruct is_open; reflexivity|].
  destruct (_ <? _); [destruct is_open; reflexivity|].
  destruct is_open; [apply real_Ci_mul|apply real_Ci_div].
Qed.

(** The real part of a quotient has the sign of
    [Re z * Re w + Im z * Im w]. *)
Lemma Cdiv_real_pos (z w : complex) :
  0 < real z * real w + imag z * imag w -> 0 < real (z / w)%C.
Proof.
  intros H. cbn.
  assert (Hn : 0 <= real w * real w + imag w * imag w) by nra.
  destruct (Req_dec (real w * real w + imag w * imag w) 0) as [Hz|Hz].
  - exfalso. destruct (Rplus_sqr_eq_0 (real w) (imag w)) as [A B];
      [unfold Rsqr; exact Hz|]. rewrite A, B in H. lra.
  - apply Rdiv_lt_0_compat; lra.
Qed.

Lemma Cdiv_real_neg (z w : complex) :
  real z * real w + imag z * imag w < 0 -> real (z / w)%C < 0.
Proof.
  intros H. cbn.
  assert (Hn : 0 <= real w * real w + imag w * imag w) by nra.
  destruct (Req_dec (real w * real w + imag w * imag w) 0) as [Hz|Hz].
  - exfalso. destruct (Rplus_sqr_eq_0 (real w) (imag w)) as [A B];
      [unfold Rsqr; exact Hz|]. rewrite A, B in H. lra.
  - assert (Hp : 0 < - (real z * real w + imag z * imag w) /
                      (real w * real w + imag w * imag w))
      by (apply Rdiv_lt_0_compat; lra).
    unfold Rdiv in *. lra.
Qed.

Lemma Cinv_real_pos (z : complex) : 0 < real z -> 0 < real (1 / z)%C.
Proof. intros H. apply Cdiv_real_pos. cbn. lra. Qed.

Lemma Cinv_real_neg (z : complex) : real z < 0 -> real (1 / z)%C < 0.
Proof. intros H. apply Cdiv_real_neg. cbn. lra. Qed.

Lemma shunt_real_pos (z y : complex) :
  0 < real z -> real y = 0 -> 0 < real (shunt z y).
Proof.
  intros Hz Hy. unfold shunt. apply Cinv_real_pos.
  pose proof (Cinv_real_pos z Hz) as H. cbn [real Cadd]. lra.
Qed.

Lemma shunt_real_neg (z y : complex) :
  real z < 0 -> real y = 0 -> real (shunt z y) < 0.
Proof.
  intros Hz Hy. unfold shunt. apply Cinv_real_neg.
  pose proof (Cinv_real_neg z Hz) as H. cbn [real Cadd]. lra.
Qed.

Lemma line_numerator_pos (zc a T : R) :
  zc <> 0 -> 0 < a -> 0 < zc * zc * a * (1 + T * T).
Proof.
  intros Hc Ha. assert (0 < zc * zc) by nra. assert (0 < 1 + T * T) by nra.
  apply Rmult_lt_0_compat; [apply Rmult_lt_0_compat|]; assumption.
Qed.

Lemma line_formula_real_pos (zc : R) (zl : complex) (T : R) :
  zc <> 0 -> 0 < real zl -> 0 < real (line_formula zc zl T).
Proof.
  intros Hc Hl. unfold line_formula. apply Cdiv_real_pos.
  destruct zl as [a b]. cbn in *.
  match goal with |- 0 < ?e =>
    replace e with (zc * zc * a * (1 + T * T)) by ring
  end.
  apply line_numerator_pos; assumption.
Qed.

Lemma line_formula_real_neg (zc : R) (zl : complex) (T : R) :
  zc <> 0 -> real zl < 0 -> real (line_formula zc zl T) < 0.
Proof.
  intros Hc Hl. unfold line_formula. apply Cdiv_real_neg.
  destruct zl as [a b]. cbn in *.
  match goal with |- ?e < 0 =>
    replace e with (- (zc * zc * (- a) * (1 + T * T))) by ring
  end.
  pose proof (line_numerator_pos zc (- a) T Hc). lra.
Qed.

(** When the real part of the line formula is positive, so was that of
    the load. *)
Lemma line_formula_real_pos_inv (zc : R) (zl : complex) (T : R) :
  zc <> 0 -> 0 < real (line_formula zc zl T) -> 0 < real zl.
Proof.
  intros Hc H.
  destruct (Rlt_le_dec 0 (real zl)) as [|Hle]; [assumption|exfalso].
  destruct Hle as [Hlt|Heq].
  - pose proof (line_formula_real_neg zc zl T Hc Hlt). lra.
  - unfold line_formula in H. destruct zl as [a b]. cbn in *. subst a.
    match type of H with 0 < ?e / _ =>
      replace e with 0 in H by ring
    end.
    unfold Rdiv in H. lra.
Qed.

Lemma tline_input_z_real_pos (z_l : complex) (z_c theta : R) :
  z_c <> 0 -> 0 < real z_l -> 0 < real (tline_input_z z_l z_c theta).
Proof.
  intros Hc Hl. unfold tline_input_z.
  destruct (_ <? _).
  - destruct (_ <? _); [cbn; lra|].
    apply Cdiv_real_pos. cbn [real imag RtoC].
    assert (H2 : 0 < z_c ^ 2) by (simpl; nra). nra.
  - apply Cdiv_real_pos. destruct z_l as [a b]. cbn in *.
    match goal with |- 0 < ?e =>
      replace e with (z_c * z_c * a * (1 + tan theta * tan theta)) by ring
    end.
    apply line_numerator_pos; assumption.
Qed.

Lemma truthy_nonzero (x : R) : truthy (Some x) = true -> x <> 0.
Proof.
  cbn. case_test (x =? 0); [discriminate|intros _; assumption].
Qed.

Lemma replay_real_pos (d : Design) (z1 th1 yn zm scale : R) (zl : complex) :
  z1 <> 0 -> zm <> 0 -> 0 < real zl ->
  0 < real (replay d z1 th1 yn zm scale zl).
Proof.
  intros H1 Hm Hl. unfold replay.
  assert (Ha : 0 < real (after_aux_line d scale zl)).
  { unfold after_aux_line. destruct (aux_line_Z d) as [zc|]; [|assumption].
    destruct (aux_line_theta d) as [th|]; [|assumption].
    destruct (truthy (Some zc)) eqn:E; [|assumption].
    apply tline_input_z_real_pos; [apply truthy_nonzero; exact E|assumption]. }
  pose proof (tline_input_z_real_pos _ z1 (th1 * scale) H1 Ha) as Hb.
  assert (Hc : 0 < real (after_aux_stub d scale
                           (tline_input_z (after_aux_line d scale zl) z1
                              (th1 * scale)))).
  { unfold after_aux_stub. destruct (aux_stub_type d); [|assumption].
    destruct (aux_stub_Y2 d); [|assumption].
    apply shunt_real_pos; [assumption|apply stub_admittance_real]. }
  apply shunt_real_pos; [|apply stub_admittance_real].
  apply tline_input_z_real_pos; [assumption|].
  apply shunt_real_pos; [assumption|apply stub_admittance_real].
Qed.

Lemma Cabs_div_lt_1 (n d : complex) :
  real n * real n + imag n * imag n < real d * real d + imag d * imag d ->
  0 <= Cabs (n / d)%C < 1.
Proof.
  intros H. unfold Cabs. split; [apply sqrt_pos|].
  set (D := real d * real d + imag d * imag d) in *.
  assert (HD : 0 < D) by (unfold D in *; nra).
  rewrite <- sqrt_1. apply sqrt_lt_1_alt. split.
  - nra.
  - cbn. fold D.
    replace ((real n * real d + imag n * imag d) / D *
             ((real n * real d + imag n * imag d) / D) +
             (imag n * real d - real n * imag d) / D *
             ((imag n * real d - real n * imag d) / D))
      with ((real n * real n + imag n * imag n) / D)
      by (unfold D; field; fold D; lra).
    apply (Rmult_lt_reg_r D); [exact HD|].
    replace ((real n * real n + imag n * imag n) / D * D)
      with (real n * real n + imag n * imag n) by (field; lra).
    lra.
Qed.

Lemma vswr_of_ge_1 (z : complex) (z0 : R) :
  0 < z0 -> 0 < real z -> 1 <= vswr_of z z0.
Proof.
  intros H0 Hz. unfold vswr_of. cbv zeta.
  assert (H : 0 <= Cabs ((z - z0) / (z + z0))%C < 1).
  { apply Cabs_div_lt_1. destruct z as [a b]. cbn in *. nra. }
  set (r := Cabs ((z - z0) / (z + z0))%C) in *.
  apply (Rmult_le_reg_r (1 - r)); [lra|].
  replace ((1 + r) / (1 - r) * (1 - r)) with (1 + r) by (field; lra). lra.
Qed.


(** ** Which loads reach the report *)

Lemma inside_sqrt_same_sign (d : Design) :
  1e-6 <= Rabs (real (Z_L2 d) - real (Z_L1 d)) ->
  0 < inside_sqrt d ->
  0 < real (Z_L1 d) * real (Z_L2 d).
Proof.
  unfold inside_sqrt. cbv zeta.
  set (R1 := real (Z_L1 d)). set (X1 := imag (Z_L1 d)).
  set (R2 := real (Z_L2 d)). set (X2 := imag (Z_L2 d)).
  intros Hd Hin.
  assert (HD : R2 - R1 <> 0).
  { intros H0. rewrite H0, Rabs_R0 in Hd. lra. }
  set (S := R1 * R2 + X1 * X2 + (X1 + X2) / (R2 - R1) * (R1 * X2 - R2 * X1)) in *.
  assert (K : S * (R2 - R1) = R1 * (R2 * R2 + X2 * X2) - R2 * (R1 * R1 + X1 * X1))
    by (unfold S; field; exact HD).
  destruct (Rlt_le_dec 0 (R1 * R2)) as [|Hle]; [assumption|exfalso].
  assert (Hq1 : 0 <= R1 * R1 + X1 * X1) by nra.
  assert (Hq2 : 0 <= R2 * R2 + X2 * X2) by nra.
  destruct (Rle_lt_dec R1 0) as [H1|H1].
  - (* R1 <= 0, hence 0 <= R2 or both non-positive with product <= 0 *)
    destruct (Rle_lt_dec 0 R2) as [H2|H2].
    + assert (0 < R2 - R1) by lra.
      assert (0 < S * (R2 - R1)) by (apply Rmult_lt_0_compat; assumption).
      nra.
    + (* R1 <= 0, R2 < 0, R1*R2 <= 0 -> R1 = 0 *)
      assert (R1 = 0) by nra. 
      assert (R2 - R1 < 0) by lra.
      assert (S * (R2 - R1) < 0) by nra.
      nra.
  - (* 0 < R1, so R2 <= 0 *)
    assert (R2 <= 0) by nra.
    assert (R2 - R1 < 0) by lra.
    assert (S * (R2 - R1) < 0) by nra.
    nra.
Qed.

Lemma term_sqrt_neg (zm : complex) (z0 : R) :
  0 < z0 -> real zm < 0 -> term_sqrt zm z0 < 0.
Proof.
  intros H0 Hr. unfold term_sqrt. cbv zeta.
  assert (Hq : imag zm ^ 2 * z0 / (real zm - z0) =
               - (imag zm ^ 2 * z0 / (z0 - real zm))) by (field; lra).
  rewrite Hq.
  assert (0 <= imag zm ^ 2 * z0 / (z0 - real zm)).
  { apply Rmult_le_pos; [|left; apply Rinv_0_lt_compat; lra].
    apply Rmult_le_pos; [simpl; nra|lra]. }
  nra.
Qed.

Lemma check_region_matched_sign (allow : bool) (d1 d2 : Design) (zin : complex) :
  Z_in1 d1 = Some zin ->
  check_region_and_adjust allow d1 = Ok d2 ->
  exists zm, Z_in_matched d2 = Some zm /\ (real zin < 0 -> real zm < 0).
Proof.
  intros Hz H.
  destruct (check_region_cases allow d1 zin Hz)
    as [[_ E]|[[_ [_ E]]|[[_ [_ [_ E]]]|[_ [_ [_ E]]]]]]; rewrite E in H;
    try (injection H as <-; exists zin; split; [reflexivity|tauto]).
  match type of H with _add_auxiliary_stub ?d' = _ =>
    destruct (add_auxiliary_stub_cases d' zin Hz)
      as [[_ E']|[[_ [_ E']]|[_ [_ E']]]]; rewrite E' in H
  end; injection H as <-; eexists; (split; [reflexivity|]); intros Hneg;
    apply (shunt_real_neg zin _ Hneg).
  - apply real_Ci_mul.
  - apply real_Ci_div.
  - reflexivity.
Qed.

(** A perfect match, [z = Z0], has VSWR 1. *)
Lemma vswr_of_matched (z0 : R) : z0 <> 0 -> vswr_of z0 z0 = 1.
Proof.
  intros H. unfold vswr_of. cbv zeta.
  assert (Hrho : ((z0 - z0) / (z0 + z0))%C = mkC 0 0).
  { apply complex_eq; cbn; unfold Rdiv; ring. }
  rewrite Hrho. unfold Cabs. cbn [real imag].
  replace (0 * 0 + 0 * 0) with 0 by ring. rewrite sqrt_0. field.
Qed.

(** The loads of a synthesized design with a non-zero conjugate line have
    positive resistance, when [Z0] is positive. *)
Lemma emitted_loads_passive fa fb ZL1 ZL2 z0 allow theta_aux k d z1 :
  design_at fa fb ZL1 ZL2 z0 allow theta_aux k = Ok d ->
  0 < z0 -> Z1 d = Some z1 -> z1 <> 0 ->
  0 < real ZL1 /\ 0 < real ZL2.
Proof.
  intros Hd Hz0 Hz1 Hne.
  apply design_at_form in Hd.
  destruct Hd as [d0 [zmat [r [sty [sy2 [H0 H]]]]]]. cbv zeta in H.
  destruct H as [C1 [C2 [Hchk [_ [Hterm Heq]]]]].
  set (dp := prepared theta_aux d0) in *.
  assert (Hs : z1 = sqrt (inside_sqrt dp)).
  { rewrite Heq in Hz1. cbn in Hz1. injection Hz1 as <-. reflexivity. }
  assert (Hin : 0 < inside_sqrt dp).
  { destruct C2 as [|C2]; [assumption|]. rewrite <- C2, sqrt_0 in Hs. contradiction. }
  pose proof (inside_sqrt_same_sign dp C1 Hin) as Hsame.
  assert (Hr1 : 0 < real (Z_L1 dp)).
  { destruct (Rlt_le_dec 0 (real (Z_L1 dp))) as [|Hle]; [assumption|exfalso].
    assert (Hneg : real (Z_L1 dp) < 0).
    { destruct Hle as [|Hz]; [assumption|]. rewrite Hz in Hsame. lra. }
    assert (Hzin : real (conj_Z_in1 k dp) < 0).
    { apply (line_formula_real_neg (sqrt (inside_sqrt dp)) (Z_L1 dp));
        [rewrite <- Hs; exact Hne|exact Hneg]. }
    match type of Hchk with check_region_and_adjust _ ?d1 = Ok ?d2 =>
      destruct (check_region_matched_sign allow d1 d2 (conj_Z_in1 k dp)
                  eq_refl Hchk) as [zm [Hzm Hsign]]
    end.
    cbn in Hzm. injection Hzm as <-.
    pose proof (term_sqrt_neg zmat z0 Hz0 (Hsign Hzin)). lra. }
  assert (Hr2 : 0 < real (Z_L2 dp)).
  { destruct (Rlt_le_dec 0 (real (Z_L2 dp))) as [|Hle]; [assumption|exfalso].
    assert (real (Z_L1 dp) * real (Z_L2 dp) <= 0); [|lra].
    rewrite <- (Rmult_0_r (real (Z_L1 dp))).
    apply Rmult_le_compat_l; lra. }
  destruct (prepared_fields _ _ _ _ _ theta_aux _ H0)
    as [_ [_ [_ [_ [F4 [F5 [_ [_ [_ [_ Hl]]]]]]]]]].
  fold dp in F4, F5, Hl.
  destruct Hl as [[_ [_ [A B]]]|[_ [_ Hap]]].
  - rewrite A in Hr1. rewrite B in Hr2. split; assumption.
  - destruct (init_inv _ _ _ _ _ _ H0) as [_ Hd0].
    assert (E1 : Z_L1 dp = line_formula 50 ZL1
                   (tan (radians (IZR theta_aux) * (fa / (fa + fb)))))
      by (rewrite Hap, Hd0; reflexivity).
    assert (E2 : Z_L2 dp = line_formula 50 ZL2
                   (tan (radians (IZR theta_aux) * (fb / (fa + fb)))))
      by (rewrite Hap, Hd0; reflexivity).
    rewrite E1 in Hr1. rewrite E2 in Hr2.
    split.
    + apply (line_formula_real_pos_inv 50 ZL1 _ ltac:(lra) Hr1).
    + apply (line_formula_real_pos_inv 50 ZL2 _ ltac:(lra) Hr2).
Qed.



(** ** The replay of input A at f1 *)

Lemma cos_atan_2_bounds : 2 / 5 < cos (atan 2) < 1 / 2.
Proof.
  destruct sin_cos_atan_2 as [_ H].
  assert (Hp : 0 < cos (atan 2)).
  { apply cos_gt_0; pose proof (atan_bound 2); lra. }
  split; nra.
Qed.

(** Non-degenerate branches of the two primitives *)
Lemma tline_input_z_regular (z_l : complex) (z_c theta : R) :
  1e-9 <= Rabs (cos theta) ->
  tline_input_z z_l z_c theta =
  (z_c * (z_l + z_c * (Ci * tan theta)) / (z_c + z_l * (Ci * tan theta)))%C.
Proof.
  intros H. unfold tline_input_z.
  replace (Rabs (cos theta) <? 1e-9) with false by (symmetry; decide_test; exact H).
  reflexivity.
Qed.

Lemma stub_admittance_regular (y_c theta : R) (is_open : bool) :
  1e-9 <= Rabs (cos theta) -> 1e-9 <= Rabs (sin theta) ->
  stub_admittance y_c theta is_open =
  if is_open then (Ci * y_c * tan theta)%C else (- Ci * y_c / tan theta)%C.
Proof.
  intros Hc Hs. unfold stub_admittance.
  replace (Rabs (cos theta) <? 1e-9) with false by (symmetry; decide_test; exact Hc).
  replace (Rabs (sin theta) <? 1e-9) with false by (symmetry; decide_test; exact Hs).
  reflexivity.
Qed.

Lemma exA_replay_f1 :
  replay exA_design 10 (4 * atan 2) 0.02 25 (1e9 / (1e9 + 3e9)) exA_ZL1 =
  mkC (3200 / 181) (- 2550 / 181).
Proof.
  pose proof cos_atan_2_bounds as Hc. pose proof sin_PI4_bounds as Hs.
  unfold replay, after_aux_line, after_aux_stub.
  cbn [aux_line_Z aux_stub_type stub_type exA_design exA_d3 exA_d2 exA_d1
       set_pi_network set_matching_line set_region set_conjugate_line
       quarter_design is_Open].
  replace (4 * atan 2 * (1e9 / (1e9 + 3e9))) with (atan 2) by field.
  replace (PI * (1e9 / (1e9 + 3e9))) with (PI / 4) by field.
  rewrite (tline_input_z_regular exA_ZL1 10 (atan 2))
    by (rewrite Rabs_right; lra).
  rewrite tan_atan.
  rewrite (stub_admittance_regular 0.02 (PI / 4) true)
    by (rewrite ?cos_PI4_eq_sin, Rabs_right; lra).
  rewrite tline_input_z_regular by (rewrite cos_PI4_eq_sin, Rabs_right; lra).
  rewrite tan_PI4.
  replace (10 * (exA_ZL1 + 10 * (Ci * 2)) / (10 + exA_ZL1 * (Ci * 2)))%C
    with (mkC 20 15) by (apply complex_eq; cbn; lra).
  replace (Ci * 0.02 * 1)%C with (mkC 0 0.02) by (apply complex_eq; cbn; lra).
  replace (shunt (mkC 20 15) (mkC 0 0.02)) with (mkC (400 / 13) (50 / 13))
    by (apply complex_eq; cbn; lra).
  replace (25 * (mkC (400 / 13) (50 / 13) + 25 * (Ci * 1)) /
           (25 + mkC (400 / 13) (50 / 13) * (Ci * 1)))%C
    with (mkC (800 / 29) (- 175 / 29)) by (apply complex_eq; cbn; lra).
  apply complex_eq; cbn; lra.
Qed.

Lemma exA_vswr_f1 : 3 < vswr_of (mkC (3200 / 181) (- 2550 / 181)) 50.
Proof.
  unfold vswr_of. cbv zeta.
  assert (Hrho : ((mkC (3200 / 181) (- 2550 / 181) - 50) /
                  (mkC (3200 / 181) (- 2550 / 181) + 50))%C =
                 mkC (- 72 / 173) (- 51 / 173))
    by (apply complex_eq; cbn; lra).
  rewrite Hrho. unfold Cabs. cbn [real imag].
  replace (- 72 / 173 * (- 72 / 173) + - 51 / 173 * (- 51 / 173))
    with (45 / 173) by lra.
  assert (Hlo : 1 / 2 < sqrt (45 / 173)).
  { replace (1 / 2) with (sqrt (1 / 2 * (1 / 2))) by (apply sqrt_square; lra).
    apply sqrt_lt_1; lra. }
  assert (Hhi : sqrt (45 / 173) < 1).
  { apply Rlt_le_trans with (sqrt 1); [apply sqrt_lt_1; lra|].
    rewrite sqrt_1. lra. }
  set (r := sqrt (45 / 173)) in *.
  apply (Rmult_lt_reg_r (1 - r)); [lra|].
  replace ((1 + r) / (1 - r) * (1 - r)) with (1 + r) by (field; lra). lra.
Qed.


(** ** Quotients of complex numbers *)

Lemma sumsq_nonzero_l (a b : R) : a <> 0 -> a * a + b * b <> 0.
Proof. intros Ha H. apply Ha. nra. Qed.

Lemma sumsq_nonzero_r (a b : R) : b <> 0 -> a * a + b * b <> 0.
Proof. intros Hb H. apply Hb. nra. Qed.

Lemma Cinv_components (a b : R) :
  (1 / mkC a b)%C = mkC (a / (a * a + b * b)) (- b / (a * a + b * b)).
Proof. apply complex_eq; cbn; unfold Rdiv; ring. Qed.

Lemma Rdiv_cross (x p y q : R) :
  p <> 0 -> q <> 0 -> x * q = y * p -> x / p = y / q.
Proof.
  intros Hp Hq H.
  replace (x / p) with (x * q / (p * q)) by (field; split; assumption).
  rewrite H. field. split; assumption.
Qed.

(** [a/c = e/g] from [a*g = e*c], on complex numbers. *)
Lemma Cdiv_cross (a b c d e f g h : R) :
  c * c + d * d <> 0 -> g * g + h * h <> 0 ->
  a * g - b * h = e * c - f * d ->
  a * h + b * g = e * d + f * c ->
  (mkC a b / mkC c d)%C = (mkC e f / mkC g h)%C.
Proof.
  intros Hc Hg Hr Hi.
  assert (U : a * g - b * h - (e * c - f * d) = 0) by lra.
  assert (V : a * h + b * g - (e * d + f * c) = 0) by lra.
  apply complex_eq; cbn [real imag Cdiv]; apply Rdiv_cross; try assumption;
    apply Rminus_diag_uniq.
  - replace ((a * c + b * d) * (g * g + h * h) - (e * g + f * h) * (c * c + d * d))
      with ((a * g - b * h - (e * c - f * d)) * (c * g - d * h) +
            (a * h + b * g - (e * d + f * c)) * (c * h + d * g)) by ring.
    rewrite U, V. ring.
  - replace ((b * c - a * d) * (g * g + h * h) - (f * g - e * h) * (c * c + d * d))
      with ((a * h + b * g - (e * d + f * c)) * (c * g - d * h) -
            (a * g - b * h - (e * c - f * d)) * (c * h + d * g)) by ring.
    rewrite U, V. ring.
Qed.

Lemma Cinv_Cdiv (nr ni dr di : R) :
  nr * nr + ni * ni <> 0 -> dr * dr + di * di <> 0 ->
  (1 / (mkC nr ni / mkC dr di))%C = (mkC dr di / mkC nr ni)%C.
Proof.
  intros Hn Hd. unfold Cdiv at 2. cbn [real imag]. unfold RtoC.
  apply Cdiv_cross.
  - replace ((nr * dr + ni * di) / (dr * dr + di * di) *
             ((nr * dr + ni * di) / (dr * dr + di * di)) +
             (ni * dr - nr * di) / (dr * dr + di * di) *
             ((ni * dr - nr * di) / (dr * dr + di * di)))
      with ((nr * nr + ni * ni) / (dr * dr + di * di)) by (field; exact Hd).
    unfold Rdiv. apply Rmult_integral_contrapositive_currified;
      [exact Hn|apply Rinv_neq_0_compat; exact Hd].
  - exact Hn.
  - field. exact Hd.
  - field. exact Hd.
Qed.

(** The reciprocal of a quotient by a factored numerator. *)
Lemma Cdiv_of_product (u v qr qi : R) :
  qr * qr + qi * qi <> 0 ->
  (mkC (u * qr - v * qi) (u * qi + v * qr) / mkC qr qi)%C = mkC u v.
Proof. intros H. apply complex_eq; cbn; field; exact H. Qed.

(** ** The pi-network at f1

    The replay of the pi-network is a shunt stub, the series line and the
    same shunt stub again.  Written on admittances it is a Moebius map of
    the impedance it starts from; stages 3 and 4 choose its coefficients so
    that the matched impedance goes to [Z0]. *)

(** The input admittance of a line of impedance [zm] and [tan] of its
    length [T], loaded by the admittance [g + jb]. *)
Lemma line_admittance (g b zm T : R) :
  0 < g -> zm <> 0 ->
  (1 / (zm * (1 / mkC g b + zm * (Ci * T)) / (zm + 1 / mkC g b * (Ci * T))))%C =
  (mkC (zm * g) (zm * b + T) /
   mkC (zm - zm * zm * T * b) (zm * zm * T * g))%C.
Proof.
  intros Hg Hm.
  set (M := g * g + b * b).
  assert (HM : 0 < M) by (unfold M; nra).
  rewrite Cinv_components. fold M.
  replace (zm * (mkC (g / M) (- b / M) + zm * (Ci * T)))%C
    with (mkC (zm * g / M) (zm * (zm * T - b / M)))
    by (apply complex_eq; cbn; unfold Rdiv; ring).
  replace (zm + mkC (g / M) (- b / M) * (Ci * T))%C
    with (mkC (zm + b * T / M) (g * T / M))
    by (apply complex_eq; cbn; unfold Rdiv; ring).
  assert (HN : zm * g / M <> 0).
  { unfold Rdiv. repeat apply Rmult_integral_contrapositive_currified;
      try lra. apply Rinv_neq_0_compat. lra. }
  assert (HD : (zm + b * T / M) * (zm + b * T / M) + g * T / M * (g * T / M) <> 0).
  { destruct (Req_dec T 0) as [->|HT].
    - apply sumsq_nonzero_l. unfold Rdiv. rewrite Rmult_0_r, Rmult_0_l, Rplus_0_r.
      exact Hm.
    - apply sumsq_nonzero_r. unfold Rdiv.
      repeat apply Rmult_integral_contrapositive_currified; try lra.
      apply Rinv_neq_0_compat. lra. }
  assert (HQ : (zm - zm * zm * T * b) * (zm - zm * zm * T * b) +
               zm * zm * T * g * (zm * zm * T * g) <> 0).
  { destruct (Req_dec T 0) as [->|HT].
    - apply sumsq_nonzero_l. replace (zm - zm * zm * 0 * b) with zm by ring.
      exact Hm.
    - apply sumsq_nonzero_r.
      repeat apply Rmult_integral_contrapositive_currified; lra. }
  rewrite Cinv_Cdiv; [|apply sumsq_nonzero_l; exact HN|exact HD].
  apply Cdiv_cross; [apply sumsq_nonzero_l; exact HN|exact HQ| |];
    unfold M; field; nra.
Qed.

(** The pi-network at the frequency where its stubs have susceptance [B]
    and its series line has impedance [zm] and tangent [T]: when the two
    equations hold that say the network maps [R + jX] to [z0], the replay
    ends at [z0]. *)
Lemma pi_replay_matched (R X z0 zm B T : R) :
  0 < R -> 0 < z0 -> zm <> 0 ->
  let A := zm * (1 - B * zm * T) in
  let Q := 2 * B * zm + T - B * B * zm * zm * T in
  A * (R - z0) = - z0 * Q * X ->
  A * X + zm * zm * T = z0 * Q * R ->
  shunt (zm * (shunt (mkC R X) (mkC 0 B) + zm * (Ci * T)) /
         (zm + shunt (mkC R X) (mkC 0 B) * (Ci * T)))%C (mkC 0 B) = RtoC z0.
Proof.
  intros HR H0 Hm A Q E1 E2.
  set (N2 := R * R + X * X).
  assert (HN2 : 0 < N2) by (unfold N2; nra).
  unfold shunt. rewrite (Cinv_components R X). fold N2.
  replace (mkC (R / N2) (- X / N2) + mkC 0 B)%C
    with (mkC (R / N2) (- X / N2 + B)) by (apply complex_eq; cbn; ring).
  assert (Hg : 0 < R / N2) by (apply Rdiv_lt_0_compat; assumption).
  rewrite (line_admittance (R / N2) (- X / N2 + B) zm T Hg Hm).
  set (g := R / N2) in *. set (b := - X / N2 + B).
  set (Qr := zm - zm * zm * T * b). set (Qi := zm * zm * T * g).
  assert (HQ : Qr * Qr + Qi * Qi <> 0).
  { destruct (Req_dec T 0) as [HT|HT].
    - apply sumsq_nonzero_l. unfold Qr. rewrite HT.
      replace (zm - zm * zm * 0 * b) with zm by ring. exact Hm.
    - apply sumsq_nonzero_r. unfold Qi.
      do 3 (apply Rmult_integral_contrapositive_currified; [|lra]). exact Hm. }
  assert (Er : zm * g = / z0 * Qr - - B * Qi).
  { unfold Qr, Qi, b, g.
    apply (Rmult_eq_reg_r (N2 * z0));
      [|apply Rmult_integral_contrapositive_currified; lra].
    apply Rminus_diag_uniq.
    match goal with |- ?l - ?r = 0 =>
      replace (l - r)
        with (- X * (A * X + zm * zm * T - z0 * Q * R)
              - R * (A * (R - z0) + z0 * Q * X))
        by (unfold A, Q, N2; field; nra)
    end.
    rewrite E1, E2. ring. }
  assert (Ei : zm * b + T = / z0 * Qi + - B * Qr).
  { unfold Qr, Qi, b, g.
    apply (Rmult_eq_reg_r (N2 * z0));
      [|apply Rmult_integral_contrapositive_currified; lra].
    apply Rminus_diag_uniq.
    match goal with |- ?l - ?r = 0 =>
      replace (l - r)
        with (- R * (A * X + zm * zm * T - z0 * Q * R)
              + X * (A * (R - z0) + z0 * Q * X))
        by (unfold A, Q, N2; field; nra)
    end.
    rewrite E1, E2. ring. }
  rewrite Er, Ei. rewrite Cdiv_of_product by exact HQ.
  replace (mkC (/ z0) (- B) + mkC 0 B)%C with (mkC (/ z0) 0)
    by (apply complex_eq; cbn; ring).
  rewrite Cinv_components.
  apply complex_eq; cbn [real imag RtoC]; field; lra.
Qed.

Lemma term_sqrt_pos_real (zin : complex) (z0 : R) :
  0 < z0 -> 0 < term_sqrt zin z0 -> 0 < real zin.
Proof.
  intros H0 Ht.
  destruct (Rlt_le_dec 0 (real zin)) as [|Hle]; [assumption|exfalso].
  unfold term_sqrt in Ht. cbv zeta in Ht.
  assert (Hq : imag zin ^ 2 * z0 / (real zin - z0) =
               - (imag zin ^ 2 * z0 / (z0 - real zin))) by (field; lra).
  rewrite Hq in Ht.
  assert (0 <= imag zin ^ 2 * z0 / (z0 - real zin)).
  { apply Rmult_le_pos; [|left; apply Rinv_0_lt_compat; lra].
    apply Rmult_le_pos; [simpl; nra|lra]. }
  nra.
Qed.

(** The square of [Z_T1]. *)
Lemma Z_T1_square (zin : complex) (z0 : R) :
  real zin <> z0 -> 0 <= term_sqrt zin z0 ->
  let zt := sqrt (term_sqrt zin z0) in
  zt * zt * (real zin - z0) =
  imag zin * imag zin * z0 + real zin * z0 * (real zin - z0).
Proof.
  intros Hne Ht. cbv zeta. rewrite sqrt_sqrt by exact Ht.
  unfold term_sqrt. cbv zeta. field. lra.
Qed.

(** The angle of stage 3, outside its clamp: [tan theta_T1] is the ratio
    the code takes the arctangent of, and [sin theta_T1] is not 0. *)
Lemma theta_T1_relation (zin : complex) (z0 : R) :
  0 < z0 -> real zin <> z0 -> 0 < term_sqrt zin z0 ->
  imag zin = 0 \/ 1e-9 <= Rabs (imag zin * z0) ->
  let zt := sqrt (term_sqrt zin z0) in
  let th := theta_T1_rad zin z0 in
  sin th <> 0 /\
  sin th * (imag zin * z0) = cos th * (zt * (z0 - real zin)).
Proof.
  intros H0 Hne Ht HX. cbv zeta. unfold theta_T1_rad. cbv zeta.
  set (zt := sqrt (term_sqrt zin z0)).
  assert (Hzt : 0 < zt) by (apply sqrt_lt_R0; exact Ht).
  pose proof PI_RGT_0 as HPI.
  case_test (Rabs (imag zin * z0) <? 1e-9).
  - assert (HX0 : imag zin = 0) by (destruct HX; [assumption|lra]).
    replace (PI / 2 <=? 0) with false by (symmetry; decide_test; lra).
    rewrite sin_PI2, cos_PI2, HX0. split; [lra|ring].
  - assert (Hden : imag zin * z0 <> 0).
    { intros Hz. rewrite Hz, Rabs_R0 in E. lra. }
    set (q := zt * (z0 - real zin) / (imag zin * z0)).
    assert (Hq : q <> 0).
    { unfold q, Rdiv. apply Rmult_integral_contrapositive_currified;
        [|apply Rinv_neq_0_compat; exact Hden].
      apply Rmult_integral_contrapositive_currified; lra. }
    assert (Hc : 0 < cos (atan q)).
    { apply cos_gt_0; pose proof (atan_bound q); lra. }
    assert (Hs : sin (atan q) = q * cos (atan q)).
    { pose proof (tan_atan q) as Hq'. unfold tan in Hq'.
      rewrite <- Hq' at 2. field. lra. }
    assert (Hrel : sin (atan q) * (imag zin * z0) =
                   cos (atan q) * (zt * (z0 - real zin))).
    { assert (HXn : imag zin <> 0)
        by (intros Hz; apply Hden; rewrite Hz; ring).
      rewrite Hs. unfold q. field. split; [lra|exact HXn]. }
    assert (Hsn : sin (atan q) <> 0).
    { rewrite Hs. apply Rmult_integral_contrapositive_currified; lra. }
    case_test (atan q <=? 0).
    + rewrite neg_sin, neg_cos. split; [lra|]. lra.
    + split; assumption.
Qed.

(** Stage 4 solves the pi-network for the line of stage 3: with [Z_m] and
    [B_n1] as stage 4 computes them, the network maps the matched impedance
    [R + jX] to [z0]. *)
Lemma pi_equations (R X z0 zt sT cT sm cm : R) :
  sm <> 0 -> cm <> 0 -> sT <> 0 -> zt <> 0 -> R <> z0 ->
  sm * sm + cm * cm = 1 -> sT * sT + cT * cT = 1 ->
  sT * (X * z0) = cT * (zt * (z0 - R)) ->
  zt * zt * (R - z0) = X * X * z0 + R * z0 * (R - z0) ->
  let zm := zt * sT / sm in
  let B := (cm - cT) / (zm * sm) in
  let T := sm / cm in
  let A := zm * (1 - B * zm * T) in
  let Q := 2 * B * zm + T - B * B * zm * zm * T in
  zm <> 0 /\
  A * (R - z0) = - z0 * Q * X /\
  A * X + zm * zm * T = z0 * Q * R.
Proof.
  intros Hsm Hcm HsT Hzt Hne Cm CT HA H1 zm B T A Q.
  assert (Hzm : zm <> 0).
  { unfold zm, Rdiv. repeat apply Rmult_integral_contrapositive_currified;
      try assumption. apply Rinv_neq_0_compat; assumption. }
  assert (EA : A = zt * sT * cT / (sm * cm)).
  { unfold A, B, T, zm. field. repeat split; assumption. }
  assert (EQ : Q = sT * sT / (sm * cm)).
  { replace (sT * sT) with (cm * cm + sm * sm - cT * cT) by lra.
    unfold Q, B, T, zm. field. repeat split; assumption. }
  assert (EZ : zm * zm * T = zt * zt * sT * sT / (sm * cm)).
  { unfold T, zm. field. split; assumption. }
  assert (K2 : cT * X * zt + zt * zt * sT = z0 * sT * R).
  { apply (Rmult_eq_reg_r (z0 - R)); [|lra].
    replace ((cT * X * zt + zt * zt * sT) * (z0 - R))
      with (X * (cT * (zt * (z0 - R))) - sT * (zt * zt * (R - z0))) by ring.
    rewrite <- HA, H1. ring. }
  split; [exact Hzm|]. split.
  - rewrite EA, EQ. apply Rminus_diag_uniq.
    replace (zt * sT * cT / (sm * cm) * (R - z0) - - z0 * (sT * sT / (sm * cm)) * X)
      with (sT / (sm * cm) * (sT * (X * z0) - cT * (zt * (z0 - R))))
      by (field; split; assumption).
    rewrite HA. ring.
  - rewrite EA, EQ, EZ. apply Rminus_diag_uniq.
    replace (zt * sT * cT / (sm * cm) * X + zt * zt * sT * sT / (sm * cm) -
             z0 * (sT * sT / (sm * cm)) * R)
      with (sT / (sm * cm) * (cT * X * zt + zt * zt * sT - z0 * sT * R))
      by (field; split; assumption).
    rewrite K2. ring.
Qed.

Lemma Rabs_lower_nonzero (x : R) : 1e-9 <= Rabs x -> x <> 0.
Proof. intros H Hx. rewrite Hx, Rabs_R0 in H. lra. Qed.

(** Outside the fallback, the stub stage 4 selects has the susceptance
    [B_n1] at [f1]. *)
Lemma pi_stub_susceptance (p zt th : R) :
  1e-9 <= Rabs (cos (PI * p)) -> 1e-9 <= Rabs (sin (PI * p)) ->
  0 < pi_Y_open p zt th \/ 0 < pi_Y_short p zt th ->
  stub_admittance (pi_Y_n p zt th) (PI * p)
    (is_Open (Some (pi_stub_type p zt th))) = mkC 0 (pi_B_n1 p zt th).
Proof.
  intros Hc Hs Hy.
  rewrite stub_admittance_regular by assumption.
  assert (HT : tan (PI * p) <> 0).
  { unfold tan, Rdiv. apply Rmult_integral_contrapositive_currified;
      [|apply Rinv_neq_0_compat]; apply Rabs_lower_nonzero; assumption. }
  unfold pi_Y_n, pi_stub_type.
  case_test (pi_Y_open p zt th >? 0).
  - cbn [is_Open]. unfold pi_Y_open in *. rewrite (Rmult_comm p PI) in *.
    destruct (Rabs (tan (PI * p)) >? 1e-9); [|lra].
    apply complex_eq; cbn; field; exact HT.
  - destruct Hy as [Hy|Hy]; [lra|].
    replace (pi_Y_short p zt th >? 0) with true by (symmetry; decide_test; lra).
    cbn [is_Open]. unfold pi_Y_short. rewrite (Rmult_comm p PI).
    apply complex_eq; cbn; field; exact HT.
Qed.

(** The pi-network of stages 3 and 4, replayed at [f1] on the impedance it
    was synthesized for, ends at [z0]. *)
Lemma pi_network_exact (zin : complex) (z0 p : R) :
  0 < z0 -> real zin <> z0 -> 0 < term_sqrt zin z0 ->
  imag zin = 0 \/ 1e-9 <= Rabs (imag zin * z0) ->
  1e-9 <= Rabs (cos (PI * p)) -> 1e-9 <= Rabs (sin (PI * p)) ->
  let zt := sqrt (term_sqrt zin z0) in
  let th := theta_T1_rad zin z0 in
  0 < pi_Y_open p zt th \/ 0 < pi_Y_short p zt th ->
  let y := stub_admittance (pi_Y_n p zt th) (PI * p)
             (is_Open (Some (pi_stub_type p zt th))) in
  shunt (tline_input_z (shunt zin y) (pi_Z_m p zt th) (PI * p)) y = RtoC z0.
Proof.
  intros H0 Hne Ht HX Hc Hs zt th Hy y.
  unfold y. rewrite pi_stub_susceptance by assumption.
  rewrite tline_input_z_regular by assumption.
  destruct (theta_T1_relation zin z0 H0 Hne Ht HX) as [HsT Hrel].
  fold zt th in HsT, Hrel.
  pose proof (Z_T1_square zin z0 Hne (Rlt_le _ _ Ht)) as Hsq.
  cbv zeta in Hsq. fold zt in Hsq.
  pose proof (term_sqrt_pos_real zin z0 H0 Ht) as HR.
  assert (Hzt : zt <> 0).
  { unfold zt. pose proof (sqrt_lt_R0 _ Ht). lra. }
  destruct zin as [R X]. cbn [real imag] in *.
  destruct (pi_equations R X z0 zt (sin th) (cos th) (sin (PI * p)) (cos (PI * p)))
    as [Hzm [E1 E2]];
    try assumption; try (apply Rabs_lower_nonzero; assumption);
    try (rewrite <- Rsqr_mult; fold (Rsqr (sin (PI * p))));
    try apply sin2_cos2.
  unfold pi_B_n1, pi_Z_m. rewrite (Rmult_comm p PI).
  apply pi_replay_matched; assumption.
Qed.

(** ** The replay at f1 follows the synthesis *)

(** The replay's line primitive, outside its clamp, is the line formula of
    the synthesis. *)
Lemma tline_input_z_line_formula (z_l : complex) (z_c theta : R) :
  1e-9 <= Rabs (cos theta) ->
  tline_input_z z_l z_c theta = line_formula z_c z_l (tan theta).
Proof.
  intros H. rewrite tline_input_z_regular by exact H. unfold line_formula.
  f_equal; apply complex_eq; cbn; ring.
Qed.

(** Outside the fallback of [_add_auxiliary_stub], the impedance stage 2
    hands to stage 3 is the one the replay reaches after the auxiliary
    stub. *)
Lemma check_region_replayed (allow : bool) (d1 d2 : Design) (zin : complex) :
  Z_in1 d1 = Some zin ->
  aux_stub_type d1 = None ->
  check_region_and_adjust allow d1 = Ok d2 ->
  1e-9 <= Rabs (cos (PI * p1 d1)) -> 1e-9 <= Rabs (sin (PI * p1 d1)) ->
  aux_stub_type d2 = None \/
  0 < aux_Y2_open (p1 d1) zin \/ 0 < aux_Y2_short (p1 d1) zin ->
  Z_in_matched d2 = Some (after_aux_stub d2 (p1 d1) zin).
Proof.
  intros Hz Hty H Hc Hs Hnf.
  destruct (check_region_cases allow d1 zin Hz)
    as [[_ E]|[[_ [_ E]]|[[_ [_ [_ E]]]|[_ [_ [_ E]]]]]]; rewrite E in H;
    try (injection H as <-; unfold after_aux_stub; cbn; rewrite Hty;
         reflexivity).
  match type of H with _add_auxiliary_stub ?d' = _ =>
    destruct (add_auxiliary_stub_cases d' zin Hz)
      as [[_ E']|[[_ [_ E']]|[Ho [Hsh E']]]]; rewrite E' in H
  end; injection H as <-; cbn [p1 set_region] in *.
  - unfold after_aux_stub. cbn [aux_stub_type aux_stub_Y2 set_region is_Open].
    rewrite stub_admittance_regular by assumption.
    rewrite (Rmult_comm (p1 d1) PI). reflexivity.
  - unfold after_aux_stub. cbn [aux_stub_type aux_stub_Y2 set_region is_Open].
    rewrite stub_admittance_regular by assumption.
    rewrite (Rmult_comm (p1 d1) PI). reflexivity.
  - exfalso. destruct Hnf as [Hn|[Hn|Hn]]; [discriminate|lra|lra].
Qed.

(** X1. The synthesis is exact at [f1].  A candidate whose design took
    neither stub fallback, whose angles at [f1] are off the clamps of the
    replay ([|cos|] and [|sin|] at least 1e-9) and whose matched impedance
    is off the clamp and the zero divisors of stage 3 (reactance zero or
    [|X Z0|] at least 1e-9, resistance different from [Z0], positive
    radicand) reports a VSWR at [f1] of exactly 1, for [Z0 > 0] and
    [f1 <> f2].  With C1 on input A: the placeholder of the fallback is
    what breaks the match. *)
Theorem synthesis_exact_at_f1 fa fb ZL1 ZL2 z0 allow theta_aux k d c th1 zin zmat :
  design_at fa fb ZL1 ZL2 z0 allow theta_aux k = Ok d ->
  candidate_of fa fb d = Ok c ->
  0 < z0 -> fa <> fb ->
  let p := fa / (fa + fb) in
  1e-9 <= Rabs (cos (PI * p)) -> 1e-9 <= Rabs (sin (PI * p)) ->
  aux_line_Z d = None \/ 1e-9 <= Rabs (cos (radians (IZR theta_aux) * p)) ->
  theta1 d = Some th1 -> 1e-9 <= Rabs (cos (th1 * p)) ->
  Z_in1 d = Some zin ->
  aux_stub_type d = None \/ 0 < aux_Y2_open p zin \/ 0 < aux_Y2_short p zin ->
  Z_in_matched d = Some zmat ->
  real zmat <> z0 -> 0 < term_sqrt zmat z0 ->
  imag zmat = 0 \/ 1e-9 <= Rabs (imag zmat * z0) ->
  0 < pi_Y_open p (sqrt (term_sqrt zmat z0)) (theta_T1_rad zmat z0) \/
  0 < pi_Y_short p (sqrt (term_sqrt zmat z0)) (theta_T1_rad zmat z0) ->
  VSWR_f1 c = Some 1.
Proof.
  intros Hd Hcd H0 Hf p Hc Hs Haux Hth1 Hc1 Hzin Hnf Hzm Hne Ht HX Hy.
  destruct (candidate_of_design _ _ _ _ _ _ _ _ _ _ Hd Hcd)
    as [z1 [th1' [yn [zm [A [B [C [D [_ [_ [_ [_ [_ [_ [_ [_ V1]]]]]]]]]]]]]]]].
  rewrite V1. f_equal.
  replace (fa =? fb) with false by (symmetry; decide_test; exact Hf).
  rewrite <- (vswr_of_matched z0) by lra. f_equal.
  fold p.
  apply design_at_form in Hd.
  destruct Hd as [d0 [zmat' [r [sty [sy2 [Hi H]]]]]]. cbv zeta in H.
  destruct H as [_ [_ [Hchk [_ [_ Heq]]]]].
  set (dp := prepared theta_aux d0) in *.
  destruct (prepared_fields _ _ _ _ _ theta_aux _ Hi)
    as [_ [_ [_ [_ [F4 [_ [F6 [_ [F8 [_ Hl]]]]]]]]]].
  fold dp in F4, F6, F8, Hl.
  rewrite Heq in A, B, C, D, Hth1, Hzin, Hzm, Hnf, Haux.
  cbn in A, B, C, D, Hth1, Hzin, Hzm, Hnf, Haux.
  injection A as <-. injection B as <-. injection C as <-. injection D as <-.
  injection Hth1 as <-. injection Hzin as <-. injection Hzm as <-.
  fold p.
  (* the auxiliary line *)
  assert (Ea : after_aux_line d p ZL1 = Z_L1 dp).
  { unfold after_aux_line. rewrite Heq.
    cbn [aux_line_Z aux_line_theta set_pi_network set_matching_line set_region
         set_conjugate_line].
    destruct Hl as [[-> [_ [-> _]]]|[Hz [Hth Hap]]]; [reflexivity|].
    rewrite Hz, Hth.
    replace (truthy (Some 50)) with true
      by (cbn; symmetry; replace (50 =? 0) with false;
          [reflexivity|symmetry; decide_test; lra]).
    destruct Haux as [Hn|Hca]; [rewrite Hz in Hn; discriminate|].
    rewrite tline_input_z_line_formula by exact Hca.
    destruct (init_inv _ _ _ _ _ _ Hi) as [_ Hd0].
    rewrite Hap, Hd0. reflexivity. }
  (* the conjugate line *)
  assert (Eb : tline_input_z (Z_L1 dp) (sqrt (inside_sqrt dp))
                 ((theta1_rad dp + IZR k * PI) * p) = conj_Z_in1 k dp).
  { rewrite tline_input_z_line_formula by exact Hc1.
    unfold conj_Z_in1. rewrite F6. reflexivity. }
  (* the auxiliary stub *)
  match type of Hchk with check_region_and_adjust _ ?d1 = Ok ?d2 =>
    pose proof (check_region_replayed allow d1 d2 (conj_Z_in1 k dp)
                  eq_refl F8 Hchk) as Ec
  end.
  cbn [p1 set_conjugate_line] in Ec. rewrite F6 in Ec. fold p in Ec.
  specialize (Ec Hc Hs Hnf). cbn [Z_in_matched set_region] in Ec.
  injection Ec as Ec.
  assert (Ed : after_aux_stub d p (conj_Z_in1 k dp) = zmat').
  { match type of Ec with _ = ?rhs => transitivity rhs end;
      [unfold after_aux_stub; rewrite Heq; reflexivity|symmetry; exact Ec]. }
  unfold replay. rewrite Ea, Eb, Ed.
  rewrite Heq. cbn [stub_type set_pi_network].
  apply pi_network_exact; assumption.
Qed.

(** ** C8 on input C: a conjugate line of impedance zero *)

(** With the auxiliary stub enabled, input C goes through the fallback of
    stage 2 and then through the fallback of stage 4. *)

Lemma exC_stage2 : check_region_and_adjust true exC_d1 = Ok exC_d2.
Proof.
  rewrite (check_region_c_stub exC_d1 (mkC 0 0) eq_refl)
    by (unfold norm_r, norm_g; cbn; lra).
  match goal with |- _add_auxiliary_stub ?d' = _ =>
    destruct (add_auxiliary_stub_cases d' (mkC 0 0) eq_refl)
      as [[C _]|[[_ [C _]]|[_ [_ E]]]]
  end.
  - exfalso. unfold aux_Y2_open in C. cbn in C.
    destruct (_ <? _) in C; lra.
  - exfalso. unfold aux_Y2_short in C. cbn in C. lra.
  - rewrite E. unfold exC_d2. f_equal. 
    replace (1 / (1 / mkC 0 0 + RtoC 0))%C with (mkC 0 0)
      by (apply complex_eq; cbn; lra).
    reflexivity.
Qed.

Lemma exC_stage3 : calculate_matching_network exC_d2 = Ok exC_d3.
Proof.
  assert (Ht : term_sqrt (mkC 0 0) 50 = 0) by (unfold term_sqrt; cbn; lra).
  rewrite (calculate_matching_network_ok exC_d2 (mkC 0 0) eq_refl)
    by (cbn [Z0 exC_d2 exC_d1 set_region set_conjugate_line quarter_design];
        rewrite Ht; lra).
  cbn [Z0 exC_d2 exC_d1 set_region set_conjugate_line quarter_design].
  unfold exC_d3. rewrite Ht, sqrt_0. do 2 f_equal.
  unfold theta_T1_rad. cbn [real imag].
  replace (Rabs (0 * 50) <? 1e-9) with true
    by (symmetry; decide_test; rewrite Rmult_0_l, Rabs_R0; lra).
  replace (PI / 2 <=? 0) with false; [reflexivity|].
  symmetry; decide_test. pose proof PI_RGT_0. lra.
Qed.

Lemma exC_stage4 : synthesize_pi_network exC_d3 = Ok exC_design.
Proof.
  rewrite (synthesize_pi_network_ok exC_d3 0 (PI / 2)) by reflexivity.
  cbn [p1 exC_d3 exC_d2 exC_d1 set_matching_line set_region set_conjugate_line
       quarter_design].
  assert (Hm : pi_Z_m (1e9 / (1e9 + 3e9)) 0 (PI / 2) = 0)
    by (unfold pi_Z_m, Rdiv; ring).
  assert (Hb : pi_B_n1 (1e9 / (1e9 + 3e9)) 0 (PI / 2) = 0).
  { unfold pi_B_n1. rewrite Hm, Rmult_0_l. unfold Rdiv. rewrite Rinv_0. ring. }
  assert (Ho : pi_Y_open (1e9 / (1e9 + 3e9)) 0 (PI / 2) <= 0).
  { unfold pi_Y_open. rewrite Hb. destruct (_ <? _); unfold Rdiv; lra. }
  assert (Hsh : pi_Y_short (1e9 / (1e9 + 3e9)) 0 (PI / 2) <= 0).
  { unfold pi_Y_short. rewrite Hb. lra. }
  destruct (pi_fallback_is_placeholder _ _ _ Ho Hsh) as [_ [-> ->]].
  rewrite Hm. reflexivity.
Qed.

Lemma exC_design_at :
  design_at 1e9 3e9 exC_ZL1 exC_ZL2 50 true 0 0 = Ok exC_design.
Proof.
  rewrite (design_at_quarter _ _ _ _ _ _ _ _ exC_stage1 exC_stage2 exC_stage3).
  exact exC_stage4.
Qed.

Lemma Cinv_imag (b : R) : b <> 0 -> (1 / mkC 0 b)%C = mkC 0 (- / b).
Proof. intros Hb. apply complex_eq; cbn; field; exact Hb. Qed.

Lemma Cdiv_eval (a b c d n : R) :
  c * c + d * d = n ->
  (mkC a b / mkC c d)%C = mkC ((a * c + b * d) / n) ((b * c - a * d) / n).
Proof. intros <-. reflexivity. Qed.

Lemma exC_replay_f1 :
  replay exC_design 0 0 0.02 0 (1e9 / (1e9 + 3e9)) exC_ZL1 = mkC 0 (- 50).
Proof.
  pose proof sin_PI4_bounds as Hs.
  unfold replay, after_aux_line, after_aux_stub.
  cbn [aux_line_Z aux_stub_type aux_stub_Y2 stub_type exC_design exC_d3 exC_d2
       exC_d1 set_pi_network set_matching_line set_region set_conjugate_line
       quarter_design is_Open].
  replace (0 * (1e9 / (1e9 + 3e9))) with 0 by field.
  replace (PI * (1e9 / (1e9 + 3e9))) with (PI / 4) by field.
  rewrite (tline_input_z_regular exC_ZL1 0 0)
    by (rewrite cos_0, Rabs_right; lra).
  rewrite tan_0.
  rewrite (stub_admittance_regular 0.02 (PI / 4) true)
    by (rewrite ?cos_PI4_eq_sin, Rabs_right; lra).
  rewrite tline_input_z_regular by (rewrite cos_PI4_eq_sin, Rabs_right; lra).
  rewrite tan_PI4.
  replace (0 * (exC_ZL1 + 0 * (Ci * 0)) / (0 + exC_ZL1 * (Ci * 0)))%C
    with (mkC 0 0) by (apply complex_eq; cbn; lra).
  replace (Ci * 0.02 * 1)%C with (mkC 0 0.02) by (apply complex_eq; cbn; lra).
  unfold shunt.
  replace (1 / mkC 0 0)%C with (mkC 0 0) by (apply complex_eq; cbn; lra).
  replace (mkC 0 0 + mkC 0 0.02)%C with (mkC 0 0.02)
    by (apply complex_eq; cbn; lra).
  rewrite (Cinv_imag 0.02) by lra.
  replace (- / 0.02) with (- 50) by lra.
  rewrite (Cinv_imag (- 50)) by lra.
  replace (mkC 0 (- / - 50) + mkC 0 0.02)%C with (mkC 0 0.04)
    by (apply complex_eq; cbn; lra).
  rewrite (Cinv_imag 0.04) by lra.
  replace (- / 0.04) with (- 25) by lra.
  replace (0 * (mkC 0 (- 25) + 0 * (Ci * 1)) / (0 + mkC 0 (- 25) * (Ci * 1)))%C
    with (mkC 0 0) by (apply complex_eq; cbn; lra).
  replace (1 / mkC 0 0)%C with (mkC 0 0) by (apply complex_eq; cbn; lra).
  replace (mkC 0 0 + mkC 0 0.02)%C with (mkC 0 0.02)
    by (apply complex_eq; cbn; lra).
  rewrite (Cinv_imag 0.02) by lra.
  f_equal. lra.
Qed.

Lemma exC_vswr_f1 : vswr_of (mkC 0 (- 50)) 50 = 0.
Proof.
  unfold vswr_of. cbv zeta.
  assert (Hrho : ((mkC 0 (- 50) - 50) / (mkC 0 (- 50) + 50))%C = mkC 0 (- 1)).
  { replace (mkC 0 (- 50) - 50)%C with (mkC (- 50) (- 50))
      by (apply complex_eq; cbn; lra).
    replace (mkC 0 (- 50) + 50)%C with (mkC 50 (- 50))
      by (apply complex_eq; cbn; lra).
    rewrite (Cdiv_eval _ _ _ _ 5000) by lra.
    apply complex_eq; cbn; lra. }
  rewrite Hrho. unfold Cabs. cbn [real imag].
  replace (0 * 0 + - 1 * - 1) with 1 by lra. rewrite sqrt_1.
  replace (1 - 1) with 0 by lra. unfold Rdiv. rewrite Rinv_0. ring.
Qed.

(** C8 on input C.  The grid point (0, k = 0) is not skipped: every later
    test is passed, the candidate is returned with [Z1 = 0] and
    [Z_series = 0], and its replay divides by zero.  With the total
    division of the reals the reflection coefficient has modulus 1 and the
    reported VSWR at [f1] is 2/0 = 0; in floating point the 0/0 of stage 1
    is [nan], every comparison with it is false, and the reported VSWR is
    [nan].  Neither is a scalar of at least 1. *)
Theorem zero_line_candidate_vswr_below_one :
  exists l c v,
    find_all_designs 1e9 3e9 exC_ZL1 exC_ZL2 50 true false = Ok l /\
    In c l /\ Z1_param c = Some 0 /\ Z_series c = Some 0 /\
    VSWR_f1 c = Some v /\ v < 1.
Proof.
  destruct (emitted_candidate 1e9 3e9 exC_ZL1 exC_ZL2 50 true 0 0
              exC_design) as [l [c [Hl [Hc Hcd]]]];
    [left; reflexivity|apply exC_design_at|].
  destruct (candidate_of_design _ _ _ _ _ _ _ _ _ _ exC_design_at Hcd)
    as [z1 [th1 [yn [zm [A [B [C [D [_ [E1 [_ [E2 [_ [_ [_ [_ V1]]]]]]]]]]]]]]]].
  cbn in A, B, C, D. injection A as <-. injection B as <-.
  injection C as <-. injection D as <-.
  replace (1e9 =? 3e9) with false in V1 by (symmetry; decide_test; lra).
  rewrite exC_replay_f1, exC_vswr_f1 in V1.
  exists l, c, 0. repeat split; try assumption. lra.
Qed.

(** ** C1: the candidates that miss the match at f1 *)

(** C1 on inputs A and C.  On input A the design of the grid point
    (0, k = 1) needs no shunt stub (the susceptance stage 4 computes is
    0), stage 4 stores the placeholder [Y_n = 0.02] all the same, and the
    replay, which includes the two placeholder stubs, ends at
    [3200/181 - 2550/181 j]: the candidate is returned with a VSWR at [f1]
    above 3.  (In floating point the rounding of [tan] and [arctan] decides
    whether that susceptance is exactly 0.)  On input C the candidate of
    the grid point (0, k = 0) carries the placeholders of both fallbacks
    and a VSWR at [f1] of 0, [nan] in floating point. *)
Theorem placeholder_candidate_mismatched_at_f1 :
  (exists l c v,
     find_all_designs 1e9 3e9 exA_ZL1 exA_ZL2 50 true false = Ok l /\
     In c l /\
     stub_type_tag c = Some Open /\ Z_stub c = Some (1 / 0.02) /\
     VSWR_f1 c = Some v /\ 3 < v) /\
  (exists l c,
     find_all_designs 1e9 3e9 exC_ZL1 exC_ZL2 50 true false = Ok l /\
     In c l /\
     aux_stub_type_tag c = Some Open /\ Z_stub c = Some (1 / 0.02) /\
     VSWR_f1 c = Some 0).
Proof.
  split.
  - destruct (emitted_candidate 1e9 3e9 exA_ZL1 exA_ZL2 50 true 0 1
                exA_design) as [l [c [Hl [Hc Hcd]]]];
      [right; left; reflexivity|apply exA_design_at|].
    destruct (candidate_of_design _ _ _ _ _ _ _ _ _ _ (exA_design_at true) Hcd)
      as [z1 [th1 [yn [zm [A [B [C [D [_ [_ [_ [_ [Hzs [Hty [_ [_ V1]]]]]]]]]]]]]]]].
    cbn in A, B, C, D. injection A as <-. injection B as <-.
    injection C as <-. injection D as <-.
    replace (1e9 =? 3e9) with false in V1 by (symmetry; decide_test; lra).
    rewrite exA_replay_f1 in V1.
    exists l, c, (vswr_of (mkC (3200 / 181) (- 2550 / 181)) 50).
    repeat split; try assumption.
    apply exA_vswr_f1.
  - destruct (emitted_candidate 1e9 3e9 exC_ZL1 exC_ZL2 50 true 0 0
                exC_design) as [l [c [Hl [Hc Hcd]]]];
      [left; reflexivity|apply exC_design_at|].
    destruct (candidate_of_design _ _ _ _ _ _ _ _ _ _ exC_design_at Hcd)
      as [z1 [th1 [yn [zm [A [B [C [D [_ [_ [_ [_ [Hzs [_ [Hat [_ V1]]]]]]]]]]]]]]]].
    cbn in A, B, C, D. injection A as <-. injection B as <-.
    injection C as <-. injection D as <-.
    replace (1e9 =? 3e9) with false in V1 by (symmetry; decide_test; lra).
    rewrite exC_replay_f1, exC_vswr_f1 in V1.
    exists l, c. repeat split; assumption.
Qed.

(** ** Input D: an exact match at f1 *)

(** On input D stage 1 ends on the real impedance 78 (region a), stage 3 on
    a quarter-wave line, and stage 4 selects an open stub. *)

Lemma exD_stage1 :
  calculate_conjugate_transform 1 (quarter_design exD_ZL1 exD_ZL2 50) = Ok exD_d1.
Proof.
  rewrite (quarter_stage1 exD_ZL1 exD_ZL2 50 52).
  - unfold exD_d1. do 2 f_equal. apply complex_eq; cbn; lra.
  - lra.
  - unfold inside_sqrt. cbn. lra.
  - cbn. rewrite Rabs_right; lra.
  - cbn. rewrite Rabs_right; lra.
  - cbn. lra.
Qed.

Lemma exD_stage2 (allow : bool) : check_region_and_adjust allow exD_d1 = Ok exD_d2.
Proof.
  apply (check_region_a allow exD_d1 (mkC 78 0) eq_refl).
  unfold norm_r; cbn; lra.
Qed.

Lemma exD_term_sqrt : term_sqrt (mkC 78 0) 50 = 3900.
Proof. unfold term_sqrt. cbn. lra. Qed.

Lemma exD_theta_T1 : theta_T1_rad (mkC 78 0) 50 = PI / 2.
Proof.
  unfold theta_T1_rad. cbn [real imag].
  replace (Rabs (0 * 50) <? 1e-9) with true
    by (symmetry; decide_test; rewrite Rmult_0_l, Rabs_R0; lra).
  replace (PI / 2 <=? 0) with false; [reflexivity|].
  symmetry; decide_test. pose proof PI_RGT_0. lra.
Qed.

Lemma exD_stage3 : calculate_matching_network exD_d2 = Ok exD_d3.
Proof.
  rewrite (calculate_matching_network_ok exD_d2 (mkC 78 0) eq_refl)
    by (cbn [Z0 exD_d2 exD_d1 set_region set_conjugate_line quarter_design];
        rewrite exD_term_sqrt; lra).
  cbn [Z0 exD_d2 exD_d1 set_region set_conjugate_line quarter_design].
  rewrite exD_theta_T1. reflexivity.
Qed.

Lemma exD_design_at (allow : bool) :
  design_at 1e9 3e9 exD_ZL1 exD_ZL2 50 allow 0 1 = Ok exD_design.
Proof.
  rewrite (design_at_quarter _ _ _ _ _ _ _ _ exD_stage1 (exD_stage2 allow)
             exD_stage3).
  rewrite (synthesize_pi_network_ok exD_d3 (sqrt (term_sqrt (mkC 78 0) 50))
             (PI / 2)) by reflexivity.
  reflexivity.
Qed.

(** The open stub of input D: its admittance is positive. *)
Lemma exD_pi_Y_open :
  0 < pi_Y_open (1e9 / (1e9 + 3e9)) (sqrt (term_sqrt (mkC 78 0) 50)) (PI / 2).
Proof.
  pose proof sin_PI4_bounds as Hs.
  assert (Hzt : 0 < sqrt (term_sqrt (mkC 78 0) 50))
    by (apply sqrt_lt_R0; rewrite exD_term_sqrt; lra).
  set (zt := sqrt (term_sqrt (mkC 78 0) 50)) in *.
  unfold pi_Y_open, pi_B_n1, pi_Z_m. rewrite quarter_PI.
  rewrite tan_PI4, sin_PI2, cos_PI2, cos_PI4_eq_sin.
  replace (Rabs 1 >? 1e-9) with true
    by (symmetry; decide_test; rewrite Rabs_right; lra).
  replace ((sin (PI / 4) - 0) / (zt * 1 / sin (PI / 4) * sin (PI / 4)) / 1)
    with (sin (PI / 4) / zt) by (field; lra).
  apply Rdiv_lt_0_compat; lra.
Qed.

Lemma synthesis_exact_at_f1_witness :
  exists l c,
    find_all_designs 1e9 3e9 exD_ZL1 exD_ZL2 50 true false = Ok l /\ In c l /\
    VSWR_f1 c = Some 1.
Proof.
  destruct (emitted_candidate 1e9 3e9 exD_ZL1 exD_ZL2 50 true 0 1
              exD_design) as [l [c [Hl [Hc Hcd]]]].
  - right; left; reflexivity.
  - apply exD_design_at.
  - exists l, c. split; [exact Hl|]. split; [exact Hc|].
    pose proof sin_PI4_bounds as Hs. pose proof cos_atan_2_bounds as Hc2.
    apply (synthesis_exact_at_f1 1e9 3e9 exD_ZL1 exD_ZL2 50 true 0%Z 1%Z
             exD_design c (4 * atan 2) (mkC 78 0) (mkC 78 0)
             (exD_design_at true) Hcd).
    + lra.
    + lra.
    + replace (PI * (1e9 / (1e9 + 3e9))) with (PI / 4) by field.
      rewrite cos_PI4_eq_sin, Rabs_right; lra.
    + replace (PI * (1e9 / (1e9 + 3e9))) with (PI / 4) by field.
      rewrite Rabs_right; lra.
    + left. reflexivity.
    + reflexivity.
    + replace (4 * atan 2 * (1e9 / (1e9 + 3e9))) with (atan 2) by field.
      rewrite Rabs_right; lra.
    + reflexivity.
    + left. reflexivity.
    + reflexivity.
    + cbn. lra.
    + rewrite exD_term_sqrt. lra.
    + left. reflexivity.
    + left. rewrite exD_theta_T1. exact exD_pi_Y_open.
Defined.

(** ** Complex conjugates *)

Lemma Cconj_RtoC (x : R) : Cconj (RtoC x) = RtoC x.
Proof. apply complex_eq; cbn; ring. Qed.

Lemma Cconj_add (z w : complex) : Cconj (z + w)%C = (Cconj z + Cconj w)%C.
Proof. apply complex_eq; cbn; ring. Qed.

Lemma Cconj_mul (z w : complex) : Cconj (z * w)%C = (Cconj z * Cconj w)%C.
Proof. apply complex_eq; cbn; ring. Qed.

Lemma Cconj_div (z w : complex) : Cconj (z / w)%C = (Cconj z / Cconj w)%C.
Proof.
  apply complex_eq; cbn [real imag Cdiv Cconj];
    replace (real w * real w + - imag w * - imag w)
      with (real w * real w + imag w * imag w) by ring;
    unfold Rdiv; ring.
Qed.

Lemma Cconj_Ci_mul (t : R) : Cconj (Ci * t)%C = (Ci * (- t)%R)%C.
Proof. apply complex_eq; cbn; ring. Qed.

Lemma Cconj_shunt (z y : complex) : Cconj (shunt z y) = shunt (Cconj z) (Cconj y).
Proof.
  unfold shunt. rewrite !Cconj_div, Cconj_add, Cconj_div, !Cconj_RtoC.
  reflexivity.
Qed.

(** The regular branch of the line primitive, on conjugates. *)
Lemma Cconj_line (z : complex) (zc t : R) :
  Cconj (zc * (z + zc * (Ci * t)) / (zc + z * (Ci * t)))%C =
  (zc * (Cconj z + zc * (Ci * (- t)%R)) / (zc + Cconj z * (Ci * (- t)%R)))%C.
Proof.
  rewrite Cconj_div.
  f_equal; apply complex_eq; cbn; ring.
Qed.

Lemma Cconj_line_formula (zc : R) (z : complex) (t : R) :
  Cconj (line_formula zc z t) = line_formula zc (Cconj z) (- t).
Proof.
  unfold line_formula. rewrite Cconj_div.
  f_equal; apply complex_eq; cbn; ring.
Qed.

(** The tangent of a sum, without division. *)
Lemma tan_sum_relation (a b : R) :
  cos a <> 0 -> cos b <> 0 ->
  (tan a + tan b) * cos (a + b) = sin (a + b) * (1 - tan a * tan b).
Proof.
  intros Ha Hb. rewrite sin_plus, cos_plus. unfold tan. field. split; assumption.
Qed.

(** ** Stage 1 is a conjugate match

    A line of impedance [z] whose full length has the tangent
    [z (R2 - R1) / (R2 X1 - R1 X2)], with [z] the square root of the
    radicand, takes [R1 + j X1] over its first part to the conjugate of
    what it takes [R2 + j X2] to over the rest. *)
Lemma conjugate_line_algebra (z R1 X1 R2 X2 t1 t2 S C : R) :
  z <> 0 -> 0 < R1 -> 0 < R2 -> R2 - R1 <> 0 -> C <> 0 ->
  z * z * (R2 - R1) =
    (R1 * R2 + X1 * X2) * (R2 - R1) + (X1 + X2) * (R1 * X2 - R2 * X1) ->
  S * (R2 * X1 - R1 * X2) = C * (z * (R2 - R1)) ->
  (t1 + t2) * C = S * (1 - t1 * t2) ->
  line_formula z (mkC R2 X2) t2 = Cconj (line_formula z (mkC R1 X1) t1).
Proof.
  intros Hz H1 H2 Hd HC F1 F2 F3.
  assert (Hre : z * (1 - t1 * t2) * (R2 - R1) + (t1 + t2) * (X2 * R1 - R2 * X1) = 0).
  { apply (Rmult_eq_reg_l C); [|exact HC]. rewrite Rmult_0_r.
    replace (C * (z * (1 - t1 * t2) * (R2 - R1) + (t1 + t2) * (X2 * R1 - R2 * X1)))
      with ((1 - t1 * t2) * (C * (z * (R2 - R1)) - S * (R2 * X1 - R1 * X2)) +
            (X2 * R1 - R2 * X1) * ((t1 + t2) * C - S * (1 - t1 * t2))) by ring.
    rewrite F2, F3. ring. }
  assert (Him : z * (1 - t1 * t2) * (X1 + X2) +
                (t1 + t2) * (z * z - R1 * R2 - X1 * X2) = 0).
  { apply (Rmult_eq_reg_l (C * (R2 - R1)));
      [|apply Rmult_integral_contrapositive_currified; assumption].
    rewrite Rmult_0_r.
    replace (C * (R2 - R1) * (z * (1 - t1 * t2) * (X1 + X2) +
                              (t1 + t2) * (z * z - R1 * R2 - X1 * X2)))
      with ((1 - t1 * t2) * (X1 + X2) *
              (C * (z * (R2 - R1)) - S * (R2 * X1 - R1 * X2)) +
            (t1 + t2) * C *
              (z * z * (R2 - R1) - ((R1 * R2 + X1 * X2) * (R2 - R1) +
                                    (X1 + X2) * (R1 * X2 - R2 * X1))) +
            (X1 + X2) * (R1 * X2 - R2 * X1) *
              ((t1 + t2) * C - S * (1 - t1 * t2))) by ring.
    rewrite F1, F2, F3. ring. }
  rewrite Cconj_line_formula. unfold line_formula, Cconj. cbn [real imag].
  replace (z * (mkC R2 X2 + Ci * z * t2))%C
    with (mkC (z * R2) (z * (X2 + z * t2))) by (apply complex_eq; cbn; ring).
  replace (z + Ci * mkC R2 X2 * t2)%C
    with (mkC (z - X2 * t2) (R2 * t2)) by (apply complex_eq; cbn; ring).
  replace (z * (mkC R1 (- X1) + Ci * z * (- t1)%R))%C
    with (mkC (z * R1) (- (z * (X1 + z * t1)))) by (apply complex_eq; cbn; ring).
  replace (z + Ci * mkC R1 (- X1) * (- t1)%R)%C
    with (mkC (z - X1 * t1) (- (R1 * t1))) by (apply complex_eq; cbn; ring).
  apply Cdiv_cross.
  - destruct (Req_dec t2 0) as [->|Ht].
    + apply sumsq_nonzero_l. intros H; apply Hz; lra.
    + apply sumsq_nonzero_r. apply Rmult_integral_contrapositive_currified; lra.
  - destruct (Req_dec t1 0) as [->|Ht].
    + apply sumsq_nonzero_l. intros H; apply Hz; lra.
    + apply sumsq_nonzero_r. apply Ropp_neq_0_compat.
      apply Rmult_integral_contrapositive_currified; lra.
  - apply Rminus_diag_uniq.
    match goal with |- ?e = 0 =>
      replace e with
        (z * (z * (1 - t1 * t2) * (R2 - R1) + (t1 + t2) * (X2 * R1 - R2 * X1)))
        by ring
    end.
    rewrite Hre. ring.
  - apply Rminus_diag_uniq.
    match goal with |- ?e = 0 =>
      replace e with
        (z * (z * (1 - t1 * t2) * (X1 + X2) +
              (t1 + t2) * (z * z - R1 * R2 - X1 * X2)))
        by ring
    end.
    rewrite Him. ring.
Qed.

Lemma sin_atan_cos (q : R) : sin (atan q) = q * cos (atan q).
Proof.
  assert (Hc : 0 < cos (atan q)).
  { apply cos_gt_0; pose proof (atan_bound q); lra. }
  pose proof (tan_atan q) as Hq. unfold tan in Hq.
  rewrite <- Hq at 2. field. lra.
Qed.

(** The angle of stage 1, outside its clamp and on the two branches of the
    search: [tan theta1] is the ratio the code takes the arctangent of. *)
Lemma theta1_relation (d : Design) (k : Z) :
  let den := real (Z_L2 d) * imag (Z_L1 d) - real (Z_L1 d) * imag (Z_L2 d) in
  let th := theta1_rad d + IZR k * PI in
  1e-9 <= Rabs den -> (k = 0 \/ k = 1)%Z ->
  cos th <> 0 /\
  sin th * den =
  cos th * (sqrt (inside_sqrt d) * (real (Z_L2 d) - real (Z_L1 d))).
Proof.
  intros den th Hden Hk. unfold th, theta1_rad, theta1_raw. cbv zeta.
  fold den.
  replace (Rabs den <? 1e-9) with false by (symmetry; decide_test; exact Hden).
  assert (Hd : den <> 0) by (apply Rabs_lower_nonzero; exact Hden).
  set (q := sqrt (inside_sqrt d) * (real (Z_L2 d) - real (Z_L1 d)) / den).
  assert (Hc : 0 < cos (atan q)).
  { apply cos_gt_0; pose proof (atan_bound q); lra. }
  assert (Hrel : sin (atan q) * den =
                 cos (atan q) *
                 (sqrt (inside_sqrt d) * (real (Z_L2 d) - real (Z_L1 d)))).
  { rewrite sin_atan_cos. unfold q. field. exact Hd. }
  destruct Hk as [-> | ->]; destruct (atan q <? 0);
    rewrite ?Rmult_0_l, ?Rplus_0_r, ?Rmult_1_l, ?neg_sin, ?neg_cos;
    rewrite ?neg_sin, ?neg_cos; split; lra.
Qed.

Lemma line_formula_zero_line (zl : complex) (T : R) :
  real (line_formula 0 zl T) = 0.
Proof. unfold line_formula. cbn. unfold Rdiv. ring. Qed.

(** Stage 1 on the load at [f2]: the line ends on the conjugate of
    [Z_in1]. *)
Lemma conjugate_match_at_f2 (d : Design) (k : Z) :
  let th := theta1_rad d + IZR k * PI in
  p1 d + p2 d = 1 ->
  1e-6 <= Rabs (real (Z_L2 d) - real (Z_L1 d)) ->
  0 <= inside_sqrt d ->
  1e-9 <= Rabs (real (Z_L2 d) * imag (Z_L1 d) - real (Z_L1 d) * imag (Z_L2 d)) ->
  (k = 0 \/ k = 1)%Z ->
  0 < real (conj_Z_in1 k d) ->
  cos (th * p1 d) <> 0 -> cos (th * p2 d) <> 0 ->
  line_formula (sqrt (inside_sqrt d)) (Z_L2 d) (tan (th * p2 d)) =
  Cconj (conj_Z_in1 k d).
Proof.
  intros th Hp Hr Hin Hden Hk Hpos Hc1 Hc2.
  destruct (theta1_relation d k Hden Hk) as [HC F2]. fold th in HC, F2.
  set (z := sqrt (inside_sqrt d)) in *.
  assert (Hz : z <> 0).
  { intros Hz. change (conj_Z_in1 k d)
      with (line_formula z (Z_L1 d) (tan (th * p1 d))) in Hpos.
    rewrite Hz, line_formula_zero_line in Hpos. lra. }
  assert (Hzz : z * z = inside_sqrt d) by (apply sqrt_sqrt; exact Hin).
  assert (Hin' : 0 < inside_sqrt d).
  { destruct Hin as [|Hin]; [assumption|].
    exfalso. apply Hz. unfold z. rewrite <- Hin. apply sqrt_0. }
  assert (H1 : 0 < real (Z_L1 d)).
  { apply (line_formula_real_pos_inv z (Z_L1 d) (tan (th * p1 d)) Hz Hpos). }
  pose proof (inside_sqrt_same_sign d Hr Hin') as Hsame.
  assert (H2 : 0 < real (Z_L2 d)) by nra.
  assert (Hd : real (Z_L2 d) - real (Z_L1 d) <> 0).
  { intros H0. rewrite H0, Rabs_R0 in Hr. lra. }
  change (conj_Z_in1 k d) with (line_formula z (Z_L1 d) (tan (th * p1 d))).
  assert (F3 : (tan (th * p1 d) + tan (th * p2 d)) * cos th =
               sin th * (1 - tan (th * p1 d) * tan (th * p2 d))).
  { replace th with (th * p1 d + th * p2 d) at 3 4
      by (rewrite <- Rmult_plus_distr_l, Hp; ring).
    apply tan_sum_relation; assumption. }
  destruct (Z_L1 d) as [R1 X1] eqn:E1. destruct (Z_L2 d) as [R2 X2] eqn:E2.
  cbn [real imag] in *.
  apply (conjugate_line_algebra z R1 X1 R2 X2 _ _ (sin th) (cos th));
    try assumption.
  rewrite Hzz. unfold inside_sqrt. rewrite E1, E2. cbn [real imag].
  field. exact Hd.
Qed.

(** ** The replay at f2 is the conjugate of the replay at f1 *)

Lemma cos_PI_minus (x : R) : cos (PI - x) = - cos x.
Proof. rewrite cos_minus, cos_PI, sin_PI. ring. Qed.

Lemma sin_PI_minus (x : R) : sin (PI - x) = sin x.
Proof. rewrite sin_minus, cos_PI, sin_PI. ring. Qed.

Lemma tan_PI_minus (x : R) : cos x <> 0 -> tan (PI - x) = - tan x.
Proof.
  intros H. unfold tan. rewrite sin_PI_minus, cos_PI_minus. field. exact H.
Qed.

Lemma stub_admittance_conj (y x : R) (is_open : bool) :
  1e-9 <= Rabs (cos x) -> 1e-9 <= Rabs (sin x) ->
  stub_admittance y (PI - x) is_open = Cconj (stub_admittance y x is_open).
Proof.
  intros Hc Hs.
  assert (Hc0 : cos x <> 0) by (apply Rabs_lower_nonzero; exact Hc).
  assert (Hs0 : sin x <> 0) by (apply Rabs_lower_nonzero; exact Hs).
  assert (HT : tan x <> 0).
  { unfold tan, Rdiv. apply Rmult_integral_contrapositive_currified;
      [assumption|apply Rinv_neq_0_compat; assumption]. }
  rewrite (stub_admittance_regular y x) by assumption.
  rewrite (stub_admittance_regular y (PI - x))
    by (rewrite ?cos_PI_minus, ?sin_PI_minus, ?Rabs_Ropp; assumption).
  rewrite tan_PI_minus by exact Hc0.
  destruct is_open; apply complex_eq; cbn; field; exact HT.
Qed.

Lemma after_aux_stub_conj (d : Design) (s : R) (z : complex) :
  1e-9 <= Rabs (cos (PI * s)) -> 1e-9 <= Rabs (sin (PI * s)) ->
  after_aux_stub d (1 - s) (Cconj z) = Cconj (after_aux_stub d s z).
Proof.
  intros Hc Hs. unfold after_aux_stub.
  destruct (aux_stub_type d) as [ty|]; [|reflexivity].
  destruct (aux_stub_Y2 d) as [y2|]; [|reflexivity].
  replace (PI * (1 - s)) with (PI - PI * s) by ring.
  rewrite stub_admittance_conj by assumption.
  symmetry. apply Cconj_shunt.
Qed.

Lemma shunt_real_zero (z y : complex) :
  real z = 0 -> real y = 0 -> real (shunt z y) = 0.
Proof.
  intros Hz Hy. unfold shunt. cbn. rewrite Hz, Hy. unfold Rdiv. ring.
Qed.

Lemma after_aux_stub_real_pos_inv (d : Design) (s : R) (z : complex) :
  0 < real (after_aux_stub d s z) -> 0 < real z.
Proof.
  unfold after_aux_stub.
  destruct (aux_stub_type d) as [ty|]; [|tauto].
  destruct (aux_stub_Y2 d) as [y2|]; [|tauto].
  intros H.
  destruct (Rlt_le_dec 0 (real z)) as [|[Hlt|Heq]]; [assumption| |]; exfalso.
  - pose proof (shunt_real_neg z _ Hlt (stub_admittance_real y2 (PI * s)
                                          (is_Open (Some ty)))). lra.
  - pose proof (shunt_real_zero z _ Heq (stub_admittance_real y2 (PI * s)
                                           (is_Open (Some ty)))). lra.
Qed.

(** X4. The synthesis is exact at [f2] as well.  Under the conditions of
    the match at [f1] (no stub fallback, matched impedance off the clamp and
    the zero divisors of stage 3, [f1]-scaled stub angle off the clamps),
    with the [f2]-scaled line angles off the clamp of the replay, the
    arctangent of stage 1 not clamped and the branch k in {0, 1}, the
    candidate reports a VSWR at [f2] of exactly 1: the replay at [f2] runs
    through the complex conjugates of the impedances of the replay at
    [f1]. *)
Theorem synthesis_exact_at_f2 fa fb ZL1 ZL2 z0 allow theta_aux k d c th1 zin zmat :
  design_at fa fb ZL1 ZL2 z0 allow theta_aux k = Ok d ->
  candidate_of fa fb d = Ok c ->
  0 < z0 -> (k = 0 \/ k = 1)%Z ->
  let p := fa / (fa + fb) in
  let q := fb / (fa + fb) in
  1e-9 <= Rabs (cos (PI * p)) -> 1e-9 <= Rabs (sin (PI * p)) ->
  aux_line_Z d = None \/ 1e-9 <= Rabs (cos (radians (IZR theta_aux) * q)) ->
  1e-9 <= Rabs (real (Z_L2 d) * imag (Z_L1 d) - real (Z_L1 d) * imag (Z_L2 d)) ->
  theta1 d = Some th1 -> cos (th1 * p) <> 0 -> 1e-9 <= Rabs (cos (th1 * q)) ->
  Z_in1 d = Some zin ->
  aux_stub_type d = None \/ 0 < aux_Y2_open p zin \/ 0 < aux_Y2_short p zin ->
  Z_in_matched d = Some zmat ->
  real zmat <> z0 -> 0 < term_sqrt zmat z0 ->
  imag zmat = 0 \/ 1e-9 <= Rabs (imag zmat * z0) ->
  0 < pi_Y_open p (sqrt (term_sqrt zmat z0)) (theta_T1_rad zmat z0) \/
  0 < pi_Y_short p (sqrt (term_sqrt zmat z0)) (theta_T1_rad zmat z0) ->
  VSWR_f2 c = Some 1.
Proof.
  intros Hd Hcd H0 Hk p q Hc Hs Haux Hden Hth1 Hc1 Hc2 Hzin Hnf Hzm Hne Ht HX Hy.
  destruct (candidate_of_design _ _ _ _ _ _ _ _ _ _ Hd Hcd)
    as [z1 [th1' [yn [zm [A [B [C [D [_ [_ [_ [_ [_ [_ [_ [V2 _]]]]]]]]]]]]]]]].
  rewrite V2. f_equal.
  rewrite <- (vswr_of_matched z0) by lra. f_equal.
  fold q.
  apply design_at_form in Hd.
  destruct Hd as [d0 [zmat' [r [sty [sy2 [Hi H]]]]]]. cbv zeta in H.
  destruct H as [C1 [C2 [Hchk [_ [_ Heq]]]]].
  set (dp := prepared theta_aux d0) in *.
  destruct (prepared_fields _ _ _ _ _ theta_aux _ Hi)
    as [Hf [_ [_ [_ [F4 [F5 [F6 [F7 [F8 [_ Hl]]]]]]]]]].
  fold dp in F4, F5, F6, F7, F8, Hl. fold p in F6. fold q in F7.
  assert (Hpq : q = 1 - p) by (unfold p, q; field; exact Hf).
  rewrite Heq in A, B, C, D, Hth1, Hzin, Hzm, Hnf, Haux, Hden.
  cbn in A, B, C, D, Hth1, Hzin, Hzm, Hnf, Haux, Hden.
  injection A as <-. injection B as <-. injection C as <-. injection D as <-.
  injection Hth1 as <-. injection Hzin as <-. injection Hzm as <-.
  fold p.
  (* the matched impedance is the f1 replay of the auxiliary stub *)
  match type of Hchk with check_region_and_adjust _ ?d1 = Ok ?d2 =>
    pose proof (check_region_replayed allow d1 d2 (conj_Z_in1 k dp)
                  eq_refl F8 Hchk) as Ec
  end.
  cbn [p1 set_conjugate_line] in Ec. rewrite F6 in Ec.
  specialize (Ec Hc Hs Hnf). cbn [Z_in_matched set_region] in Ec.
  injection Ec as Ec.
  assert (Ed : after_aux_stub d p (conj_Z_in1 k dp) = zmat').
  { match type of Ec with _ = ?rhs => transitivity rhs end;
      [unfold after_aux_stub; rewrite Heq; reflexivity|symmetry; exact Ec]. }
  pose proof (term_sqrt_pos_real zmat' z0 H0 Ht) as HRm.
  assert (Hzpos : 0 < real (conj_Z_in1 k dp)).
  { apply (after_aux_stub_real_pos_inv d p). rewrite Ed. exact HRm. }
  (* the auxiliary line at f2 *)
  assert (Ea : after_aux_line d q ZL2 = Z_L2 dp).
  { unfold after_aux_line. rewrite Heq.
    cbn [aux_line_Z aux_line_theta set_pi_network set_matching_line set_region
         set_conjugate_line].
    destruct Hl as [[-> [_ [_ ->]]]|[Hz [Hth Hap]]]; [reflexivity|].
    rewrite Hz, Hth.
    replace (truthy (Some 50)) with true
      by (cbn; symmetry; replace (50 =? 0) with false;
          [reflexivity|symmetry; decide_test; lra]).
    destruct Haux as [Hn|Hca]; [rewrite Hz in Hn; discriminate|].
    rewrite tline_input_z_line_formula by exact Hca.
    destruct (init_inv _ _ _ _ _ _ Hi) as [_ Hd0].
    rewrite Hap, Hd0. reflexivity. }
  (* the conjugate line at f2 *)
  assert (Eb : tline_input_z (Z_L2 dp) (sqrt (inside_sqrt dp))
                 ((theta1_rad dp + IZR k * PI) * q) =
               Cconj (conj_Z_in1 k dp)).
  { rewrite tline_input_z_line_formula by exact Hc2.
    rewrite <- F7.
    apply conjugate_match_at_f2; try assumption.
    - rewrite F6, F7. unfold p, q. field. exact Hf.
    - rewrite F6. exact Hc1.
    - rewrite F7. apply Rabs_lower_nonzero. exact Hc2. }
  (* the auxiliary stub at f2 *)
  assert (Ec2 : after_aux_stub d q (Cconj (conj_Z_in1 k dp)) = Cconj zmat').
  { rewrite Hpq, after_aux_stub_conj by assumption. rewrite Ed. reflexivity. }
  unfold replay. rewrite Ea, Eb, Ec2.
  rewrite Heq. cbn [stub_type set_pi_network].
  (* the pi-network at f2 *)
  pose proof (pi_network_exact zmat' z0 p H0 Hne Ht HX Hc Hs Hy) as Hpi.
  cbv zeta in Hpi.
  set (y := stub_admittance _ (PI * p) _) in Hpi.
  set (zmv := pi_Z_m p _ _) in *.
  rewrite tline_input_z_regular in Hpi by exact Hc.
  replace (PI * q) with (PI - PI * p) by (rewrite Hpq; ring).
  rewrite stub_admittance_conj by assumption. fold y.
  rewrite tline_input_z_regular
    by (rewrite cos_PI_minus, Rabs_Ropp; exact Hc).
  rewrite tan_PI_minus by (apply Rabs_lower_nonzero; exact Hc).
  rewrite <- Cconj_shunt, <- Cconj_line, <- Cconj_shunt.
  etransitivity; [apply f_equal; exact Hpi|apply Cconj_RtoC].
Qed.

Lemma cos_3_atan_2 : cos (3 * atan 2) = - 11 / 5 * cos (atan 2).
Proof.
  destruct sin_cos_atan_2 as [Hs Hc].
  set (a := atan 2) in *.
  assert (S2 : sin (2 * a) = 4 / 5) by (rewrite sin_2a, Hs; lra).
  assert (C2 : cos (2 * a) = - 3 / 5) by (rewrite cos_2a, Hs; lra).
  replace (3 * a) with (2 * a + a) by ring.
  rewrite cos_plus, S2, C2, Hs. lra.
Qed.

Lemma synthesis_exact_at_f2_witness :
  exists l c,
    find_all_designs 1e9 3e9 exD_ZL1 exD_ZL2 50 true false = Ok l /\ In c l /\
    VSWR_f2 c = Some 1.
Proof.
  destruct (emitted_candidate 1e9 3e9 exD_ZL1 exD_ZL2 50 true 0 1
              exD_design) as [l [c [Hl [Hc Hcd]]]].
  - right; left; reflexivity.
  - apply exD_design_at.
  - exists l, c. split; [exact Hl|]. split; [exact Hc|].
    pose proof sin_PI4_bounds as Hs. pose proof cos_atan_2_bounds as Hc2.
    apply (synthesis_exact_at_f2 1e9 3e9 exD_ZL1 exD_ZL2 50 true 0%Z 1%Z
             exD_design c (4 * atan 2) (mkC 78 0) (mkC 78 0)
             (exD_design_at true) Hcd).
    + lra.
    + right. reflexivity.
    + replace (PI * (1e9 / (1e9 + 3e9))) with (PI / 4) by field.
      rewrite cos_PI4_eq_sin, Rabs_right; lra.
    + replace (PI * (1e9 / (1e9 + 3e9))) with (PI / 4) by field.
      rewrite Rabs_right; lra.
    + left. reflexivity.
    + cbn. rewrite Rabs_right; lra.
    + reflexivity.
    + replace (4 * atan 2 * (1e9 / (1e9 + 3e9))) with (atan 2) by field. lra.
    + replace (4 * atan 2 * (3e9 / (1e9 + 3e9))) with (3 * atan 2) by field.
      rewrite cos_3_atan_2, Rabs_left; lra.
    + reflexivity.
    + left. reflexivity.
    + reflexivity.
    + cbn. lra.
    + rewrite exD_term_sqrt. lra.
    + left. reflexivity.
    + left. rewrite exD_theta_T1. exact exD_pi_Y_open.
Defined.

(** ** Stage 1 on concrete loads *)

Lemma theta1_branch_offset_witness :
  let d := quarter_design exA_ZL1 exA_ZL2 50 in
  let d0 := set_conjugate_line d (sqrt (inside_sqrt d))
              (theta1_rad d + 0 * PI) (conj_Z_in1 0 d) in
  exists d1 t0,
    calculate_conjugate_transform 1 d = Ok d1 /\
    theta1 d0 = Some t0 /\
    theta1 d1 = Some (t0 + PI) /\
    t0 = (if theta1_raw d <? 0 then theta1_raw d + PI else theta1_raw d) /\
    forall k dk, calculate_conjugate_transform k d = Ok dk ->
                 theta1 dk = Some (t0 + IZR k * PI).
Proof.
  cbv zeta. apply theta1_branch_offset.
  apply calculate_conjugate_transform_ok.
  - cbn. rewrite Rabs_right; lra.
  - unfold inside_sqrt. cbn. lra.
Defined.

(** Equal loads at the two frequencies: both branches of the grid point
    without auxiliary line are skipped. *)
Lemma conjugate_stage_failure_witness :
  run_point 1e9 3e9 (mkC 25 10) (mkC 25 10) 50 true (0%Z, 0%Z) = Unsolved /\
  run_point 1e9 3e9 (mkC 25 10) (mkC 25 10) 50 true (0%Z, 1%Z) = Unsolved /\
  find_all_designs 1e9 3e9 (mkC 25 10) (mkC 25 10) 50 true false = Ok [].
Proof.
  assert (H : forall k,
    run_point 1e9 3e9 (mkC 25 10) (mkC 25 10) 50 true (0%Z, k) = Unsolved /\
    forall rest acc,
      search_loop (run_point 1e9 3e9 (mkC 25 10) (mkC 25 10) 50 true)
        ((0%Z, k) :: rest) acc =
      search_loop (run_point 1e9 3e9 (mkC 25 10) (mkC 25 10) 50 true) rest acc).
  { intros k.
    destruct (conjugate_stage_failure k (quarter_design (mkC 25 10) (mkC 25 10) 50))
      as [Hiff [_ Hskip]].
    assert (Hu : calculate_conjugate_transform k
                   (quarter_design (mkC 25 10) (mkC 25 10) 50) = Unsolved).
    { apply Hiff. left. cbn. rewrite Rabs_right; lra. }
    split.
    - exact (proj1 (Hskip 1e9 3e9 (mkC 25 10) (mkC 25 10) 50 true 0%Z
                      (quarter_design (mkC 25 10) (mkC 25 10) 50) [] []
                      (quarter_init _ _ _) eq_refl Hu)).
    - intros rest acc.
      exact (proj2 (Hskip 1e9 3e9 (mkC 25 10) (mkC 25 10) 50 true 0%Z
                      (quarter_design (mkC 25 10) (mkC 25 10) 50) rest acc
                      (quarter_init _ _ _) eq_refl Hu)). }
  split; [exact (proj1 (H 0%Z))|]. split; [exact (proj1 (H 1%Z))|].
  unfold find_all_designs.
  change (grid false) with [(0%Z, 0%Z); (0%Z, 1%Z)].
  rewrite (proj2 (H 0%Z)), (proj2 (H 1%Z)). reflexivity.
Defined.

(** ** The loop as a list comprehension *)

Lemma search_loop_collect body pts acc l :
  search_loop body pts acc = Ok l ->
  l = acc ++ flat_map (emitted body) pts.
Proof.
  revert acc. induction pts as [|pt pts IH]; intros acc H; cbn [search_loop] in H.
  - injection H as <-. cbn. rewrite app_nil_r. reflexivity.
  - cbn [flat_map]. unfold emitted at 1.
    destruct (body pt) as [c| |]; [| |discriminate].
    + rewrite (IH _ H), <- app_assoc. reflexivity.
    + exact (IH _ H).
Qed.

Lemma search_loop_prefix body pts1 pts2 acc l :
  search_loop body (pts1 ++ pts2) acc = Ok l ->
  exists l1, search_loop body pts1 acc = Ok l1 /\
             l = l1 ++ flat_map (emitted body) pts2.
Proof.
  rewrite search_loop_app. intros H. inv_bind H.
  exists a. split; [exact H_l|]. exact (search_loop_collect _ _ _ _ H_r).
Qed.

Lemma grid_scan_split :
  grid true = grid false ++
    flat_map (fun theta_aux => map (fun k => (theta_aux, k)) k_range)
             (map (fun i => (5 * Z.of_nat i)%Z) (seq 1 35)).
Proof. reflexivity. Qed.

Lemma grid_angle (scan : bool) (theta_aux k : Z) :
  In (theta_aux, k) (grid scan) ->
  (0 <= theta_aux < 180)%Z /\ (k = 0 \/ k = 1)%Z.
Proof.
  unfold grid. intros H. apply in_flat_map in H. destruct H as [t [Ht Hk]].
  apply in_map_iff in Hk. destruct Hk as [k' [E Hk]]. injection E as -> ->.
  split; [|cbn in Hk; intuition].
  destruct scan; cbn [theta_aux_range] in Ht.
  - unfold range in Ht. apply in_map_iff in Ht. destruct Ht as [i [<- Hi]].
    apply in_seq in Hi. cbn in Hi. lia.
  - destruct Ht as [<-|[]]. lia.
Qed.

(** ** What a candidate reports of its grid point *)

Lemma radians_nonzero (x : R) : 0 < x -> radians x <> 0.
Proof.
  intros H. unfold radians. pose proof PI_RGT_0.
  assert (0 < x * PI / 180); [|lra].
  apply Rmult_lt_0_compat; [|lra]. apply Rmult_lt_0_compat; lra.
Qed.

Lemma degrees_radians (x : R) : degrees (radians x) = x.
Proof. unfold degrees, radians. pose proof PI_RGT_0. field. lra. Qed.

Lemma candidate_grid_point fa fb ZL1 ZL2 z0 allow theta_aux k d c :
  design_at fa fb ZL1 ZL2 z0 allow theta_aux k = Ok d ->
  candidate_of fa fb d = Ok c ->
  f_design c = fa + fb /\
  ((theta_aux <= 0)%Z /\ Z_aux c = 0 /\ theta_aux_deg c = 0 \/
   (0 < theta_aux)%Z /\ Z_aux c = 50 /\ theta_aux_deg c = IZR theta_aux).
Proof.
  intros Hd Hc.
  apply design_at_form in Hd.
  destruct Hd as [d0 [zm [r [sty [sy2 [H0 H]]]]]]. cbv zeta in H.
  destruct H as [_ [_ [_ [_ [_ Heq]]]]].
  destruct (init_inv _ _ _ _ _ _ H0) as [Hf Hd0].
  unfold candidate_of in Hc.
  inv_bind Hc. inv_bind Hc_r. inv_bind Hc_r_r. inv_bind Hc_r_r_r.
  injection Hc_r_r_r_r as <-.
  cbn [f_design Z_aux theta_aux_deg with_vswr].
  unfold get_design_parameters in Hc_l.
  inv_bind Hc_l. inv_bind Hc_l_r. inv_bind Hc_l_r_r.
  injection Hc_l_r_r_r as <-. cbn [f_design Z_aux theta_aux_deg].
  rewrite Heq in Hc_l_r_l |- *.
  cbn [set_pi_network set_matching_line set_region set_conjugate_line
       f1 f2 aux_line_Z aux_line_theta] in Hc_l_r_l |- *.
  unfold prepared in Hc_l_r_l |- *. rewrite Hd0 in Hc_l_r_l |- *.
  destruct (theta_aux >? 0)%Z eqn:Et.
  - apply Z.gtb_lt in Et.
    cbn [with_aux_line f1 f2 aux_line_Z aux_line_theta truthy] in Hc_l_r_l |- *.
    assert (Hr : radians (IZR theta_aux) <> 0)
      by (apply radians_nonzero, IZR_lt; exact Et).
    replace (radians (IZR theta_aux) =? 0) with false in Hc_l_r_l
      by (symmetry; decide_test; exact Hr).
    replace (50 =? 0) with false by (symmetry; decide_test; lra).
    cbn [negb need bind] in Hc_l_r_l |- *. injection Hc_l_r_l as <-.
    split; [reflexivity|]. right. rewrite degrees_radians. auto.
  - assert (theta_aux <= 0)%Z by (rewrite Z.gtb_ltb in Et; apply Z.ltb_ge in Et; exact Et).
    cbn [f1 f2 aux_line_Z aux_line_theta truthy] in Hc_l_r_l |- *.
    injection Hc_l_r_l as <-. split; [reflexivity|]. left. auto.
Qed.

Lemma run_point_grid_point fa fb ZL1 ZL2 z0 allow theta_aux k c :
  run_point fa fb ZL1 ZL2 z0 allow (theta_aux, k) = Ok c ->
  exists d, design_at fa fb ZL1 ZL2 z0 allow theta_aux k = Ok d /\
            candidate_of fa fb d = Ok c.
Proof.
  unfold run_point. cbn [fst snd]. intros H. inv_bind H. eauto.
Qed.

Lemma run_point_angle fa fb ZL1 ZL2 z0 allow theta_aux k c :
  (0 <= theta_aux)%Z ->
  run_point fa fb ZL1 ZL2 z0 allow (theta_aux, k) = Ok c ->
  theta_aux_deg c = IZR theta_aux /\
  Z_aux c = (if (theta_aux >? 0)%Z then 50 else 0) /\
  f_design c = fa + fb.
Proof.
  intros H0 H. destruct (run_point_grid_point _ _ _ _ _ _ _ _ _ H) as [d [Hd Hc]].
  destruct (candidate_grid_point _ _ _ _ _ _ _ _ _ _ Hd Hc)
    as [Hf [[Hle [Hz Ht]]|[Hlt [Hz Ht]]]].
  - assert (theta_aux = 0)%Z as -> by lia. cbn. auto.
  - replace (theta_aux >? 0)%Z with true by (symmetry; apply Z.gtb_lt; lia). auto.
Qed.

(** The candidates a list of grid points sorted by angle gives are sorted
    by the angle they report. *)
Lemma emitted_sorted fa fb ZL1 ZL2 z0 allow (pts : list (Z * Z)) :
  Forall (fun pt => (0 <= fst pt)%Z) pts ->
  StronglySorted (fun p q => (fst p <= fst q)%Z) pts ->
  StronglySorted (fun c c' => theta_aux_deg c <= theta_aux_deg c')
    (flat_map (emitted (run_point fa fb ZL1 ZL2 z0 allow)) pts).
Proof.
  intros Hpos Hs. induction Hs as [|[theta_aux k] pts Hs IH Hall]; cbn [flat_map].
  - constructor.
  - inversion Hpos as [|? ? Hp Hpos']; subst. cbn [fst] in Hp.
    specialize (IH Hpos').
    unfold emitted at 1.
    destruct (run_point fa fb ZL1 ZL2 z0 allow (theta_aux, k)) as [c| |] eqn:E;
      cbn [app]; try exact IH.
    constructor; [exact IH|].
    destruct (run_point_angle _ _ _ _ _ _ _ _ _ Hp E) as [Ht _].
    apply Forall_forall. intros c' Hc'. apply in_flat_map in Hc'.
    destruct Hc' as [[t' k'] [Hin Hem]]. unfold emitted in Hem.
    destruct (run_point fa fb ZL1 ZL2 z0 allow (t', k')) as [c''| |] eqn:E';
      [|destruct Hem|destruct Hem]. destruct Hem as [<-|[]].
    rewrite Forall_forall in Hall, Hpos'.
    pose proof (Hall _ Hin) as Hle. pose proof (Hpos' _ Hin) as Hp'.
    cbn [fst] in Hle, Hp'.
    destruct (run_point_angle _ _ _ _ _ _ _ _ _ Hp' E') as [Ht' _].
    rewrite Ht, Ht'. apply IZR_le. exact Hle.
Qed.

Lemma grid_sorted (scan : bool) :
  StronglySorted (fun p q => (fst p <= fst q)%Z) (grid scan).
Proof.
  destruct scan; cbn;
    repeat (apply SSorted_cons;
            [|repeat (apply Forall_cons; [cbn; lia|]); apply Forall_nil]);
    apply SSorted_nil.
Qed.

Lemma grid_nonneg (scan : bool) : Forall (fun pt => (0 <= fst pt)%Z) (grid scan).
Proof.
  apply Forall_forall. intros [t k] H. apply grid_angle in H. cbn. lia.
Qed.

(** X5. A search that returns lists its candidates in the order of the
    grid: the list is the grid with every point replaced by the candidate
    it yields, or by nothing, and the auxiliary-line angles the candidates
    report never decrease along it. *)
Theorem candidates_in_grid_order fa fb ZL1 ZL2 z0 allow scan l :
  find_all_designs fa fb ZL1 ZL2 z0 allow scan = Ok l ->
  l = flat_map (fun pt => match run_point fa fb ZL1 ZL2 z0 allow pt with
                          | Ok c => [c]
                          | _ => []
                          end) (grid scan) /\
  StronglySorted (fun c c' => theta_aux_deg c <= theta_aux_deg c') l.
Proof.
  unfold find_all_designs. intros H.
  apply search_loop_collect in H. cbn [app] in H. subst l.
  split; [reflexivity|].
  apply emitted_sorted; [apply grid_nonneg|apply grid_sorted].
Qed.

Lemma candidates_in_grid_order_witness :
  exists l,
    find_all_designs 1e9 3e9 (mkC 25 10) (mkC 25 10) 50 true true = Ok l /\
    l = flat_map (fun pt => match run_point 1e9 3e9 (mkC 25 10) (mkC 25 10) 50
                                      true pt with
                            | Ok c => [c]
                            | _ => []
                            end) (grid true) /\
    StronglySorted (fun c c' => theta_aux_deg c <= theta_aux_deg c') l.
Proof.
  destruct (find_all_designs_spec 1e9 3e9 (mkC 25 10) (mkC 25 10) 50 true true)
    as [l [Hl _]]; [lra|right; cbn; split; lra|].
  exists l. split; [exact Hl|].
  exact (candidates_in_grid_order _ _ _ _ _ _ _ _ Hl).
Defined.

Lemma emitted_in body pts c :
  In c (flat_map (emitted body) pts) ->
  exists pt, In pt pts /\ body pt = Ok c.
Proof.
  intros H. apply in_flat_map in H. destruct H as [pt [Hin Hem]].
  exists pt. split; [exact Hin|]. unfold emitted in Hem.
  destruct (body pt); [|destruct Hem|destruct Hem].
  destruct Hem as [<-|[]]. reflexivity.
Qed.

(** X6. Scanning the auxiliary line only adds candidates: the list of the
    search without the scan is the front of the list of the search with it;
    the candidates of the front report no auxiliary line ([Z_aux = 0],
    angle 0), the others a 50 ohm line of 5 to 175 degrees. *)
Theorem scan_extends_plain_search fa fb ZL1 ZL2 z0 allow l :
  find_all_designs fa fb ZL1 ZL2 z0 allow true = Ok l ->
  exists l0 l1,
    find_all_designs fa fb ZL1 ZL2 z0 allow false = Ok l0 /\
    l = l0 ++ l1 /\
    (forall c, In c l0 -> Z_aux c = 0 /\ theta_aux_deg c = 0) /\
    (forall c, In c l1 -> Z_aux c = 50 /\ 5 <= theta_aux_deg c <= 175).
Proof.
  unfold find_all_designs at 1. rewrite grid_scan_split. intros H.
  apply search_loop_prefix in H. destruct H as [l0 [H0 Hl]].
  eexists l0, _. split; [exact H0|]. split; [exact Hl|]. split.
  - intros c Hc.
    apply (find_all_designs_inv _ _ _ _ _ _ _ _ H0) in Hc.
    destruct Hc as [[t k] [Hg Hr]].
    assert (t = 0)%Z as -> by (cbn in Hg; intuition congruence).
    destruct (run_point_angle _ _ _ _ _ _ _ _ _ (Z.le_refl 0) Hr) as [A [B _]].
    split; assumption.
  - intros c Hc. apply emitted_in in Hc. destruct Hc as [[t k] [Hg Hr]].
    assert (Ht : (5 <= t <= 175)%Z).
    { apply in_flat_map in Hg. destruct Hg as [t' [Ht' Hk]].
      apply in_map_iff in Hk. destruct Hk as [k' [E _]]. injection E as -> _.
      apply in_map_iff in Ht'. destruct Ht' as [i [<- Hi]].
      apply in_seq in Hi. lia. }
    assert (Ht0 : (0 <= t)%Z) by lia.
    destruct (run_point_angle _ _ _ _ _ _ _ _ _ Ht0 Hr) as [A [B _]].
    replace (t >? 0)%Z with true in B by (symmetry; apply Z.gtb_lt; lia).
    rewrite A. split; [exact B|]. split; apply IZR_le; lia.
Qed.

Lemma scan_extends_plain_search_witness :
  exists l,
    find_all_designs 1e9 3e9 (mkC 25 10) (mkC 25 10) 50 true true = Ok l /\
    exists l0 l1,
      find_all_designs 1e9 3e9 (mkC 25 10) (mkC 25 10) 50 true false = Ok l0 /\
      l = l0 ++ l1 /\
      (forall c, In c l0 -> Z_aux c = 0 /\ theta_aux_deg c = 0) /\
      (forall c, In c l1 -> Z_aux c = 50 /\ 5 <= theta_aux_deg c <= 175).
Proof.
  destruct (find_all_designs_spec 1e9 3e9 (mkC 25 10) (mkC 25 10) 50 true true)
    as [l [Hl _]]; [lra|right; cbn; split; lra|].
  exists l. split; [exact Hl|].
  exact (scan_extends_plain_search _ _ _ _ _ _ _ Hl).
Defined.

(** ** The impedances a candidate reports *)

Lemma check_region_stub_positive (allow : bool) (d1 d2 : Design) (zin : complex) :
  Z_in1 d1 = Some zin ->
  aux_stub_type d1 = None -> aux_stub_Y2 d1 = None ->
  check_region_and_adjust allow d1 = Ok d2 ->
  (aux_stub_type d2 = None /\ aux_stub_Y2 d2 = None) \/
  (allow = true /\ region d2 = Some region_a /\
   exists ty y, aux_stub_type d2 = Some ty /\ aux_stub_Y2 d2 = Some y /\ 0 < y).
Proof.
  intros Hz Ht Hy H.
  destruct (check_region_cases allow d1 zin Hz)
    as [[_ E]|[[_ [_ E]]|[[_ [_ [_ E]]]|[_ [_ [Ha E]]]]]]; rewrite E in H;
    try (injection H as <-; left; cbn; auto).
  right. split; [exact Ha|].
  match type of H with _add_auxiliary_stub ?d' = _ =>
    destruct (add_auxiliary_stub_cases d' zin Hz)
      as [[P E']|[[_ [P E']]|[_ [_ E']]]]; rewrite E' in H
  end; injection H as <-; (split; [reflexivity|]); do 2 eexists;
    (split; [reflexivity|]); (split; [reflexivity|]); try exact P. lra.
Qed.

Lemma candidate_no_aux_stub fa fb d c :
  candidate_of fa fb d = Ok c -> aux_stub_Y2 d = None -> aux_stub_Z c = 0.
Proof.
  intros H Hy. unfold candidate_of in H.
  inv_bind H. inv_bind H_r. inv_bind H_r_r. inv_bind H_r_r_r.
  injection H_r_r_r_r as <-. cbn [aux_stub_Z with_vswr].
  unfold get_design_parameters in H_l. rewrite Hy in H_l.
  inv_bind H_l. inv_bind H_l_r. inv_bind H_l_r_r.
  injection H_l_r_r_r as <-. cbn [aux_stub_Z].
  cbn in H_l_r_r_l. injection H_l_r_r_l as <-. reflexivity.
Qed.

Lemma sin_fraction_pos (fa fb : R) :
  0 < fa -> 0 < fb -> 0 < sin (fa / (fa + fb) * PI).
Proof.
  intros Ha Hb. pose proof PI_RGT_0 as HPI.
  assert (Hp : 0 < fa / (fa + fb) < 1).
  { split.
    - apply Rdiv_lt_0_compat; lra.
    - apply (Rmult_lt_reg_r (fa + fb)); [lra|].
      replace (fa / (fa + fb) * (fa + fb)) with fa by (field; lra). lra. }
  apply sin_gt_0; nra.
Qed.

Lemma pi_Z_m_nonneg (fa fb zt th : R) :
  0 < fa -> 0 < fb -> 0 <= zt -> 0 < th <= PI ->
  0 <= pi_Z_m (fa / (fa + fb)) zt th.
Proof.
  intros Ha Hb Hzt Hth. unfold pi_Z_m.
  pose proof (sin_fraction_pos fa fb Ha Hb) as Hs.
  assert (0 <= sin th) by (apply sin_ge_0; lra).
  apply Rmult_le_pos; [apply Rmult_le_pos; assumption|].
  left. apply Rinv_0_lt_compat. exact Hs.
Qed.

Lemma design_impedances fa fb ZL1 ZL2 z0 allow theta_aux k d c :
  design_at fa fb ZL1 ZL2 z0 allow theta_aux k = Ok d ->
  candidate_of fa fb d = Ok c ->
  exists z1 zs zn,
    Z1_param c = Some z1 /\ Z_series c = Some zs /\ Z_stub c = Some zn /\
    0 <= z1 /\ 0 < zn /\ (0 < fa -> 0 < fb -> 0 <= zs) /\
    ((aux_stub_type_tag c = None /\ aux_stub_Z c = 0) \/
     (allow = true /\ region_tag c = Some region_a /\
      (exists ty, aux_stub_type_tag c = Some ty) /\ 0 < aux_stub_Z c)).
Proof.
  intros Hd Hc.
  destruct (candidate_of_design _ _ _ _ _ _ _ _ _ _ Hd Hc)
    as [z1 [th1 [yn [zm [A [B [C [D [Hreg [E1 [_ [E2 [E3 [_ [E4 _]]]]]]]]]]]]]]].
  apply design_at_form in Hd.
  destruct Hd as [d0 [zmat [r [sty [sy2 [H0 H]]]]]]. cbv zeta in H.
  destruct H as [_ [_ [Hchk [_ [_ Heq]]]]].
  exists z1, zm, (1 / yn). rewrite E1, E2, E3.
  assert (Hzn : Z_n d = Some (1 / yn)).
  { rewrite Heq in C |- *. cbn in C |- *. injection C as <-. reflexivity. }
  split; [reflexivity|]. split; [reflexivity|]. split; [exact Hzn|].
  split; [|split; [|split]].
  - rewrite Heq in A. cbn in A. injection A as <-. apply sqrt_pos.
  - rewrite Heq in C. cbn in C. injection C as <-.
    pose proof (pi_Y_n_pos (fa / (fa + fb)) (sqrt (term_sqrt zmat z0))
                  (theta_T1_rad zmat z0)) as Hy.
    unfold Rdiv. rewrite Rmult_1_l. apply Rinv_0_lt_compat. exact Hy.
  - intros Ha Hb. rewrite Heq in D. cbn in D. injection D as <-.
    apply pi_Z_m_nonneg; try assumption; [apply sqrt_pos|].
    apply theta_T1_rad_range.
  - match type of Hchk with check_region_and_adjust _ ?d1 = Ok ?d2 =>
      assert (Hn1 : aux_stub_type d1 = None /\ aux_stub_Y2 d1 = None)
    end.
    { destruct (prepared_fields _ _ _ _ _ theta_aux _ H0)
        as [_ [_ [_ [_ [_ [_ [_ [_ [S1 [S2 _]]]]]]]]]]. split; assumption. }
    destruct Hn1 as [S1 S2].
    match type of Hchk with check_region_and_adjust _ ?d1 = Ok ?d2 =>
      destruct (check_region_stub_positive allow d1 d2 _ eq_refl S1 S2 Hchk)
        as [[T1 T2]|[Ha [Hr [ty [y [T1 [T2 Hy]]]]]]]
    end.
    + left. rewrite E4, Heq. cbn in T1, T2 |- *. split; [exact T1|].
      apply (candidate_no_aux_stub fa fb d c Hc). rewrite Heq. exact T2.
    + right. split; [exact Ha|]. rewrite Hreg, E4, Heq.
      cbn in Hr, T1, T2 |- *. split; [exact Hr|]. split; [eauto|].
      rewrite (candidate_aux_stub_Z fa fb d c y Hc); [|rewrite Heq; exact T2|lra].
      unfold Rdiv. rewrite Rmult_1_l. apply Rinv_0_lt_compat. exact Hy.
Qed.


(** X8. The impedances of a candidate away from the zero divisors, in
    exact arithmetic. For positive [Z0], [f1] and [f2], a candidate whose
    conjugate line and whose series line have non-zero impedances, and
    whose [Re Z_in_matched] is not [Z0], comes from loads of positive
    resistance and reports positive [Z1], [Z_series] and [Z_stub]; it
    either has no auxiliary stub, with [aux_stub_Z = 0], or has one of
    positive impedance, which happens only with the stub enabled and goes
    with region 'a'. *)
Theorem candidate_impedances fa fb ZL1 ZL2 z0 allow theta_aux k d c z1 zs zmat :
  design_at fa fb ZL1 ZL2 z0 allow theta_aux k = Ok d ->
  candidate_of fa fb d = Ok c ->
  0 < z0 -> 0 < fa -> 0 < fb ->
  Z1_param c = Some z1 -> z1 <> 0 ->
  Z_series c = Some zs -> zs <> 0 ->
  Z_in_matched d = Some zmat -> real zmat <> z0 ->
  0 < real ZL1 /\ 0 < real ZL2 /\
  0 < z1 /\ 0 < zs /\ (exists zn, Z_stub c = Some zn /\ 0 < zn) /\
  ((aux_stub_type_tag c = None /\ aux_stub_Z c = 0) \/
   (allow = true /\ region_tag c = Some region_a /\
    (exists ty, aux_stub_type_tag c = Some ty) /\ 0 < aux_stub_Z c)).
Proof.
  intros Hd Hc Hz0 Ha Hb Hz1 Hn1 Hzs Hns _ _.
  destruct (design_impedances _ _ _ _ _ _ _ _ _ _ Hd Hc)
    as [z1' [zs' [zn [E1 [E2 [E3 [P1 [P2 [P3 P4]]]]]]]]].
  rewrite Hz1 in E1. injection E1 as <-.
  rewrite Hzs in E2. injection E2 as <-.
  destruct (candidate_of_design _ _ _ _ _ _ _ _ _ _ Hd Hc)
    as [z1' [th1 [yn [zm [A [_ [_ [_ [_ [E1 _]]]]]]]]]].
  rewrite Hz1 in E1. injection E1 as <-.
  destruct (emitted_loads_passive _ _ _ _ _ _ _ _ _ _ Hd Hz0 A Hn1) as [L1 L2].
  specialize (P3 Ha Hb).
  split; [exact L1|]. split; [exact L2|]. split; [lra|]. split; [lra|].
  split; [exists zn; split; assumption|exact P4].
Qed.

Lemma sqrt_3900_bounds : 62 < sqrt 3900 < 63.
Proof.
  split.
  - replace 62 with (sqrt (62 * 62)) by (apply sqrt_square; lra).
    apply sqrt_lt_1; lra.
  - replace 63 with (sqrt (63 * 63)) by (apply sqrt_square; lra).
    apply sqrt_lt_1; lra.
Qed.

Lemma sin_PI4_above : 2 / 3 < sin (PI / 4).
Proof.
  pose proof sin_PI4_bounds as Hs.
  assert (Hsq : sin (PI / 4) * sin (PI / 4) = 1 / 2).
  { pose proof (sin2_cos2 (PI / 4)) as H. unfold Rsqr in H.
    rewrite cos_PI4_eq_sin in H. lra. }
  nra.
Qed.

(** What input D reports at the grid point (0, 1). *)
Lemma exD_candidate_fields (c : Params) :
  candidate_of 1e9 3e9 exD_design = Ok c ->
  Z1_param c = Some 52 /\
  (exists zs, Z_series c = Some zs /\ 62 < zs < 95) /\
  (exists zn, Z_stub c = Some zn /\ 62 < zn < 95) /\
  aux_stub_type_tag c = None.
Proof.
  intros Hc.
  destruct (candidate_of_design _ _ _ _ _ _ _ _ _ _ (exD_design_at true) Hc)
    as [z1 [th1 [yn [zm [A [_ [C [D [_ [E1 [_ [E2 [E3 [_ [E4 _]]]]]]]]]]]]]]].
  pose proof sin_PI4_bounds as Hs. pose proof sin_PI4_above as Hs'.
  pose proof sqrt_3900_bounds as Hq.
  pose proof exD_pi_Y_open as Ho.
  cbn in A. injection A as <-.
  assert (Ezm : pi_Z_m (1e9 / (1e9 + 3e9)) (sqrt (term_sqrt (mkC 78 0) 50))
                  (PI / 2) = sqrt 3900 / sin (PI / 4)).
  { unfold pi_Z_m. rewrite quarter_PI, sin_PI2, exD_term_sqrt. field. lra. }
  assert (Eyo : pi_Y_open (1e9 / (1e9 + 3e9)) (sqrt (term_sqrt (mkC 78 0) 50))
                  (PI / 2) = sin (PI / 4) / sqrt 3900).
  { unfold pi_Y_open, pi_B_n1. rewrite Ezm, quarter_PI.
    rewrite tan_PI4, cos_PI2, cos_PI4_eq_sin.
    replace (Rabs 1 >? 1e-9) with true
      by (symmetry; decide_test; rewrite Rabs_right; lra).
    field. lra. }
  assert (Eyn : pi_Y_n (1e9 / (1e9 + 3e9)) (sqrt (term_sqrt (mkC 78 0) 50))
                  (PI / 2) = sin (PI / 4) / sqrt 3900).
  { unfold pi_Y_n.
    replace (pi_Y_open (1e9 / (1e9 + 3e9)) (sqrt (term_sqrt (mkC 78 0) 50))
               (PI / 2) >? 0) with true by (symmetry; decide_test; exact Ho).
    exact Eyo. }
  assert (Hb : 62 < sqrt 3900 / sin (PI / 4) < 95).
  { split.
    - apply (Rmult_lt_reg_r (sin (PI / 4))); [lra|].
      replace (sqrt 3900 / sin (PI / 4) * sin (PI / 4)) with (sqrt 3900)
        by (field; lra). nra.
    - apply (Rmult_lt_reg_r (sin (PI / 4))); [lra|].
      replace (sqrt 3900 / sin (PI / 4) * sin (PI / 4)) with (sqrt 3900)
        by (field; lra). nra. }
  split; [exact E1|]. split; [|split].
  - exists zm. split; [exact E2|].
    unfold exD_design in D. cbv zeta in D. cbn [Z_m set_pi_network] in D.
    injection D as <-. rewrite Ezm. exact Hb.
  - exists (1 / pi_Y_n (1e9 / (1e9 + 3e9)) (sqrt (term_sqrt (mkC 78 0) 50))
                  (PI / 2)).
    split; [rewrite E3; reflexivity|]. rewrite Eyn.
    replace (1 / (sin (PI / 4) / sqrt 3900)) with (sqrt 3900 / sin (PI / 4))
      by (field; lra).
    exact Hb.
  - rewrite E4. reflexivity.
Qed.

Lemma candidate_impedances_witness :
  exists c zs,
    candidate_of 1e9 3e9 exD_design = Ok c /\
    Z_series c = Some zs /\
    0 < real exD_ZL1 /\ 0 < real exD_ZL2 /\
    0 < 52 /\ 0 < zs /\ (exists zn, Z_stub c = Some zn /\ 0 < zn) /\
    ((aux_stub_type_tag c = None /\ aux_stub_Z c = 0) \/
     (true = true /\ region_tag c = Some region_a /\
      (exists ty, aux_stub_type_tag c = Some ty) /\ 0 < aux_stub_Z c)).
Proof.
  destruct (run_point_of_design _ _ _ _ _ _ _ _ _ (exD_design_at true))
    as [_ [c Hc]].
  destruct (exD_candidate_fields c Hc) as [Hz1 [[zs [Hzs Hb]] _]].
  exists c, zs. split; [exact Hc|]. split; [exact Hzs|].
  apply (candidate_impedances 1e9 3e9 exD_ZL1 exD_ZL2 50 true 0%Z 1%Z
           exD_design c 52 zs (mkC 78 0) (exD_design_at true) Hc);
    try lra; try assumption; try reflexivity.
  cbn. lra.
Defined.

Lemma run_point_theta1_deg fa fb ZL1 ZL2 z0 allow theta_aux k c :
  run_point fa fb ZL1 ZL2 z0 allow (theta_aux, k) = Ok c ->
  180 * IZR k <= theta1_deg c < 180 * IZR k + 180.
Proof.
  intros Hr.
  destruct (run_point_grid_point _ _ _ _ _ _ _ _ _ Hr) as [d [Hd Hcd]].
  destruct (candidate_of_design _ _ _ _ _ _ _ _ _ _ Hd Hcd)
    as [z1 [th1 [yn [zm [_ [Hth1 [_ [_ [_ [_ [Hdeg _]]]]]]]]]]].
  apply design_at_form in Hd.
  destruct Hd as [d0 [zmat [r [sty [sy2 [H0 H]]]]]]. cbv zeta in H.
  destruct H as [_ [_ [_ [_ [_ Heq]]]]].
  rewrite Heq in Hth1. cbn in Hth1. injection Hth1 as <-.
  rewrite Hdeg. unfold degrees.
  pose proof (theta1_rad_range (prepared theta_aux d0)) as Hrange.
  pose proof PI_RGT_0 as HPI.
  set (t := theta1_rad (prepared theta_aux d0)) in *.
  replace ((t + IZR k * PI) * 180 / PI) with (t * (180 / PI) + 180 * IZR k)
    by (field; lra).
  assert (H180 : 0 < 180 / PI) by (apply Rdiv_lt_0_compat; lra).
  assert (Hpi : PI * (180 / PI) = 180) by (field; lra).
  nra.
Qed.


(** ** The classifier and stage 3 *)

Lemma norm_r_value (zin : complex) (z0 : R) :
  z0 <> 0 -> norm_r zin z0 = real zin / z0.
Proof. intros H. unfold norm_r. cbn. field. exact H. Qed.

Lemma norm_g_value (zin : complex) (z0 : R) :
  z0 <> 0 -> real zin * real zin + imag zin * imag zin <> 0 ->
  norm_g zin z0 =
  real zin * z0 / (real zin * real zin + imag zin * imag zin).
Proof.
  intros H Hn. unfold norm_g. cbn. field. tauto.
Qed.

Lemma norm_g_zero (z0 : R) (zin : complex) :
  real zin * real zin + imag zin * imag zin = 0 -> norm_g zin z0 = 0.
Proof.
  intros Hn.
  assert (Ha : real zin = 0) by nra. assert (Hb : imag zin = 0) by nra.
  unfold norm_g. cbn. rewrite Ha, Hb. unfold Rdiv. ring.
Qed.

Lemma term_sqrt_value (zin : complex) (z0 : R) :
  real zin <> z0 ->
  term_sqrt zin z0 * (real zin - z0) =
  z0 * (real zin * real zin + imag zin * imag zin - real zin * z0).
Proof. intros H. unfold term_sqrt. cbv zeta. field. lra. Qed.

(** Stage 3 accepts every impedance of region (a) and of region (b). *)
Lemma term_sqrt_region_a (zin : complex) (z0 : R) :
  0 < z0 -> 1 < norm_r zin z0 -> 0 < term_sqrt zin z0.
Proof.
  intros H0 Hr. rewrite norm_r_value in Hr by lra.
  assert (Ha : z0 < real zin).
  { apply (Rmult_lt_compat_r z0) in Hr; [|lra].
    replace (real zin / z0 * z0) with (real zin) in Hr by (field; lra). lra. }
  unfold term_sqrt. cbv zeta.
  assert (0 <= imag zin ^ 2 * z0 / (real zin - z0)).
  { apply Rmult_le_pos; [|left; apply Rinv_0_lt_compat; lra].
    apply Rmult_le_pos; [simpl; nra|lra]. }
  nra.
Qed.

Lemma term_sqrt_region_b (zin : complex) (z0 : R) :
  0 < z0 -> norm_r zin z0 <= 1 -> 1 < norm_g zin z0 -> 0 < term_sqrt zin z0.
Proof.
  intros H0 Hr Hg.
  set (n := real zin * real zin + imag zin * imag zin).
  assert (Hn0 : 0 <= n) by (unfold n; nra).
  destruct (Req_dec n 0) as [Hz|Hnz].
  { rewrite (norm_g_zero z0 zin Hz) in Hg. lra. }
  rewrite norm_g_value in Hg by (fold n; lra || exact Hnz). fold n in Hg.
  assert (Hn : 0 < n) by lra.
  assert (Hlt : n < real zin * z0).
  { apply (Rmult_lt_compat_r n) in Hg; [|exact Hn].
    replace (real zin * z0 / n * n) with (real zin * z0) in Hg by (field; lra).
    lra. }
  assert (Hpos : 0 < real zin) by nra.
  assert (Ha : real zin < z0) by (unfold n in Hlt; nra).
  pose proof (term_sqrt_value zin z0 ltac:(lra)) as Hv. fold n in Hv.
  assert (Hneg : z0 * (n - real zin * z0) < 0) by nra.
  destruct (Rlt_le_dec 0 (term_sqrt zin z0)) as [|Hle]; [assumption|exfalso].
  assert (0 <= term_sqrt zin z0 * (real zin - z0)) by nra.
  lra.
Qed.

(** X9. For a positive [Z0] stage 3 accepts whatever the classifier puts
    in region (a) or in region (b): the radicand of [Z_T1] is positive
    there, so that stage 3 can only reject a grid point of region (c). *)
Theorem regions_a_b_pass_stage3 (allow : bool) (d1 : Design) (zin : complex) :
  Z_in1 d1 = Some zin -> 0 < Z0 d1 ->
  1 < norm_r zin (Z0 d1) \/ 1 < norm_g zin (Z0 d1) ->
  exists d2,
    check_region_and_adjust allow d1 = Ok d2 /\
    (region d2 = Some region_a \/ region d2 = Some region_b) /\
    Z_in_matched d2 = Some zin /\
    aux_stub_type d2 = aux_stub_type d1 /\
    0 < term_sqrt zin (Z0 d1) /\
    calculate_matching_network d2 =
    Ok (set_matching_line d2 (sqrt (term_sqrt zin (Z0 d1)))
          (theta_T1_rad zin (Z0 d1))).
Proof.
  intros Hz H0 Hreg.
  destruct (Rlt_le_dec 1 (norm_r zin (Z0 d1))) as [Hr|Hr].
  - eexists. split; [apply (check_region_a allow d1 zin Hz Hr)|].
    pose proof (term_sqrt_region_a zin (Z0 d1) H0 Hr) as Ht.
    split; [left; reflexivity|]. split; [reflexivity|]. split; [reflexivity|].
    split; [exact Ht|].
    rewrite (calculate_matching_network_ok _ zin); [reflexivity|reflexivity|cbn; lra].
  - destruct Hreg as [Hc|Hg]; [lra|].
    eexists. split; [apply (check_region_b allow d1 zin Hz Hr Hg)|].
    pose proof (term_sqrt_region_b zin (Z0 d1) H0 Hr Hg) as Ht.
    split; [right; reflexivity|]. split; [reflexivity|]. split; [reflexivity|].
    split; [exact Ht|].
    rewrite (calculate_matching_network_ok _ zin); [reflexivity|reflexivity|cbn; lra].
Qed.

(** ** The auxiliary stub of region (c) *)

(** A stub that [_add_auxiliary_stub] finds cancels the susceptance of
    [Z_in1]. *)
Lemma aux_stub_open_cancels (p : R) (zin : complex) :
  0 < aux_Y2_open p zin ->
  (1 / zin + Ci * aux_Y2_open p zin * tan (p * PI))%C = RtoC (real (1 / zin)%C).
Proof.
  unfold aux_Y2_open. case_test (Rabs (tan (p * PI)) >? 1e-9); [|lra].
  intros _.
  assert (Ht : tan (p * PI) <> 0).
  { intros Ht. rewrite Ht, Rabs_R0 in E. lra. }
  set (Y := (1 / zin)%C).
  apply complex_eq; cbn [real imag Cadd Cmul RtoC Ci]; [ring|]. field. exact Ht.
Qed.

Lemma aux_stub_short_cancels (p : R) (zin : complex) :
  0 < aux_Y2_short p zin ->
  (1 / zin + - Ci * aux_Y2_short p zin / tan (p * PI))%C =
  RtoC (real (1 / zin)%C).
Proof.
  unfold aux_Y2_short. intros Hy.
  assert (Ht : tan (p * PI) <> 0).
  { intros Ht. rewrite Ht in Hy. lra. }
  set (Y := (1 / zin)%C) in *.
  apply complex_eq; cbn [real imag Cadd Cmul Cdiv Copp RtoC Ci]; field; exact Ht.
Qed.

Lemma Cinv_real (g : R) : g <> 0 -> (1 / RtoC g)%C = RtoC (1 / g).
Proof.
  intros H. apply complex_eq; cbn [real imag Cdiv RtoC]; field; exact H.
Qed.

Lemma term_sqrt_real (r z0 : R) : term_sqrt (mkC r 0) z0 = r * z0.
Proof. unfold term_sqrt. cbn [real imag]. unfold Rdiv. ring. Qed.

Lemma theta_T1_real (r z0 : R) : theta_T1_rad (mkC r 0) z0 = PI / 2.
Proof.
  unfold theta_T1_rad. cbn [real imag]. rewrite Rmult_0_l, Rabs_R0.
  replace (0 <? 1e-9) with true by (symmetry; decide_test; lra).
  pose proof PI_RGT_0.
  replace (PI / 2 <=? 0) with false by (symmetry; decide_test; lra).
  reflexivity.
Qed.


(** Without a realizable stub, [Z_in1] is real. *)
Lemma no_stub_real_input (p : R) (zin : complex) :
  1e-9 < Rabs (tan (p * PI)) ->
  aux_Y2_open p zin <= 0 -> aux_Y2_short p zin <= 0 -> imag zin = 0.
Proof.
  unfold aux_Y2_open, aux_Y2_short. intros Ht.
  replace (Rabs (tan (p * PI)) >? 1e-9) with true
    by (symmetry; decide_test; exact Ht).
  set (t := tan (p * PI)) in *. set (B := imag (1 / zin)%C).
  intros Ho Hs.
  assert (Ht0 : t <> 0).
  { intros H0. rewrite H0, Rabs_R0 in Ht. lra. }
  assert (Hq : - B / t * (t * t) = - (B * t)) by (field; exact Ht0).
  assert (Ht2 : 0 < t * t) by nra.
  assert (HBt : B * t = 0) by nra.
  assert (HB : B = 0).
  { apply Rmult_integral in HBt. destruct HBt; [assumption|contradiction]. }
  unfold B in HB. cbn [real imag Cdiv RtoC] in HB.
  set (n := real zin * real zin + imag zin * imag zin) in *.
  destruct (Req_dec n 0) as [Hn|Hn]; [unfold n in Hn; nra|].
  assert (Hx : (0 * real zin - 1 * imag zin) / n * n = - imag zin)
    by (field; exact Hn).
  rewrite HB in Hx. lra.
Qed.

Lemma Cinv_involutive_real (r : R) : (1 / (1 / RtoC r + RtoC 0))%C = RtoC r.
Proof.
  destruct (Req_dec r 0) as [->|Hr].
  - apply complex_eq; cbn; unfold Rdiv; ring.
  - apply complex_eq; cbn; field; exact Hr.
Qed.

(** X11. Where [_add_auxiliary_stub] falls back on its placeholder
    (region (c), neither admittance positive) with [tan (p1 pi)] outside
    its clamp and [Z_in1] not 0, [Z_in1] is real, it gets the stub
    (Open, 0.02) and region 'a' and goes to stage 3 unchanged (in exact
    arithmetic [1 / (1 / Z_in1)] is [Z_in1]), and stage 3 rejects the
    grid point unless [Z_in1] is exactly [Z0]. *)
Theorem aux_stub_placeholder_reach (d1 : Design) (zin : complex) :
  Z_in1 d1 = Some zin -> 0 < Z0 d1 ->
  real zin <> 0 \/ imag zin <> 0 ->
  1e-9 < Rabs (tan (p1 d1 * PI)) ->
  norm_r zin (Z0 d1) <= 1 -> norm_g zin (Z0 d1) <= 1 ->
  aux_Y2_open (p1 d1) zin <= 0 -> aux_Y2_short (p1 d1) zin <= 0 ->
  exists d2,
    check_region_and_adjust true d1 = Ok d2 /\
    aux_stub_type d2 = Some Open /\ aux_stub_Y2 d2 = Some 0.02 /\
    region d2 = Some region_a /\
    imag zin = 0 /\ Z_in_matched d2 = Some zin /\
    (zin = RtoC (Z0 d1) \/ calculate_matching_network d2 = Unsolved).
Proof.
  intros Hz H0 Hnz Ht Hr Hg Ho Hs.
  pose proof (no_stub_real_input _ _ Ht Ho Hs) as HX.
  assert (Hzin : zin = RtoC (real zin)).
  { apply complex_eq; [reflexivity|exact HX]. }
  rewrite (check_region_c_stub d1 zin Hz Hr Hg).
  match goal with |- context [_add_auxiliary_stub ?d'] =>
    destruct (add_auxiliary_stub_cases d' zin Hz)
      as [[P _]|[[_ [P _]]|[_ [_ E']]]]
  end; [cbn [p1 set_region] in P; lra|cbn [p1 set_region] in P; lra|].
  rewrite E'. eexists. split; [reflexivity|].
  split; [reflexivity|]. split; [reflexivity|]. split; [reflexivity|].
  split; [exact HX|].
  assert (Hm : (1 / (1 / zin + RtoC 0))%C = zin).
  { rewrite Hzin at 1. rewrite Cinv_involutive_real. symmetry. exact Hzin. }
  cbn [Z_in_matched set_region]. rewrite Hm. split; [reflexivity|].
  assert (HR0 : real zin <> 0) by (destruct Hnz; [assumption|contradiction]).
  destruct (Rlt_le_dec (real zin) 0) as [Hneg|Hpos].
  - right.
    match goal with |- calculate_matching_network ?d2 = _ =>
      destruct (calculate_matching_network_cases d2 zin eq_refl) as [[_ E]|[C _]]
    end; [exact E|exfalso].
    cbn [Z0 set_region] in C.
    pose proof (term_sqrt_neg zin (Z0 d1) H0 Hneg). lra.
  - left. rewrite Hzin. f_equal.
    assert (HRpos : 0 < real zin) by lra.
    rewrite norm_r_value in Hr by lra.
    rewrite norm_g_value in Hg by (try lra; nra).
    rewrite HX in Hg.
    assert (Hle : real zin <= Z0 d1).
    { apply (Rmult_le_compat_r (Z0 d1)) in Hr; [|lra].
      replace (real zin / Z0 d1 * Z0 d1) with (real zin) in Hr by (field; lra).
      lra. }
    assert (Hge : Z0 d1 <= real zin).
    { replace (real zin * Z0 d1 / (real zin * real zin + 0 * 0))
        with (Z0 d1 / real zin) in Hg by (field; lra).
      apply (Rmult_le_compat_r (real zin)) in Hg; [|lra].
      replace (Z0 d1 / real zin * real zin) with (Z0 d1) in Hg by (field; lra).
      lra. }
    lra.
Qed.

(** ** Stage 1: the conjugate match, on the replay's line primitive *)

(** X12. Stage 1 is a conjugate match. For a load of positive resistance
    at f1, a positive radicand and angles outside the clamps, the line
    [Z1], [theta1] the stage stores takes, in the line function of the
    replay, the load at f1 to [Z_in1] and the load at f2 to the complex
    conjugate of [Z_in1]. *)
Theorem stage1_conjugate_match (k : Z) (d d1 : Design) :
  calculate_conjugate_transform k d = Ok d1 ->
  (k = 0 \/ k = 1)%Z ->
  p1 d + p2 d = 1 ->
  0 < real (Z_L1 d) -> 0 < inside_sqrt d ->
  1e-9 <= Rabs (real (Z_L2 d) * imag (Z_L1 d) - real (Z_L1 d) * imag (Z_L2 d)) ->
  let th1 := theta1_rad d + IZR k * PI in
  1e-9 <= Rabs (cos (th1 * p1 d)) -> 1e-9 <= Rabs (cos (th1 * p2 d)) ->
  exists z1 zin,
    Z1 d1 = Some z1 /\ theta1 d1 = Some th1 /\ Z_in1 d1 = Some zin /\
    0 < z1 /\ z1 * z1 = inside_sqrt d /\
    tline_input_z (Z_L1 d) z1 (th1 * p1 d) = zin /\
    tline_input_z (Z_L2 d) z1 (th1 * p2 d) = Cconj zin.
Proof.
  intros H Hk Hp HR Hin Hden th1 Hc1 Hc2.
  destruct (calculate_conjugate_transform_cases k d) as [[E _]|[E [C1 C2]]];
    rewrite E in H; [discriminate|]. injection H as <-.
  exists (sqrt (inside_sqrt d)), (conj_Z_in1 k d).
  assert (Hz : 0 < sqrt (inside_sqrt d)) by (apply sqrt_lt_R0; exact Hin).
  split; [reflexivity|]. split; [reflexivity|]. split; [reflexivity|].
  split; [exact Hz|]. split; [apply sqrt_sqrt; lra|].
  rewrite !tline_input_z_line_formula by assumption.
  split; [reflexivity|].
  apply conjugate_match_at_f2; try assumption.
  - change (conj_Z_in1 k d)
      with (line_formula (sqrt (inside_sqrt d)) (Z_L1 d) (tan (th1 * p1 d))).
    apply line_formula_real_pos; lra.
  - apply Rabs_lower_nonzero. exact Hc1.
  - apply Rabs_lower_nonzero. exact Hc2.
Qed.

(** ** Stage 1 is symmetric in the two bands *)

Lemma inside_sqrt_swap (d d' : Design) :
  Z_L1 d' = Z_L2 d -> Z_L2 d' = Z_L1 d -> inside_sqrt d' = inside_sqrt d.
Proof.
  intros E1 E2. unfold inside_sqrt. rewrite E1, E2. cbv zeta.
  set (R1 := real (Z_L1 d)). set (X1 := imag (Z_L1 d)).
  set (R2 := real (Z_L2 d)). set (X2 := imag (Z_L2 d)).
  destruct (Req_dec (R2 - R1) 0) as [H0|H0].
  - replace (R1 - R2) with 0 by lra. rewrite H0. unfold Rdiv.
    rewrite Rinv_0. ring.
  - field. split; lra.
Qed.

Lemma theta1_rad_swap (d d' : Design) :
  Z_L1 d' = Z_L2 d -> Z_L2 d' = Z_L1 d -> theta1_rad d' = theta1_rad d.
Proof.
  intros E1 E2. unfold theta1_rad.
  assert (Hraw : theta1_raw d' = theta1_raw d).
  { unfold theta1_raw. rewrite (inside_sqrt_swap d d' E1 E2), E1, E2. cbv zeta.
    set (R1 := real (Z_L1 d)). set (X1 := imag (Z_L1 d)).
    set (R2 := real (Z_L2 d)). set (X2 := imag (Z_L2 d)).
    set (z := sqrt (inside_sqrt d)).
    replace (R1 * X2 - R2 * X1) with (- (R2 * X1 - R1 * X2)) by ring.
    rewrite Rabs_Ropp.
    case_test (Rabs (R2 * X1 - R1 * X2) <? 1e-9); [reflexivity|].
    assert (Hd : R2 * X1 - R1 * X2 <> 0).
    { intros H0. rewrite H0, Rabs_R0 in E. lra. }
    f_equal. field. exact Hd. }
  rewrite Hraw. reflexivity.
Qed.

Lemma conjugate_transform_swap (k : Z) (d d' : Design) :
  Z_L1 d' = Z_L2 d -> Z_L2 d' = Z_L1 d ->
  match calculate_conjugate_transform k d, calculate_conjugate_transform k d' with
  | Ok d1, Ok d1' => Z1 d1' = Z1 d1 /\ theta1 d1' = theta1 d1
  | Unsolved, Unsolved => True
  | _, _ => False
  end.
Proof.
  intros E1 E2.
  unfold calculate_conjugate_transform. cbv zeta.
  rewrite (inside_sqrt_swap d d' E1 E2), (theta1_rad_swap d d' E1 E2), E1, E2.
  replace (real (Z_L1 d) - real (Z_L2 d))
    with (- (real (Z_L2 d) - real (Z_L1 d))) by ring.
  rewrite Rabs_Ropp.
  destruct (_ <? 1e-6); [exact I|].
  destruct (_ <? 0); [exact I|].
  cbn. split; reflexivity.
Qed.

(** ** The line primitive of the replay: cascades and reflection *)

Lemma Cdiv_mul (n d : complex) :
  real d * real d + imag d * imag d <> 0 -> (n / d * d)%C = n.
Proof. intros H. apply complex_eq; cbn; field; exact H. Qed.

Lemma Cdiv_eq (n d w : complex) :
  real d * real d + imag d * imag d <> 0 -> n = (w * d)%C -> (n / d)%C = w.
Proof. intros H ->. apply complex_eq; cbn; field; exact H. Qed.

Lemma line_divisor_nonzero (zc : R) (zl : complex) (T : R) :
  zc <> 0 -> real zl <> 0 ->
  let D := (zc + Ci * zl * T)%C in
  real D * real D + imag D * imag D <> 0.
Proof.
  intros Hc Hr. cbn.
  destruct (Req_dec T 0) as [->|HT].
  - apply sumsq_nonzero_l. lra.
  - apply sumsq_nonzero_r.
    replace ((0 * real zl - 1 * imag zl) * 0 + (0 * imag zl + 1 * real zl) * T)
      with (real zl * T) by ring.
    replace (0 + real zl * T) with (real zl * T) by ring.
    apply Rmult_integral_contrapositive_currified; assumption.
Qed.

(** Two sections of the same line in cascade are one section: on the
    tangents, with [T] the tangent of the sum of the two angles. *)
Lemma line_formula_cascade (zc : R) (z : complex) (Ta Tb T : R) :
  zc <> 0 -> 0 < real z ->
  1 - Ta * Tb <> 0 -> T * (1 - Ta * Tb) = Ta + Tb ->
  line_formula zc (line_formula zc z Ta) Tb = line_formula zc z T.
Proof.
  intros Hc Hr Hq HT.
  pose proof (line_formula_real_pos zc z Ta Hc Hr) as Hr1.
  set (w1 := line_formula zc z Ta) in *.
  assert (E1 : (w1 * (zc + Ci * z * Ta))%C = (zc * (z + Ci * zc * Ta))%C).
  { unfold w1, line_formula. apply Cdiv_mul.
    apply line_divisor_nonzero; lra. }
  set (w2 := line_formula zc w1 Tb).
  assert (E2 : (w2 * (zc + Ci * w1 * Tb))%C = (zc * (w1 + Ci * zc * Tb))%C).
  { unfold w2, line_formula. apply Cdiv_mul.
    apply line_divisor_nonzero; lra. }
  symmetry. unfold line_formula at 1. apply Cdiv_eq.
  { apply line_divisor_nonzero; lra. }
  clearbody w1 w2.
  destruct z as [a b], w1 as [u1 v1], w2 as [u2 v2].
  apply (f_equal real) in E1 as E1r. apply (f_equal imag) in E1 as E1i.
  apply (f_equal real) in E2 as E2r. apply (f_equal imag) in E2 as E2i.
  cbn in E1r, E1i, E2r, E2i. clear E1 E2 Hr Hr1.
  assert (K : zc * (1 - Ta * Tb) <> 0)
    by (apply Rmult_integral_contrapositive_currified; assumption).
  apply complex_eq; cbn;
    apply (Rmult_eq_reg_l (zc * (1 - Ta * Tb))); try exact K; nsatz.
Qed.

Lemma tan_of_sum (a b : R) :
  cos a <> 0 -> cos b <> 0 -> cos (a + b) <> 0 ->
  1 - tan a * tan b <> 0 /\ tan (a + b) * (1 - tan a * tan b) = tan a + tan b.
Proof.
  intros Ha Hb Hab.
  assert (Hc : cos (a + b) = cos a * cos b * (1 - tan a * tan b)).
  { rewrite cos_plus. unfold tan. field. split; assumption. }
  assert (Hq : 1 - tan a * tan b <> 0).
  { intros H0. rewrite H0, Rmult_0_r in Hc. contradiction. }
  split; [exact Hq|].
  pose proof (tan_sum_relation a b Ha Hb) as Hs.
  unfold tan at 1.
  apply (Rmult_eq_reg_r (cos (a + b))); [|exact Hab].
  rewrite Hs. field. exact Hab.
Qed.

Lemma line_formula_zero (zc : R) (z : complex) :
  zc <> 0 -> line_formula zc z 0 = z.
Proof.
  intros Hc. unfold line_formula. apply Cdiv_eq.
  - cbn. apply sumsq_nonzero_l.
    replace (zc + ((0 * real z - 1 * imag z) * 0 - (0 * imag z + 1 * real z) * 0))
      with zc by ring. exact Hc.
  - apply complex_eq; cbn; ring.
Qed.

(** X14. The line function of the replay composes: outside the clamps,
    for a load of positive resistance, a section of angle [a] followed by
    a section of angle [b] of the same line is the section of angle
    [a + b]; the section of angle 0 is the identity. *)
Theorem tline_cascade (z : complex) (zc a b : R) :
  zc <> 0 -> 0 < real z ->
  1e-9 <= Rabs (cos a) -> 1e-9 <= Rabs (cos b) -> 1e-9 <= Rabs (cos (a + b)) ->
  tline_input_z (tline_input_z z zc a) zc b = tline_input_z z zc (a + b) /\
  tline_input_z z zc 0 = z.
Proof.
  intros Hc Hr Ha Hb Hab. split.
  - rewrite !tline_input_z_line_formula by assumption.
    destruct (tan_of_sum a b) as [Hq HT];
      try (apply Rabs_lower_nonzero; assumption).
    apply line_formula_cascade; assumption.
  - rewrite tline_input_z_line_formula.
    + rewrite tan_0. apply line_formula_zero. exact Hc.
    + rewrite cos_0, Rabs_R1. lra.
Qed.

Lemma tline_cascade_witness :
  tline_input_z (tline_input_z (mkC 25 10) 50 (PI / 4)) 50 (PI / 4 + PI / 4 + PI / 4)
  = tline_input_z (mkC 25 10) 50 (PI / 4 + (PI / 4 + PI / 4 + PI / 4)) /\
  tline_input_z (mkC 25 10) 50 0 = mkC 25 10.
Proof.
  pose proof sin_PI4_bounds as Hs. pose proof cos_PI4_eq_sin as Hcs.
  apply tline_cascade.
  - lra.
  - cbn. lra.
  - rewrite Hcs, Rabs_right; lra.
  - replace (PI / 4 + PI / 4 + PI / 4) with (PI - PI / 4) by lra.
    rewrite cos_PI_minus, Rabs_Ropp, Hcs, Rabs_right; lra.
  - replace (PI / 4 + (PI / 4 + PI / 4 + PI / 4)) with PI by lra.
    rewrite cos_PI. unfold Rabs. destruct (Rcase_abs (-1)); lra.
Defined.

Lemma Cabs_div (a b : complex) :
  real b * real b + imag b * imag b <> 0 ->
  Cabs (a / b)%C =
  sqrt ((real a * real a + imag a * imag a) / (real b * real b + imag b * imag b)).
Proof.
  intros H. unfold Cabs. f_equal. cbn. field. exact H.
Qed.

Lemma Cabs_ratio_eq (a b c d : complex) :
  real b * real b + imag b * imag b <> 0 ->
  real d * real d + imag d * imag d <> 0 ->
  (real a * real a + imag a * imag a) * (real d * real d + imag d * imag d) =
  (real c * real c + imag c * imag c) * (real b * real b + imag b * imag b) ->
  Cabs (a / b)%C = Cabs (c / d)%C.
Proof.
  intros Hb Hd H. rewrite !Cabs_div by assumption. f_equal.
  apply Rdiv_cross; assumption.
Qed.

Lemma passive_sum_nonzero (z : complex) (zc : R) :
  0 < zc -> 0 < real z ->
  real (z + zc)%C * real (z + zc)%C + imag (z + zc)%C * imag (z + zc)%C <> 0.
Proof. intros Hc Hr. apply sumsq_nonzero_l. cbn. lra. Qed.

(** The magnitude of the reflection coefficient with respect to the
    impedance of the line is the same at the two ends of the line. *)
Lemma line_formula_reflection (zc : R) (z : complex) (T : R) :
  0 < zc -> 0 < real z ->
  Cabs ((line_formula zc z T - zc) / (line_formula zc z T + zc))%C =
  Cabs ((z - zc) / (z + zc))%C.
Proof.
  intros Hc Hr.
  pose proof (line_formula_real_pos zc z T ltac:(lra) Hr) as Hr1.
  set (w := line_formula zc z T) in *.
  assert (E1 : (w * (zc + Ci * z * T))%C = (zc * (z + Ci * zc * T))%C).
  { unfold w, line_formula. apply Cdiv_mul.
    apply line_divisor_nonzero; lra. }
  pose proof (line_divisor_nonzero zc z T ltac:(lra) ltac:(lra)) as HD.
  cbv zeta in HD.
  apply Cabs_ratio_eq; try (apply passive_sum_nonzero; assumption).
  clearbody w.
  destruct z as [a b], w as [u v].
  apply (f_equal real) in E1 as E1r. apply (f_equal imag) in E1 as E1i.
  cbn in E1r, E1i, HD |- *. clear E1 Hr Hr1.
  match type of HD with ?n <> 0 => apply (Rmult_eq_reg_l n); [|exact HD] end.
  nsatz.
Qed.

Lemma quarter_wave_reflection (zc : R) (z : complex) :
  0 < zc -> 0 < real z ->
  Cabs ((RtoC (zc ^ 2) / z - zc) / (RtoC (zc ^ 2) / z + zc))%C =
  Cabs ((z - zc) / (z + zc))%C.
Proof.
  intros Hc Hr.
  assert (Hn : real z * real z + imag z * imag z <> 0)
    by (apply sumsq_nonzero_l; lra).
  assert (Hr1 : 0 < real (RtoC (zc ^ 2) / z)%C).
  { apply Cdiv_real_pos. cbn [real imag RtoC]. rewrite Rmult_0_l, Rplus_0_r.
    apply Rmult_lt_0_compat; [apply pow_lt; exact Hc|exact Hr]. }
  set (w := (RtoC (zc ^ 2) / z)%C) in *.
  assert (E1 : (w * z)%C = RtoC (zc ^ 2)) by (apply Cdiv_mul; exact Hn).
  apply Cabs_ratio_eq; try (apply passive_sum_nonzero; assumption).
  clearbody w.
  destruct z as [a b], w as [u v].
  apply (f_equal real) in E1 as E1r. apply (f_equal imag) in E1 as E1i.
  cbn in E1r, E1i, Hn |- *. clear E1 Hr Hr1.
  apply (Rmult_eq_reg_l (a * a + b * b)); [|exact Hn].
  nsatz.
Qed.

(** X15. A line section does not change the VSWR of its load with
    respect to the impedance of the line itself, in the regular branch and
    in the quarter-wave branch of [tline_input_z]. *)
Theorem tline_keeps_vswr (z : complex) (zc theta : R) :
  0 < zc -> 0 < real z ->
  1e-9 <= Cabs z \/ 1e-9 <= Rabs (cos theta) ->
  vswr_of (tline_input_z z zc theta) zc = vswr_of z zc.
Proof.
  intros Hc Hr Hreg.
  assert (H : Cabs ((tline_input_z z zc theta - zc) /
                    (tline_input_z z zc theta + zc))%C =
              Cabs ((z - zc) / (z + zc))%C).
  { case_test (Rabs (cos theta) <? 1e-9).
    - destruct Hreg as [Hz|Hz]; [|lra].
      unfold tline_input_z.
      replace (Rabs (cos theta) <? 1e-9) with true
        by (symmetry; decide_test; exact E).
      replace (Cabs z <? 1e-9) with false by (symmetry; decide_test; exact Hz).
      apply quarter_wave_reflection; assumption.
    - rewrite tline_input_z_line_formula by exact E.
      apply line_formula_reflection; assumption. }
  unfold vswr_of. cbv zeta. rewrite H. reflexivity.
Qed.

(** ** The dictionary of [verify_metrics] *)

(** X17. The dictionary of [verify_metrics] is keyed by the two
    frequencies.  For different frequencies it has two entries, the replay
    of each load.  For equal frequencies the second entry overwrites the
    first: one entry, and both lookups, hence both VSWR values of the
    candidate, are the replay of the second load.  Any other key raises. *)
Theorem metrics_keyed_by_frequency (d : Design) (m : list (R * R)) :
  verify_metrics d = Ok m ->
  dict_get (f2 d) m = verify_at d (f2 d) (Z_L2_orig d) /\
  (f1 d <> f2 d ->
   length m = 2%nat /\ dict_get (f1 d) m = verify_at d (f1 d) (Z_L1_orig d)) /\
  (f1 d = f2 d ->
   length m = 1%nat /\ dict_get (f1 d) m = verify_at d (f2 d) (Z_L2_orig d)) /\
  (forall f, f <> f1 d -> f <> f2 d -> dict_get f m = Raised) /\
  (f1 d = f2 d ->
   forall c, candidate_of (f1 d) (f2 d) d = Ok c -> VSWR_f1 c = VSWR_f2 c).
Proof.
  intros Hm.
  assert (Hcand : f1 d = f2 d ->
            forall c, candidate_of (f1 d) (f2 d) d = Ok c ->
                      VSWR_f1 c = VSWR_f2 c).
  { intros He c Hc. unfold candidate_of in Hc. rewrite Hm, <- He in Hc.
    inv_bind Hc. cbn [bind] in Hc_r. inv_bind Hc_r. inv_bind Hc_r_r.
    injection Hc_r_r_r as <-. cbn [VSWR_f1 VSWR_f2 with_vswr].
    rewrite Hc_r_l in Hc_r_r_l. injection Hc_r_r_l as <-. reflexivity. }
  assert (Hdict :
    dict_get (f2 d) m = verify_at d (f2 d) (Z_L2_orig d) /\
    (f1 d <> f2 d ->
     length m = 2%nat /\ dict_get (f1 d) m = verify_at d (f1 d) (Z_L1_orig d)) /\
    (f1 d = f2 d ->
     length m = 1%nat /\ dict_get (f1 d) m = verify_at d (f2 d) (Z_L2_orig d)) /\
    (forall f, f <> f1 d -> f <> f2 d -> dict_get f m = Raised)).
  { clear Hcand. revert Hm.
    unfold verify_metrics. intros H. inv_bind H. inv_bind H_r.
    injection H_r_r as <-. rename a into v1, a0 into v2.
    rewrite H_l, H_r_l.
    case_test (f1 d =? f2 d).
    - cbn. rewrite E, !Reqb_refl. repeat split; try tauto.
      intros f Ha Hb. cbn.
      replace (f2 d =? f) with false by (symmetry; decide_test; auto).
      reflexivity.
    - cbn. rewrite !Reqb_refl.
      replace (f1 d =? f2 d) with false by (symmetry; decide_test; exact E).
      repeat split; try tauto.
      intros f Ha Hb. cbn.
      replace (f1 d =? f) with false by (symmetry; decide_test; auto).
      replace (f2 d =? f) with false by (symmetry; decide_test; auto).
      reflexivity. }
  destruct Hdict as [A [B [C D]]]. repeat split; try tauto; auto.
Qed.

(** ** The recommended design *)

Lemma valid_df_in (max_zn : R) (df : list Params) (c : Params) :
  In c (valid_df max_zn df) <->
  In c df /\ exists z, Z_stub c = Some z /\ z <= max_zn.
Proof.
  unfold valid_df. rewrite filter_In. unfold meets_constraint.
  split; intros [Hin H]; (split; [exact Hin|]).
  - destruct (Z_stub c) as [z|]; [|discriminate].
    exists z. split; [reflexivity|]. apply Rleb_true. exact H.
  - destruct H as [z [-> Hz]]. apply Rleb_true. exact Hz.
Qed.

Lemma sort_values_head (df : list Params) (best : Params) (rest : list Params) :
  sort_values df (best :: rest) ->
  In best df /\
  forall c, In c df -> key_le (Delta_50 best) (Delta_50 c).
Proof.
  intros [Hp Hs]. split.
  - apply (Permutation_in _ Hp). left. reflexivity.
  - intros c Hc. apply (Permutation_in _ (Permutation_sym Hp)) in Hc.
    inversion Hs as [|? ? _ Hall]; subst.
    destruct Hc as [<-|Hc].
    + unfold key_le. destruct (Delta_50 best); [lra|exact I].
    + rewrite Forall_forall in Hall. exact (Hall c Hc).
Qed.

Lemma has_aux_stub_of_candidate fa fb ZL1 ZL2 z0 allow scan l c :
  find_all_designs fa fb ZL1 ZL2 z0 allow scan = Ok l -> In c l ->
  has_aux_stub c = true <-> exists ty, aux_stub_type_tag c = Some ty.
Proof.
  intros Hl Hc.
  destruct (candidate_design _ _ _ _ _ _ _ _ _ Hl Hc)
    as [theta_aux [k [d [_ [Hd Hcd]]]]].
  destruct (design_impedances _ _ _ _ _ _ _ _ _ _ Hd Hcd)
    as [z1 [zs [zn [_ [_ [_ [_ [_ [_ [[Hn _]|[_ [_ [[ty Ht] Hpos]]]]]]]]]]]]];
    unfold has_aux_stub.
  - rewrite Hn. split; [discriminate|]. intros [ty Hty]; discriminate.
  - rewrite Ht. split; [eauto|]. intros _. apply Rltb_true. exact Hpos.
Qed.

(** X20. The page of [streamlit_app.py]. When it recommends a design,
    the table is a permutation of the candidates with [Z_stub <= max_zn];
    the recommended design is one of them, and its [Z_stub] is the closest
    to 50 among them (exactly 50 as soon as the search returned a
    candidate with the placeholder stub [1 / 0.02] and [max_zn] allows
    50); and the column of the auxiliary stub is shown exactly when the
    design has one. *)
Theorem recommended_design fa fb ZL1 ZL2 z0 allow scan results max_zn
    table best aux :
  find_all_designs fa fb ZL1 ZL2 z0 allow scan = Ok results ->
  page max_zn results (Recommended table best aux) ->
  Permutation table (valid_df max_zn results) /\
  In best results /\
  (exists zn,
     Z_stub best = Some zn /\ zn <= max_zn /\
     (forall c zc, In c results -> Z_stub c = Some zc -> zc <= max_zn ->
                   Rabs (zn - 50) <= Rabs (zc - 50)) /\
     (50 <= max_zn ->
      (exists c, In c results /\ Z_stub c = Some (1 / 0.02)) -> zn = 50)) /\
  (aux = true <-> exists ty, aux_stub_type_tag best = Some ty).
Proof.
  intros Hl Hpage. unfold page in Hpage.
  destruct results as [|c0 results']; [discriminate|].
  set (results := c0 :: results') in *.
  destruct (valid_df max_zn results) as [|v0 valid'] eqn:Ev; [discriminate|].
  destruct Hpage as [best' [rest [Hsort Hv]]]. injection Hv as -> -> ->.
  rewrite <- Ev in Hsort |- *.
  destruct (sort_values_head _ _ _ Hsort) as [Hbest Hmin].
  apply valid_df_in in Hbest. destruct Hbest as [Hin [zn [Hzn Hle]]].
  split; [exact (proj1 Hsort)|]. split; [exact Hin|].
  assert (Hminimal : forall c zc, In c results -> Z_stub c = Some zc ->
                       zc <= max_zn -> Rabs (zn - 50) <= Rabs (zc - 50)).
  { intros c zc Hc Hzc Hcle.
    assert (Hv : In c (valid_df max_zn results))
      by (apply valid_df_in; split; [exact Hc|eauto]).
    specialize (Hmin c Hv). unfold Delta_50 in Hmin.
    rewrite Hzn, Hzc in Hmin. exact Hmin. }
  split.
  - exists zn. split; [exact Hzn|]. split; [exact Hle|]. split.
    + exact Hminimal.
    + intros H50 [c [Hc Hzc]].
      assert (E50 : 1 / 0.02 = 50) by lra.
      rewrite E50 in Hzc.
      pose proof (Hminimal c 50 Hc Hzc H50) as H.
      replace (50 - 50) with 0 in H by ring. rewrite Rabs_R0 in H.
      pose proof (Rabs_pos (zn - 50)) as Hp.
      assert (Hz : Rabs (zn - 50) = 0) by lra.
      destruct (Req_dec (zn - 50) 0) as [|Hne]; [lra|].
      apply Rabs_no_R0 in Hne. contradiction.
  - exact (has_aux_stub_of_candidate _ _ _ _ _ _ _ _ _ Hl Hin).
Qed.

(** ** The auxiliary line *)

(** X16. For a positive line impedance and loads of positive resistance
    [apply_aux_line] returns; it records the line, keeps the original
    loads, and the loads it hands to stage 1 still have a positive
    resistance and, with respect to the line impedance, the VSWR of the
    original loads. *)
Theorem aux_line_keeps_vswr (Z_p theta_deg : R) (d : Design) :
  0 < Z_p -> 0 < real (Z_L1_orig d) -> 0 < real (Z_L2_orig d) ->
  exists d',
    apply_aux_line Z_p theta_deg d = Ok d' /\
    aux_line_Z d' = Some Z_p /\ aux_line_theta d' = Some (radians theta_deg) /\
    Z_L1_orig d' = Z_L1_orig d /\ Z_L2_orig d' = Z_L2_orig d /\
    0 < real (Z_L1 d') /\ 0 < real (Z_L2 d') /\
    vswr_of (Z_L1 d') Z_p = vswr_of (Z_L1_orig d) Z_p /\
    vswr_of (Z_L2 d') Z_p = vswr_of (Z_L2_orig d) Z_p.
Proof.
  intros Hp H1 H2.
  assert (Hd : forall (zl : complex) (T : R), 0 < real zl ->
            Cis_zero (Z_p + Ci * zl * T)%C = false).
  { intros zl T Hr. pose proof (line_divisor_nonzero Z_p zl T) as Hn.
    cbv zeta in Hn. unfold Cis_zero.
    destruct (real (Z_p + Ci * zl * T)%C =? 0) eqn:Er; [|reflexivity].
    destruct (imag (Z_p + Ci * zl * T)%C =? 0) eqn:Ei; [|reflexivity].
    apply Reqb_true in Er, Ei. exfalso. apply Hn; [lra|lra|].
    rewrite Er, Ei. ring. }
  exists (with_aux_line Z_p theta_deg d). split.
  - unfold apply_aux_line. cbv zeta. rewrite !Hd by assumption. reflexivity.
  - assert (E1 : Z_L1 (with_aux_line Z_p theta_deg d) =
                 line_formula Z_p (Z_L1_orig d) (tan (radians theta_deg * p1 d)))
      by reflexivity.
    assert (E2 : Z_L2 (with_aux_line Z_p theta_deg d) =
                 line_formula Z_p (Z_L2_orig d) (tan (radians theta_deg * p2 d)))
      by reflexivity.
    rewrite E1, E2.
    repeat split; try (apply line_formula_real_pos; lra);
      unfold vswr_of; cbv zeta; rewrite line_formula_reflection by assumption;
      reflexivity.
Qed.

Lemma aux_line_keeps_vswr_witness :
  exists d',
    apply_aux_line 50 35 (quarter_design exD_ZL1 exD_ZL2 50) = Ok d' /\
    aux_line_Z d' = Some 50 /\ aux_line_theta d' = Some (radians 35) /\
    Z_L1_orig d' = exD_ZL1 /\ Z_L2_orig d' = exD_ZL2 /\
    0 < real (Z_L1 d') /\ 0 < real (Z_L2 d') /\
    vswr_of (Z_L1 d') 50 = vswr_of exD_ZL1 50 /\
    vswr_of (Z_L2 d') 50 = vswr_of exD_ZL2 50.
Proof.
  apply (aux_line_keeps_vswr 50 35 (quarter_design exD_ZL1 exD_ZL2 50));
    cbn; lra.
Defined.

(** ** Swapping the two bands *)

Lemma prepared_swap fa fb ZL1 ZL2 z0 theta_aux d0 d0' :
  __init__ fa fb ZL1 ZL2 z0 = Ok d0 ->
  __init__ fb fa ZL2 ZL1 z0 = Ok d0' ->
  Z_L1 (prepared theta_aux d0') = Z_L2 (prepared theta_aux d0) /\
  Z_L2 (prepared theta_aux d0') = Z_L1 (prepared theta_aux d0).
Proof.
  intros H H'.
  destruct (init_inv _ _ _ _ _ _ H) as [Hf ->].
  destruct (init_inv _ _ _ _ _ _ H') as [_ ->].
  unfold prepared. destruct (theta_aux >? 0)%Z; cbn [Z_L1 Z_L2 with_aux_line
    Z_L1_orig Z_L2_orig p1 p2]; [|split; reflexivity].
  replace (fb + fa) with (fa + fb) by ring. split; reflexivity.
Qed.

(** X13. Stage 1 does not depend on which band is called the first: at
    every grid point the call with the two bands swapped fails stage 1
    exactly when the original call does, and otherwise finds the same [Z1]
    and the same [theta1]. *)
Theorem conjugate_line_band_symmetric fa fb ZL1 ZL2 z0 theta_aux k
    d0 d0' dp dp' :
  __init__ fa fb ZL1 ZL2 z0 = Ok d0 ->
  __init__ fb fa ZL2 ZL1 z0 = Ok d0' ->
  prepare theta_aux d0 = Ok dp ->
  prepare theta_aux d0' = Ok dp' ->
  match calculate_conjugate_transform k dp,
        calculate_conjugate_transform k dp' with
  | Ok d1, Ok d1' => Z1 d1' = Z1 d1 /\ theta1 d1' = theta1 d1
  | Unsolved, Unsolved => True
  | _, _ => False
  end.
Proof.
  intros H H' Hp Hp'.
  apply prepare_Ok_inv in Hp, Hp'. subst dp dp'.
  destruct (prepared_swap _ _ _ _ _ theta_aux _ _ H H') as [E1 E2].
  exact (conjugate_transform_swap k _ _ E1 E2).
Qed.

(** ** One of the orders [sort_values] can give *)

Lemma key_leb_true (a b : option R) : key_leb a b = true -> key_le a b.
Proof.
  destruct a, b; cbn; intros H; try exact I; try discriminate.
  apply Rleb_true. exact H.
Qed.

Lemma key_leb_false (a b : option R) : key_leb a b = false -> key_le b a.
Proof.
  destruct a, b; cbn; intros H; try exact I; try discriminate.
  apply Rleb_false in H. lra.
Qed.

Lemma key_le_trans (a b c : option R) : key_le a b -> key_le b c -> key_le a c.
Proof.
  destruct a, b, c; cbn; intros H1 H2; try exact I; try contradiction. lra.
Qed.

Lemma insert_row_perm (c : Params) (l : list Params) :
  Permutation (insert_row c l) (c :: l).
Proof.
  induction l as [|c' l IH]; cbn; [reflexivity|].
  destruct (key_leb _ _); [reflexivity|].
  rewrite IH. apply perm_swap.
Qed.

Lemma insert_row_sorted (c : Params) (l : list Params) :
  StronglySorted (fun c c' => key_le (Delta_50 c) (Delta_50 c')) l ->
  StronglySorted (fun c c' => key_le (Delta_50 c) (Delta_50 c')) (insert_row c l).
Proof.
  intros Hs. induction Hs as [|c' l Hs IH Hall]; cbn.
  - constructor; constructor.
  - destruct (key_leb (Delta_50 c) (Delta_50 c')) eqn:E.
    + apply key_leb_true in E. constructor; [constructor; assumption|].
      constructor; [exact E|].
      eapply Forall_impl; [|exact Hall]. intros x Hx. cbn in Hx |- *.
      exact (key_le_trans _ _ _ E Hx).
    + apply key_leb_false in E. constructor; [exact IH|].
      apply Forall_forall. intros x Hx.
      apply (Permutation_in _ (insert_row_perm c l)) in Hx.
      destruct Hx as [<-|Hx]; [exact E|].
      rewrite Forall_forall in Hall. exact (Hall x Hx).
Qed.

Lemma sort_values_exists (df : list Params) :
  sort_values df (insertion_sort df).
Proof.
  split.
  - induction df as [|c df IH]; cbn; [reflexivity|].
    rewrite insert_row_perm, IH. reflexivity.
  - induction df as [|c df IH]; cbn; [constructor|].
    apply insert_row_sorted. exact IH.
Qed.

(** The page recommends a design as soon as one candidate meets the
    constraint. *)
Lemma page_recommends (max_zn : R) (results : list Params) (c : Params) (z : R) :
  In c results -> Z_stub c = Some z -> z <= max_zn ->
  exists table best aux, page max_zn results (Recommended table best aux).
Proof.
  intros Hc Hz Hle.
  assert (Hv : In c (valid_df max_zn results))
    by (apply valid_df_in; split; [exact Hc|eauto]).
  unfold page. destruct results as [|c0 results']; [destruct Hc|].
  set (results := c0 :: results') in *.
  destruct (valid_df max_zn results) as [|v0 valid'] eqn:Ev; [destruct Hv|].
  pose proof (sort_values_exists (v0 :: valid')) as Hs.
  destruct (insertion_sort (v0 :: valid')) as [|best rest] eqn:Es.
  { destruct Hs as [Hp _]. apply Permutation_nil in Hp. discriminate. }
  exists (best :: rest), best, (has_aux_stub best), best, rest.
  split; [exact Hs|reflexivity].
Qed.

Lemma recommended_design_witness :
  exists results table best aux,
    find_all_designs 1e9 3e9 exD_ZL1 exD_ZL2 50 true false = Ok results /\
    page 105 results (Recommended table best aux) /\
    Permutation table (valid_df 105 results) /\
    In best results /\
    (exists zn,
       Z_stub best = Some zn /\ zn <= 105 /\
       (forall c zc, In c results -> Z_stub c = Some zc -> zc <= 105 ->
                     Rabs (zn - 50) <= Rabs (zc - 50)) /\
       (50 <= 105 ->
        (exists c, In c results /\ Z_stub c = Some (1 / 0.02)) -> zn = 50)) /\
    (aux = true <-> exists ty, aux_stub_type_tag best = Some ty).
Proof.
  destruct (emitted_candidate 1e9 3e9 exD_ZL1 exD_ZL2 50 true 0 1
              exD_design) as [l [c [Hl [Hc Hcd]]]];
    [right; left; reflexivity|apply exD_design_at|].
  destruct (exD_candidate_fields c Hcd) as [_ [_ [[zn [Hz Hb]] _]]].
  destruct (page_recommends 105 l c zn Hc Hz ltac:(lra))
    as [table [best [aux Hpage]]].
  exists l, table, best, aux. split; [exact Hl|]. split; [exact Hpage|].
  exact (recommended_design _ _ _ _ _ _ _ _ _ _ _ _ Hl Hpage).
Defined.

(** ** The properties on worked inputs *)


Lemma regions_a_b_pass_stage3_witness :
  exists d2,
    check_region_and_adjust true exD_d1 = Ok d2 /\
    (region d2 = Some region_a \/ region d2 = Some region_b) /\
    Z_in_matched d2 = Some (mkC 78 0) /\
    aux_stub_type d2 = aux_stub_type exD_d1 /\
    0 < term_sqrt (mkC 78 0) (Z0 exD_d1) /\
    calculate_matching_network d2 =
    Ok (set_matching_line d2 (sqrt (term_sqrt (mkC 78 0) (Z0 exD_d1)))
          (theta_T1_rad (mkC 78 0) (Z0 exD_d1))).
Proof.
  apply (regions_a_b_pass_stage3 true exD_d1 (mkC 78 0)).
  - reflexivity.
  - cbn. lra.
  - left. rewrite norm_r_value; cbn; lra.
Defined.

Lemma tan_quarter : tan (1e9 / (1e9 + 3e9) * PI) = 1.
Proof. rewrite quarter_PI. apply tan_PI4. Qed.


Lemma aux_stub_placeholder_reach_witness :
  exists d2,
    check_region_and_adjust true exF_d1 = Ok d2 /\
    aux_stub_type d2 = Some Open /\ aux_stub_Y2 d2 = Some 0.02 /\
    region d2 = Some region_a /\
    imag (mkC 50 0) = 0 /\ Z_in_matched d2 = Some (mkC 50 0) /\
    (mkC 50 0 = RtoC (Z0 exF_d1) \/
     calculate_matching_network d2 = Unsolved).
Proof.
  apply (aux_stub_placeholder_reach exF_d1 (mkC 50 0)).
  - reflexivity.
  - cbn. lra.
  - left. cbn. lra.
  - cbn [p1 exF_d1 set_conjugate_line quarter_design].
    rewrite tan_quarter, Rabs_R1. lra.
  - rewrite norm_r_value; cbn; lra.
  - rewrite norm_g_value; cbn; lra.
  - unfold aux_Y2_open. cbn [p1 exF_d1 set_conjugate_line quarter_design].
    rewrite tan_quarter.
    replace (Rabs 1 >? 1e-9) with true
      by (symmetry; decide_test; rewrite Rabs_R1; lra).
    cbn. lra.
  - unfold aux_Y2_short. cbn [p1 exF_d1 set_conjugate_line quarter_design].
    rewrite tan_quarter. cbn. lra.
Defined.

Lemma exD_theta1 :
  theta1_rad (quarter_design exD_ZL1 exD_ZL2 50) + IZR 1 * PI = 4 * atan 2.
Proof.
  pose proof exD_stage1 as H.
  rewrite calculate_conjugate_transform_ok in H.
  - injection H as _ H _. exact H.
  - cbn. rewrite Rabs_right; lra.
  - unfold inside_sqrt. cbn. lra.
Qed.

Lemma stage1_conjugate_match_witness :
  exists z1 zin,
    Z1 exD_d1 = Some z1 /\
    theta1 exD_d1 =
      Some (theta1_rad (quarter_design exD_ZL1 exD_ZL2 50) + IZR 1 * PI) /\
    Z_in1 exD_d1 = Some zin /\
    0 < z1 /\ z1 * z1 = inside_sqrt (quarter_design exD_ZL1 exD_ZL2 50) /\
    tline_input_z exD_ZL1 z1
      ((theta1_rad (quarter_design exD_ZL1 exD_ZL2 50) + IZR 1 * PI) *
       (1e9 / (1e9 + 3e9))) = zin /\
    tline_input_z exD_ZL2 z1
      ((theta1_rad (quarter_design exD_ZL1 exD_ZL2 50) + IZR 1 * PI) *
       (3e9 / (1e9 + 3e9))) = Cconj zin.
Proof.
  pose proof cos_atan_2_bounds as Hc2.
  apply (stage1_conjugate_match 1 (quarter_design exD_ZL1 exD_ZL2 50) exD_d1
           exD_stage1).
  - right. reflexivity.
  - cbn. field.
  - cbn. lra.
  - unfold inside_sqrt. cbn. lra.
  - cbn. rewrite Rabs_right; lra.
  - rewrite exD_theta1. cbn [p1 quarter_design].
    replace (4 * atan 2 * (1e9 / (1e9 + 3e9))) with (atan 2) by field.
    rewrite Rabs_right; lra.
  - rewrite exD_theta1. cbn [p2 quarter_design].
    replace (4 * atan 2 * (3e9 / (1e9 + 3e9))) with (3 * atan 2) by field.
    rewrite cos_3_atan_2, Rabs_left; lra.
Defined.

Lemma conjugate_line_band_symmetric_witness :
  match calculate_conjugate_transform 1
          (prepared 35 (quarter_design exD_ZL1 exD_ZL2 50)),
        calculate_conjugate_transform 1
          (prepared 35
             (mkDesign 3e9 1e9 exD_ZL2 exD_ZL1 exD_ZL2 exD_ZL1 50
                (3e9 / (3e9 + 1e9)) (1e9 / (3e9 + 1e9))
                None None None None None None None None None None None None
                None None None)) with
  | Ok d1, Ok d1' => Z1 d1' = Z1 d1 /\ theta1 d1' = theta1 d1
  | Unsolved, Unsolved => True
  | _, _ => False
  end.
Proof.
  apply (conjugate_line_band_symmetric 1e9 3e9 exD_ZL1 exD_ZL2 50 35 1
           (quarter_design exD_ZL1 exD_ZL2 50)
           (mkDesign 3e9 1e9 exD_ZL2 exD_ZL1 exD_ZL2 exD_ZL1 50
              (3e9 / (3e9 + 1e9)) (1e9 / (3e9 + 1e9))
              None None None None None None None None None None None None
              None None None)).
  - apply quarter_init.
  - apply init_ok. lra.
  - apply prepare_resistive; cbn; lra.
  - apply prepare_resistive; cbn; lra.
Defined.

Lemma exD_synthesized : synthesized exD_design.
Proof.
  exact (proj1 (design_at_synthesized _ _ _ _ _ _ _ _ _ (exD_design_at true))).
Qed.

Lemma metrics_keyed_by_frequency_witness :
  exists m,
    verify_metrics exD_design = Ok m /\
    dict_get (f2 exD_design) m =
      verify_at exD_design (f2 exD_design) (Z_L2_orig exD_design) /\
    (f1 exD_design <> f2 exD_design ->
     length m = 2%nat /\
     dict_get (f1 exD_design) m =
       verify_at exD_design (f1 exD_design) (Z_L1_orig exD_design)) /\
    (f1 exD_design = f2 exD_design ->
     length m = 1%nat /\
     dict_get (f1 exD_design) m =
       verify_at exD_design (f2 exD_design) (Z_L2_orig exD_design)) /\
    (forall f, f <> f1 exD_design -> f <> f2 exD_design ->
               dict_get f m = Raised) /\
    (f1 exD_design = f2 exD_design ->
     forall c, candidate_of (f1 exD_design) (f2 exD_design) exD_design = Ok c ->
               VSWR_f1 c = VSWR_f2 c).
Proof.
  destruct (verify_metrics exD_design) as [m| |] eqn:E.
  - exists m. split; [reflexivity|].
    exact (metrics_keyed_by_frequency exD_design m E).
  - exfalso. unfold verify_metrics in E.
    rewrite !(verify_at_synthesized exD_design _ _ _ _ _ _ exD_synthesized
                eq_refl eq_refl eq_refl eq_refl) in E. discriminate.
  - exfalso. unfold verify_metrics in E.
    rewrite !(verify_at_synthesized exD_design _ _ _ _ _ _ exD_synthesized
                eq_refl eq_refl eq_refl eq_refl) in E. discriminate.
Defined.

Lemma tline_keeps_vswr_witness :
  vswr_of (tline_input_z (mkC 25 10) 50 (PI / 4)) 50 = vswr_of (mkC 25 10) 50.
Proof.
  pose proof sin_PI4_bounds as Hs.
  apply tline_keeps_vswr.
  - lra.
  - cbn. lra.
  - right. rewrite cos_PI4_eq_sin, Rabs_right; lra.
Defined.

(** ** Stage 4: which stub the pi-network gets *)

Lemma pi_susceptance_sign (p zt th : R) :
  0 < p < 1 / 2 -> 0 < zt -> 0 < th < PI ->
  0 < sin (p * PI) /\ 0 < tan (p * PI) /\ 0 < pi_Z_m p zt th /\
  (p * PI < th -> 0 < pi_B_n1 p zt th) /\
  (th < p * PI -> pi_B_n1 p zt th < 0) /\
  (th = p * PI -> pi_B_n1 p zt th = 0).
Proof.
  intros Hp Hzt Hth. pose proof PI_RGT_0 as HPI.
  assert (Hrange : 0 < p * PI < PI / 2) by nra.
  assert (Hs : 0 < sin (p * PI)) by (apply sin_gt_0; lra).
  assert (Hc : 0 < cos (p * PI)) by (apply cos_gt_0; lra).
  assert (Ht : 0 < tan (p * PI)) by (unfold tan; apply Rdiv_lt_0_compat; assumption).
  assert (Hst : 0 < sin th) by (apply sin_gt_0; lra).
  assert (Hm : 0 < pi_Z_m p zt th).
  { unfold pi_Z_m. apply Rdiv_lt_0_compat; [|exact Hs].
    apply Rmult_lt_0_compat; assumption. }
  assert (Hden : 0 < pi_Z_m p zt th * sin (p * PI))
    by (apply Rmult_lt_0_compat; assumption).
  repeat split; try assumption.
  - intros Hlt. unfold pi_B_n1. apply Rdiv_lt_0_compat; [|exact Hden].
    assert (cos th < cos (p * PI)) by (apply cos_decreasing_1; lra). lra.
  - intros Hlt. unfold pi_B_n1.
    assert (Hcos : cos (p * PI) < cos th) by (apply cos_decreasing_1; lra).
    assert (Hq : (cos (p * PI) - cos th) / (pi_Z_m p zt th * sin (p * PI)) =
                 - ((cos th - cos (p * PI)) / (pi_Z_m p zt th * sin (p * PI))))
      by (field; lra).
    rewrite Hq.
    assert (0 < (cos th - cos (p * PI)) / (pi_Z_m p zt th * sin (p * PI)))
      by (apply Rdiv_lt_0_compat; lra).
    lra.
  - intros ->. unfold pi_B_n1. unfold Rdiv. ring.
Qed.

(** X18. The stub of the pi-network for [f1 < f2] ([0 < p1 < 1/2], the
    tangent outside its clamp), a positive [Z_T1] and [theta_T1] in
    (0, pi): [Z_m] is positive, with
    [Z_m sin (p1 pi) = Z_T1 sin theta_T1]; the stub is open when
    [theta_T1 > p1 pi] and short when [theta_T1 < p1 pi], each with the
    positive admittance that realizes the susceptance
    [(cos (p1 pi) - cos theta_T1) / (Z_m sin (p1 pi))]; at
    [theta_T1 = p1 pi] that susceptance is 0 and the code stores the
    placeholder 0.02. *)
Theorem pi_stub_rule (d : Design) (zt th : R) :
  Z_T1 d = Some zt -> theta_T1 d = Some th ->
  0 < p1 d < 1 / 2 -> 1e-9 < tan (p1 d * PI) ->
  0 < zt -> 0 < th < PI ->
  exists d' zm yn,
    synthesize_pi_network d = Ok d' /\
    Z_m d' = Some zm /\ 0 < zm /\ zm * sin (p1 d * PI) = zt * sin th /\
    Y_n d' = Some yn /\ 0 < yn /\
    (p1 d * PI < th ->
     stub_type d' = Some Open /\
     yn * tan (p1 d * PI) * (zm * sin (p1 d * PI)) = cos (p1 d * PI) - cos th) /\
    (th < p1 d * PI ->
     stub_type d' = Some Short /\
     yn * (zm * sin (p1 d * PI)) = (cos th - cos (p1 d * PI)) * tan (p1 d * PI)) /\
    (th = p1 d * PI -> stub_type d' = Some Open /\ yn = 0.02).
Proof.
  intros Hzt Hth Hp Htan Hz Hrange.
  destruct (pi_susceptance_sign (p1 d) zt th Hp Hz Hrange)
    as [Hs [Ht [Hm [Hpos [Hneg Hzero]]]]].
  rewrite (synthesize_pi_network_ok d zt th Hzt Hth).
  do 3 eexists. split; [reflexivity|].
  cbn [Z_m Y_n stub_type set_pi_network].
  split; [reflexivity|]. split; [exact Hm|].
  split; [unfold pi_Z_m; field; lra|].
  split; [reflexivity|]. split; [apply pi_Y_n_pos|].
  assert (Hopen : pi_Y_open (p1 d) zt th = pi_B_n1 (p1 d) zt th / tan (p1 d * PI)).
  { unfold pi_Y_open.
    replace (Rabs (tan (p1 d * PI)) >? 1e-9) with true; [reflexivity|].
    symmetry; decide_test. rewrite Rabs_right; lra. }
  assert (HB : pi_B_n1 (p1 d) zt th * (pi_Z_m (p1 d) zt th * sin (p1 d * PI)) =
               cos (p1 d * PI) - cos th).
  { unfold pi_B_n1. field. split; lra. }
  split; [|split].
  - intros Hlt. specialize (Hpos Hlt).
    assert (Hy : 0 < pi_Y_open (p1 d) zt th)
      by (rewrite Hopen; apply Rdiv_lt_0_compat; assumption).
    unfold pi_stub_type, pi_Y_n.
    replace (pi_Y_open (p1 d) zt th >? 0) with true
      by (symmetry; decide_test; exact Hy).
    split; [reflexivity|]. rewrite Hopen, <- HB. field. lra.
  - intros Hlt. specialize (Hneg Hlt).
    assert (Hy : pi_Y_open (p1 d) zt th <= 0).
    { rewrite Hopen.
      assert (Hq : pi_B_n1 (p1 d) zt th / tan (p1 d * PI) =
                   - (- pi_B_n1 (p1 d) zt th / tan (p1 d * PI))) by (field; lra).
      rewrite Hq.
      assert (0 < - pi_B_n1 (p1 d) zt th / tan (p1 d * PI))
        by (apply Rdiv_lt_0_compat; lra).
      lra. }
    assert (Hsh : 0 < pi_Y_short (p1 d) zt th)
      by (unfold pi_Y_short; apply Rmult_lt_0_compat; lra).
    unfold pi_stub_type, pi_Y_n.
    replace (pi_Y_open (p1 d) zt th >? 0) with false
      by (symmetry; decide_test; exact Hy).
    replace (pi_Y_short (p1 d) zt th >? 0) with true
      by (symmetry; decide_test; exact Hsh).
    split; [reflexivity|]. unfold pi_Y_short.
    replace (- pi_B_n1 (p1 d) zt th * tan (p1 d * PI) *
             (pi_Z_m (p1 d) zt th * sin (p1 d * PI)))
      with (- (pi_B_n1 (p1 d) zt th * (pi_Z_m (p1 d) zt th * sin (p1 d * PI))) *
            tan (p1 d * PI)) by ring.
    rewrite HB. ring.
  - intros He. specialize (Hzero He).
    assert (Hy : pi_Y_open (p1 d) zt th <= 0)
      by (rewrite Hopen, Hzero; unfold Rdiv; lra).
    assert (Hsh : pi_Y_short (p1 d) zt th <= 0)
      by (unfold pi_Y_short; rewrite Hzero; lra).
    destruct (pi_fallback_is_placeholder _ _ _ Hy Hsh) as [_ [A B]].
    rewrite A, B. split; reflexivity.
Qed.

Lemma pi_stub_rule_witness :
  exists d' zm yn,
    synthesize_pi_network exD_d3 = Ok d' /\
    Z_m d' = Some zm /\ 0 < zm /\
    zm * sin (p1 exD_d3 * PI) = sqrt (term_sqrt (mkC 78 0) 50) * sin (PI / 2) /\
    Y_n d' = Some yn /\ 0 < yn /\
    (p1 exD_d3 * PI < PI / 2 ->
     stub_type d' = Some Open /\
     yn * tan (p1 exD_d3 * PI) * (zm * sin (p1 exD_d3 * PI)) =
     cos (p1 exD_d3 * PI) - cos (PI / 2)) /\
    (PI / 2 < p1 exD_d3 * PI ->
     stub_type d' = Some Short /\
     yn * (zm * sin (p1 exD_d3 * PI)) =
     (cos (PI / 2) - cos (p1 exD_d3 * PI)) * tan (p1 exD_d3 * PI)) /\
    (PI / 2 = p1 exD_d3 * PI -> stub_type d' = Some Open /\ yn = 0.02).
Proof.
  pose proof PI_RGT_0 as HPI.
  apply (pi_stub_rule exD_d3 (sqrt (term_sqrt (mkC 78 0) 50)) (PI / 2)).
  - reflexivity.
  - reflexivity.
  - cbn. lra.
  - cbn [p1 exD_d3 exD_d2 exD_d1 set_matching_line set_region
         set_conjugate_line quarter_design].
    rewrite tan_quarter. lra.
  - apply sqrt_lt_R0. rewrite exD_term_sqrt. lra.
  - lra.
Defined.

(** ** The VSWR of a passive impedance *)

Lemma Cabs_zero_iff (z : complex) : Cabs z = 0 <-> z = RtoC 0.
Proof.
  unfold Cabs. split.
  - intros H. apply sqrt_eq_0 in H; [|nra].
    apply complex_eq; cbn; nra.
  - intros ->. cbn. replace (0 * 0 + 0 * 0) with 0 by ring. apply sqrt_0.
Qed.

(** X19. For a positive [Z0] and an impedance of positive resistance
    the VSWR formula gives 1 exactly on [z = Z0], and the same value on
    [z] and on its conjugate. *)
Theorem vswr_one_iff_matched (z : complex) (z0 : R) :
  0 < z0 -> 0 < real z ->
  (vswr_of z z0 = 1 <-> z = RtoC z0) /\
  vswr_of (Cconj z) z0 = vswr_of z z0.
Proof.
  intros H0 Hz. split.
  - split.
    + intros Hv. unfold vswr_of in Hv. cbv zeta in Hv.
      assert (H : 0 <= Cabs ((z - z0) / (z + z0))%C < 1).
      { apply Cabs_div_lt_1. destruct z as [a b]. cbn in *. nra. }
      set (r := Cabs ((z - z0) / (z + z0))%C) in *.
      assert (Hr : r = 0).
      { assert (Hq : (1 + r) / (1 - r) * (1 - r) = 1 + r) by (field; lra).
        rewrite Hv in Hq. lra. }
      unfold r in Hr. apply Cabs_zero_iff in Hr.
      assert (Hn : real (z + z0)%C * real (z + z0)%C +
                   imag (z + z0)%C * imag (z + z0)%C <> 0)
        by (apply passive_sum_nonzero; assumption).
      pose proof (Cdiv_mul (z - z0)%C (z + z0)%C Hn) as Hm.
      rewrite Hr in Hm. destruct z as [a b].
      apply (f_equal real) in Hm as Hre. apply (f_equal imag) in Hm as Him.
      cbn in Hre, Him. apply complex_eq; cbn; lra.
    + intros ->. apply vswr_of_matched. lra.
  - unfold vswr_of. cbv zeta.
    assert (H : Cabs ((Cconj z - z0) / (Cconj z + z0))%C =
                Cabs ((z - z0) / (z + z0))%C).
    { apply Cabs_ratio_eq; try (apply passive_sum_nonzero; assumption).
      destruct z as [a b]. cbn. ring. }
    rewrite H. reflexivity.
Qed.

Lemma vswr_one_iff_matched_witness :
  (vswr_of (mkC 25 10) 50 = 1 <-> mkC 25 10 = RtoC 50) /\
  vswr_of (Cconj (mkC 25 10)) 50 = vswr_of (mkC 25 10) 50.
Proof. apply vswr_one_iff_matched; cbn; lra. Defined.

(** ** Shunt stubs keep the conductance *)

Lemma Cinv_involutive (w : complex) :
  real w * real w + imag w * imag w <> 0 -> (1 / (1 / w))%C = w.
Proof.
  intros H. destruct w as [a b]. cbn [real imag] in H.
  rewrite Cinv_components.
  apply complex_eq; cbn [real imag Cdiv RtoC]; field; exact H.
Qed.

(** X21. A shunt stub keeps the conductance: in every branch
    [stub_admittance] returns a purely imaginary admittance, so that for
    an impedance of positive resistance the step [1 / (1 / z + y_stub)] of
    the replay leaves the real part of the admittance as it was, adds the
    susceptance of the stub to its imaginary part, and ends on an
    impedance of positive resistance again. *)
Theorem stub_keeps_conductance (z : complex) (y_c theta : R) (is_open : bool) :
  0 < real z ->
  let y := stub_admittance y_c theta is_open in
  real y = 0 /\
  real (1 / shunt z y)%C = real (1 / z)%C /\
  imag (1 / shunt z y)%C = imag (1 / z)%C + imag y /\
  0 < real (shunt z y).
Proof.
  intros Hz y.
  assert (Hy : real y = 0) by apply stub_admittance_real.
  assert (HG : 0 < real (1 / z)%C) by (apply Cinv_real_pos; exact Hz).
  assert (Hn : real (1 / z + y)%C * real (1 / z + y)%C +
               imag (1 / z + y)%C * imag (1 / z + y)%C <> 0).
  { apply sumsq_nonzero_l. cbn [real Cadd]. rewrite Hy. lra. }
  unfold shunt. rewrite (Cinv_involutive _ Hn).
  split; [exact Hy|]. split; [cbn [real Cadd]; rewrite Hy; ring|].
  split; [reflexivity|].
  apply shunt_real_pos; assumption.
Qed.

Lemma stub_keeps_conductance_witness :
  real (stub_admittance 0.02 (PI / 4) true) = 0 /\
  real (1 / shunt (mkC 20 30) (stub_admittance 0.02 (PI / 4) true))%C =
    real (1 / mkC 20 30)%C /\
  imag (1 / shunt (mkC 20 30) (stub_admittance 0.02 (PI / 4) true))%C =
    imag (1 / mkC 20 30)%C + imag (stub_admittance 0.02 (PI / 4) true) /\
  0 < real (shunt (mkC 20 30) (stub_admittance 0.02 (PI / 4) true)).
Proof. apply (stub_keeps_conductance (mkC 20 30) 0.02 (PI / 4) true). cbn. lra. Defined.

(** ** The switch of the auxiliary stub only matters in region (c) *)

Lemma later_stages_keep_region (d2 d3 d : Design) :
  calculate_matching_network d2 = Ok d3 ->
  synthesize_pi_network d3 = Ok d ->
  region d = region d2 /\ aux_stub_type d = aux_stub_type d2.
Proof.
  intros H3 H4.
  unfold calculate_matching_network in H3. inv_bind H3.
  destruct (_ <? _) in H3_r; [discriminate|]. injection H3_r as <-.
  match type of H4 with synthesize_pi_network (set_matching_line ?d' ?zt ?th) = _ =>
    rewrite (synthesize_pi_network_ok (set_matching_line d' zt th) zt th
               eq_refl eq_refl) in H4
  end.
  injection H4 as <-. split; reflexivity.
Qed.

Lemma check_region_switch (allow allow' : bool) (d1 d2 : Design) (zin : complex) :
  Z_in1 d1 = Some zin ->
  aux_stub_type d1 = None ->
  check_region_and_adjust allow d1 = Ok d2 ->
  region d2 <> Some region_c -> aux_stub_type d2 = None ->
  check_region_and_adjust allow' d1 = Ok d2.
Proof.
  intros Hz Hn H Hr Hs.
  destruct (check_region_cases allow d1 zin Hz)
    as [[C E]|[[C1 [C2 E]]|[[_ [_ [_ E]]]|[_ [_ [_ E]]]]]]; rewrite E in H.
  - injection H as <-. apply (check_region_a allow' d1 zin Hz C).
  - injection H as <-. apply (check_region_b allow' d1 zin Hz C1 C2).
  - injection H as <-. exfalso. apply Hr. reflexivity.
  - exfalso.
    match type of H with _add_auxiliary_stub ?d' = _ =>
      destruct (add_auxiliary_stub_cases d' zin Hz)
        as [[_ E']|[[_ [_ E']]|[_ [_ E']]]]; rewrite E' in H
    end; injection H as <-; discriminate.
Qed.

Lemma design_at_switch fa fb ZL1 ZL2 z0 allow allow' theta_aux k d :
  design_at fa fb ZL1 ZL2 z0 allow theta_aux k = Ok d ->
  region d <> Some region_c -> aux_stub_type d = None ->
  design_at fa fb ZL1 ZL2 z0 allow' theta_aux k = Ok d.
Proof.
  intros H Hr Hs. unfold design_at in H |- *.
  inv_bind H. rewrite H_l. cbn [bind].
  inv_bind H_r. rewrite H_r_l. cbn [bind].
  inv_bind H_r_r. rewrite H_r_r_l. cbn [bind].
  inv_bind H_r_r_r. inv_bind H_r_r_r_r.
  destruct (later_stages_keep_region _ _ _ H_r_r_r_r_l H_r_r_r_r_r) as [R1 R2].
  assert (Hz : exists zin, Z_in1 a1 = Some zin /\ aux_stub_type a1 = None).
  { destruct (calculate_conjugate_transform_cases k a0) as [[E _]|[E _]];
      rewrite E in H_r_r_l; [discriminate|]. injection H_r_r_l as <-.
    eexists. split; [reflexivity|]. cbn.
    destruct (init_inv _ _ _ _ _ _ H_l) as [_ ->].
    destruct (theta_aux >? 0)%Z.
    - unfold apply_aux_line in H_r_l. cbv zeta in H_r_l.
      destruct (Cis_zero _) in H_r_l; [discriminate|].
      destruct (Cis_zero _) in H_r_l; [discriminate|].
      injection H_r_l as <-. reflexivity.
    - injection H_r_l as <-. reflexivity. }
  destruct Hz as [zin [Hz Hn]].
  rewrite (check_region_switch allow allow' a1 a2 zin Hz Hn H_r_r_r_l)
    by (rewrite <- ?R1, <- ?R2; assumption).
  cbn [bind]. rewrite H_r_r_r_r_l. cbn [bind]. exact H_r_r_r_r_r.
Qed.

Lemma run_point_switch fa fb ZL1 ZL2 z0 allow allow' pt c :
  run_point fa fb ZL1 ZL2 z0 allow pt = Ok c ->
  region_tag c <> Some region_c -> aux_stub_type_tag c = None ->
  run_point fa fb ZL1 ZL2 z0 allow' pt = Ok c.
Proof.
  intros H Hr Hs. unfold run_point in H |- *. inv_bind H.
  destruct (candidate_of_design _ _ _ _ _ _ _ _ _ _ H_l H_r)
    as [z1 [th1 [yn [zm [_ [_ [_ [_ [Hreg [_ [_ [_ [_ [_ [Hst _]]]]]]]]]]]]]]].
  rewrite Hreg in Hr. rewrite Hst in Hs.
  rewrite (design_at_switch _ _ _ _ _ allow allow' _ _ _ H_l Hr Hs).
  cbn [bind]. exact H_r.
Qed.

(** X22. The switch [allow_aux_stub] only matters in region (c): a
    candidate that carries no auxiliary stub and is not tagged 'c' is
    reported at the same grid point, unchanged, whatever the switch is, so
    that the searches with and without the switch share these
    candidates. *)
Theorem allow_aux_stub_only_in_region_c fa fb ZL1 ZL2 z0 allow allow' scan
    l l' c :
  find_all_designs fa fb ZL1 ZL2 z0 allow scan = Ok l ->
  find_all_designs fa fb ZL1 ZL2 z0 allow' scan = Ok l' ->
  In c l ->
  region_tag c <> Some region_c -> aux_stub_type_tag c = None ->
  In c l' /\
  exists pt, In pt (grid scan) /\
             run_point fa fb ZL1 ZL2 z0 allow pt = Ok c /\
             run_point fa fb ZL1 ZL2 z0 allow' pt = Ok c.
Proof.
  intros Hl Hl' Hc Hr Hs.
  apply (find_all_designs_inv _ _ _ _ _ _ _ _ Hl) in Hc.
  destruct Hc as [pt [Hg Hrun]].
  pose proof (run_point_switch _ _ _ _ _ allow allow' _ _ Hrun Hr Hs) as Hrun'.
  split.
  - apply (find_all_designs_inv _ _ _ _ _ _ _ _ Hl'). eauto.
  - eauto.
Qed.

Lemma allow_aux_stub_only_in_region_c_witness :
  exists l l' c,
    find_all_designs 1e9 3e9 exD_ZL1 exD_ZL2 50 true false = Ok l /\
    find_all_designs 1e9 3e9 exD_ZL1 exD_ZL2 50 false false = Ok l' /\
    In c l /\
    In c l' /\
    exists pt, In pt (grid false) /\
               run_point 1e9 3e9 exD_ZL1 exD_ZL2 50 true pt = Ok c /\
               run_point 1e9 3e9 exD_ZL1 exD_ZL2 50 false pt = Ok c.
Proof.
  destruct (emitted_candidate 1e9 3e9 exD_ZL1 exD_ZL2 50 true 0 1
              exD_design) as [l [c [Hl [Hc Hcd]]]];
    [right; left; reflexivity|apply exD_design_at|].
  destruct (find_all_designs_spec 1e9 3e9 exD_ZL1 exD_ZL2 50 false false)
    as [l' [Hl' _]]; [lra|left; reflexivity|].
  destruct (candidate_of_design _ _ _ _ _ _ _ _ _ _ (exD_design_at true) Hcd)
    as [z1 [th1 [yn [zm [_ [_ [_ [_ [Hreg [_ [_ [_ [_ [_ [Hst _]]]]]]]]]]]]]]].
  exists l, l', c. split; [exact Hl|]. split; [exact Hl'|]. split; [exact Hc|].
  apply (allow_aux_stub_only_in_region_c _ _ _ _ _ _ _ _ _ _ _ Hl Hl' Hc).
  - rewrite Hreg. discriminate.
  - rewrite Hst. reflexivity.
Defined.

(** ** Only the ratio of the two frequencies matters *)

Lemma omap_bind {A B C : Type} (f : B -> C) (m : outcome A) (k : A -> outcome B) :
  omap f (bind m k) = bind m (fun a => omap f (k a)).
Proof. destruct m; reflexivity. Qed.

Lemma init_rescale (s fa fb : R) (ZL1 ZL2 : complex) (z0 : R) :
  s <> 0 ->
  __init__ (s * fa) (s * fb) ZL1 ZL2 z0 =
  omap (rescale s) (__init__ fa fb ZL1 ZL2 z0).
Proof.
  intros Hs. unfold __init__.
  case_test (fa + fb =? 0).
  - replace (s * fa + s * fb =? 0) with true; [reflexivity|].
    symmetry; decide_test. nra.
  - assert (Hsum : s * fa + s * fb <> 0).
    { intros H. apply E. apply (Rmult_eq_reg_l s); [|exact Hs]. lra. }
    replace (s * fa + s * fb =? 0) with false
      by (symmetry; decide_test; exact Hsum).
    cbn [omap]. unfold rescale. cbn.
    replace (s * fa / (s * fa + s * fb)) with (fa / (fa + fb))
      by (field; split; assumption).
    replace (s * fb / (s * fa + s * fb)) with (fb / (fa + fb))
      by (field; split; assumption).
    reflexivity.
Qed.

Ltac split_tests :=
  repeat match goal with
         | |- context [if ?c then _ else _] => destruct c
         end.

Lemma apply_aux_line_rescale (s Z_p theta_deg : R) (d : Design) :
  apply_aux_line Z_p theta_deg (rescale s d) =
  omap (rescale s) (apply_aux_line Z_p theta_deg d).
Proof.
  unfold apply_aux_line. cbv zeta. cbn [rescale Z_L1_orig Z_L2_orig p1 p2].
  split_tests; reflexivity.
Qed.

Lemma calculate_conjugate_transform_rescale (s : R) (k : Z) (d : Design) :
  calculate_conjugate_transform k (rescale s d) =
  omap (rescale s) (calculate_conjugate_transform k d).
Proof.
  unfold calculate_conjugate_transform. cbv zeta.
  change (inside_sqrt (rescale s d)) with (inside_sqrt d).
  change (theta1_rad (rescale s d)) with (theta1_rad d).
  cbn [rescale Z_L1 Z_L2 p1 p2].
  split_tests; reflexivity.
Qed.

Lemma add_auxiliary_stub_rescale (s : R) (d : Design) :
  _add_auxiliary_stub (rescale s d) = omap (rescale s) (_add_auxiliary_stub d).
Proof.
  unfold _add_auxiliary_stub. cbn [rescale Z_in1 p1].
  destruct (Z_in1 d); [|reflexivity]. cbn [need bind].
  split_tests; reflexivity.
Qed.

Lemma check_region_rescale (s : R) (allow : bool) (d : Design) :
  check_region_and_adjust allow (rescale s d) =
  omap (rescale s) (check_region_and_adjust allow d).
Proof.
  unfold check_region_and_adjust. cbn [rescale Z_in1 Z0 aux_stub_type aux_stub_Y2].
  destruct (Z_in1 d) as [zin|]; [|reflexivity]. cbn [need bind].
  destruct (_ >? 1); [reflexivity|]. destruct (_ >? 1); [reflexivity|].
  destruct allow; [|reflexivity].
  rewrite <- add_auxiliary_stub_rescale. reflexivity.
Qed.

Lemma calculate_matching_network_rescale (s : R) (d : Design) :
  calculate_matching_network (rescale s d) =
  omap (rescale s) (calculate_matching_network d).
Proof.
  unfold calculate_matching_network. cbn [rescale Z_in_matched Z0].
  destruct (Z_in_matched d); [|reflexivity]. cbn [need bind].
  split_tests; reflexivity.
Qed.

Lemma synthesize_pi_network_rescale (s : R) (d : Design) :
  synthesize_pi_network (rescale s d) =
  omap (rescale s) (synthesize_pi_network d).
Proof.
  unfold synthesize_pi_network. cbn [rescale Z_T1 theta_T1 p1].
  destruct (Z_T1 d); [|reflexivity]. destruct (theta_T1 d); [|reflexivity].
  cbn [need bind]. split_tests; reflexivity.
Qed.

Lemma bind_omap {A B C : Type} (f : A -> B) (m : outcome A) (k : B -> outcome C) :
  bind (omap f m) k = bind m (fun a => k (f a)).
Proof. destruct m; reflexivity. Qed.

Lemma bind_ext {A B : Type} (m : outcome A) (k k' : A -> outcome B) :
  (forall a, k a = k' a) -> bind m k = bind m k'.
Proof. intros H. destruct m; cbn; auto. Qed.

Lemma design_at_rescale (s fa fb : R) (ZL1 ZL2 : complex) (z0 : R)
    (allow : bool) (theta_aux k : Z) :
  s <> 0 ->
  design_at (s * fa) (s * fb) ZL1 ZL2 z0 allow theta_aux k =
  omap (rescale s) (design_at fa fb ZL1 ZL2 z0 allow theta_aux k).
Proof.
  intros Hs. unfold design_at.
  rewrite (init_rescale s fa fb ZL1 ZL2 z0 Hs), bind_omap, omap_bind.
  apply bind_ext. intros d0.
  assert (Hp : (if (theta_aux >? 0)%Z
                then apply_aux_line 50 (IZR theta_aux) (rescale s d0)
                else Ok (rescale s d0)) =
               omap (rescale s)
                 (if (theta_aux >? 0)%Z then apply_aux_line 50 (IZR theta_aux) d0
                  else Ok d0)).
  { destruct (theta_aux >? 0)%Z; [apply apply_aux_line_rescale|reflexivity]. }
  rewrite Hp, bind_omap, omap_bind. apply bind_ext. intros dp.
  rewrite calculate_conjugate_transform_rescale, bind_omap, omap_bind.
  apply bind_ext. intros d1.
  rewrite check_region_rescale, bind_omap, omap_bind.
  apply bind_ext. intros d2.
  rewrite calculate_matching_network_rescale, bind_omap, omap_bind.
  apply bind_ext. intros d3.
  apply synthesize_pi_network_rescale.
Qed.

Lemma get_design_parameters_rescale (s : R) (d : Design) :
  get_design_parameters (rescale s d) =
  omap (rescale_params s) (get_design_parameters d).
Proof.
  unfold get_design_parameters.
  cbn [rescale theta1 aux_line_theta aux_stub_Y2 aux_line_Z f1 f2 region Z1 Z_m
       Z_n stub_type aux_stub_type].
  destruct (theta1 d); [|reflexivity]. cbn [need bind].
  destruct (truthy (aux_line_theta d));
    [destruct (aux_line_theta d); [|reflexivity]|]; cbn [need bind];
    (destruct (truthy (aux_stub_Y2 d));
     [destruct (aux_stub_Y2 d); [|reflexivity]|]); cbn [need bind omap];
    unfold rescale_params; cbn; f_equal; f_equal; ring.
Qed.

Lemma verify_at_rescale (s : R) (d : Design) (f : R) (zl : complex) :
  s <> 0 ->
  verify_at (rescale s d) (s * f) zl = verify_at d f zl.
Proof.
  intros Hs. unfold verify_at.
  cbn [rescale f1 f2 aux_line_Z aux_line_theta theta1 Z1 aux_stub_type
       aux_stub_Y2 Y_n stub_type Z_m Z0].
  case_test (f1 d + f2 d =? 0).
  - replace (s * f1 d + s * f2 d =? 0) with true; [reflexivity|].
    symmetry; decide_test. nra.
  - assert (Hsum : s * f1 d + s * f2 d <> 0).
    { intros H. apply E. apply (Rmult_eq_reg_l s); [|exact Hs]. lra. }
    replace (s * f1 d + s * f2 d =? 0) with false
      by (symmetry; decide_test; exact Hsum).
    replace (s * f / (s * f1 d + s * f2 d)) with (f / (f1 d + f2 d))
      by (field; split; assumption).
    reflexivity.
Qed.

Lemma Reqb_scale (s x y : R) : s <> 0 -> (s * x =? s * y) = (x =? y).
Proof.
  intros Hs. case_test (x =? y).
  - decide_test. rewrite E. reflexivity.
  - decide_test. intros H. apply E. apply (Rmult_eq_reg_l s); assumption.
Qed.

Lemma candidate_of_rescale (s fa fb : R) (d : Design) :
  s <> 0 ->
  candidate_of (s * fa) (s * fb) (rescale s d) =
  omap (rescale_params s) (candidate_of fa fb d).
Proof.
  intros Hs. unfold candidate_of.
  rewrite get_design_parameters_rescale, bind_omap, omap_bind.
  apply bind_ext. intros params.
  change (verify_metrics (rescale s d))
    with (v1 <- verify_at (rescale s d) (s * f1 d) (Z_L1_orig d) ;;
          v2 <- verify_at (rescale s d) (s * f2 d) (Z_L2_orig d) ;;
          Ok (dict_set (s * f2 d) v2 (dict_set (s * f1 d) v1 []))).
  unfold verify_metrics.
  rewrite !(verify_at_rescale s d) by exact Hs.
  destruct (verify_at d (f1 d) (Z_L1_orig d)) as [v1| |]; try reflexivity.
  destruct (verify_at d (f2 d) (Z_L2_orig d)) as [v2| |]; try reflexivity.
  cbn [bind dict_set].
  rewrite (Reqb_scale s (f1 d) (f2 d) Hs).
  destruct (f1 d =? f2 d); cbn [dict_get];
    rewrite ?(Reqb_scale s) by exact Hs.
  - destruct (f1 d =? fa); cbn [bind]; [|reflexivity].
    destruct (f1 d =? fb); reflexivity.
  - destruct (f1 d =? fa); cbn [bind].
    + destruct (f1 d =? fb); [reflexivity|].
      destruct (f2 d =? fb); reflexivity.
    + destruct (f2 d =? fa); cbn [bind]; [|reflexivity].
      destruct (f1 d =? fb); [reflexivity|].
      destruct (f2 d =? fb); reflexivity.
Qed.

Lemma run_point_rescale (s fa fb : R) (ZL1 ZL2 : complex) (z0 : R)
    (allow : bool) (pt : Z * Z) :
  s <> 0 ->
  run_point (s * fa) (s * fb) ZL1 ZL2 z0 allow pt =
  omap (rescale_params s) (run_point fa fb ZL1 ZL2 z0 allow pt).
Proof.
  intros Hs. unfold run_point.
  rewrite (design_at_rescale s) by exact Hs.
  rewrite bind_omap, omap_bind. apply bind_ext. intros d.
  apply candidate_of_rescale. exact Hs.
Qed.

Lemma search_loop_map (f : Params -> Params) (body body' : Z * Z -> outcome Params)
    (pts : list (Z * Z)) (acc : list Params) :
  (forall pt, body' pt = omap f (body pt)) ->
  search_loop body' pts (map f acc) = omap (map f) (search_loop body pts acc).
Proof.
  intros H. revert acc. induction pts as [|pt pts IH]; intros acc; cbn [search_loop].
  - reflexivity.
  - rewrite H. destruct (body pt) as [c| |]; cbn [omap]; try reflexivity.
    + rewrite <- IH, map_app. reflexivity.
    + apply IH.
Qed.

(** X23. Only the ratio of the two frequencies matters: multiplying both
    frequencies by the same non-zero factor gives the same outcome of the
    search, exception or list, and in the list the same candidates, in the
    same order, with [f_design] multiplied by the factor and every other
    entry unchanged. *)
Theorem search_depends_on_frequency_ratio (s fa fb : R) (ZL1 ZL2 : complex)
    (z0 : R) (allow scan : bool) :
  s <> 0 ->
  find_all_designs (s * fa) (s * fb) ZL1 ZL2 z0 allow scan =
  match find_all_designs fa fb ZL1 ZL2 z0 allow scan with
  | Ok l => Ok (map (rescale_params s) l)
  | Unsolved => Unsolved
  | Raised => Raised
  end.
Proof.
  intros Hs. unfold find_all_designs.
  change (@nil Params) with (map (rescale_params s) []) at 1.
  rewrite (search_loop_map (rescale_params s)
             (run_point fa fb ZL1 ZL2 z0 allow)).
  - destruct (search_loop _ _ _); reflexivity.
  - intros pt. apply run_point_rescale. exact Hs.
Qed.

Lemma search_depends_on_frequency_ratio_witness :
  find_all_designs (2 * 1e9) (2 * 3e9) exD_ZL1 exD_ZL2 50 true true =
  match find_all_designs 1e9 3e9 exD_ZL1 exD_ZL2 50 true true with
  | Ok l => Ok (map (rescale_params 2) l)
  | Unsolved => Unsolved
  | Raised => Raised
  end.
Proof. apply search_depends_on_frequency_ratio. lra. Defined.

(** ** When a conjugate line exists *)

Lemma inside_sqrt_identity (d : Design) :
  real (Z_L2 d) - real (Z_L1 d) <> 0 ->
  inside_sqrt d * (real (Z_L2 d) - real (Z_L1 d)) =
  real (Z_L1 d) * (real (Z_L2 d) * real (Z_L2 d) + imag (Z_L2 d) * imag (Z_L2 d)) -
  real (Z_L2 d) * (real (Z_L1 d) * real (Z_L1 d) + imag (Z_L1 d) * imag (Z_L1 d)).
Proof. intros H. unfold inside_sqrt. cbv zeta. field. exact H. Qed.



(** ** Searches that end without a candidate, or with an exception *)

Lemma run_point_no_line fa fb ZL1 ZL2 z0 allow k :
  fa + fb <> 0 ->
  Rabs (real ZL2 - real ZL1) < 1e-6 \/
  (real ZL2 - real ZL1) *
    (real ZL1 * (real ZL2 * real ZL2 + imag ZL2 * imag ZL2) -
     real ZL2 * (real ZL1 * real ZL1 + imag ZL1 * imag ZL1)) < 0 ->
  run_point fa fb ZL1 ZL2 z0 allow (0%Z, k) = Unsolved.
Proof.
  intros Hf Hno. unfold run_point, design_at. cbn [fst snd].
  rewrite (init_ok fa fb ZL1 ZL2 z0 Hf). cbn [bind].
  change (0 >? 0)%Z with false. cbn [bind].
  match goal with |- context [calculate_conjugate_transform k ?d] =>
    destruct (calculate_conjugate_transform_cases k d) as [[E _]|[_ [C1 C2]]];
      [rewrite E; reflexivity|exfalso];
    pose proof (inside_sqrt_identity d) as Hid
  end.
  cbn [Z_L1 Z_L2] in C1, Hid.
  destruct Hno as [Hno|Hno]; [lra|].
  assert (Hd : real ZL2 - real ZL1 <> 0).
  { intros H0. rewrite H0, Rabs_R0 in C1. lra. }
  specialize (Hid Hd). rewrite <- Hid in Hno.
  assert (0 < (real ZL2 - real ZL1) * (real ZL2 - real ZL1)) by nra.
  nra.
Qed.



(** X26. Frequencies whose sum is zero make the constructor divide by
    zero: the search raises, with or without the scan.  Without the scan,
    and with [|cos (pi f1 / (f1 + f2))| >= 1e-9] (which keeps the replay
    off its clamp and its last division a division of numpy), this is the
    only way it can raise. *)
Theorem search_raises_on_zero_sum fa fb ZL1 ZL2 z0 allow :
  (fa + fb = 0 ->
   forall scan, find_all_designs fa fb ZL1 ZL2 z0 allow scan = Raised) /\
  (1e-9 <= Rabs (cos (PI * (fa / (fa + fb)))) ->
   find_all_designs fa fb ZL1 ZL2 z0 allow false = Raised -> fa + fb = 0).
Proof.
  split.
  - intros Hf scan. unfold find_all_designs.
    destruct (grid_head scan) as [rest ->]. cbn [search_loop].
    destruct (run_point_cases fa fb ZL1 ZL2 z0 allow (0%Z, 0%Z))
      as [[E _]|[[C _]|[C _]]]; [rewrite E; reflexivity|contradiction|contradiction].
  - intros _ H. destruct (Req_dec (fa + fb) 0) as [|Hf]; [assumption|exfalso].
    destruct (find_all_designs_spec fa fb ZL1 ZL2 z0 allow false Hf
                (or_introl eq_refl)) as [l [Hl _]].
    rewrite Hl in H. discriminate.
Qed.

Lemma search_raises_on_zero_sum_witness :
  find_all_designs 1e9 (- 1e9) (mkC 25 10) (mkC 40 5) 50 true true = Raised /\
  (find_all_designs 1e9 3e9 (mkC 25 10) (mkC 40 5) 50 true false = Raised ->
   1e9 + 3e9 = 0).
Proof.
  split.
  - apply (proj1 (search_raises_on_zero_sum 1e9 (- 1e9) (mkC 25 10) (mkC 40 5)
                    50 true)).
    lra.
  - apply (proj2 (search_raises_on_zero_sum 1e9 3e9 (mkC 25 10) (mkC 40 5)
                    50 true)).
    exact quarter_cos_clear.
Defined.

(** ** Stage 3: the line that matches [Z_in_matched] to [Z0] *)

Lemma matching_line_regular (zin : complex) (z0 : R) :
  0 < z0 -> real zin <> z0 -> 0 < term_sqrt zin z0 ->
  1e-9 <= Rabs (imag zin * z0) ->
  cos (theta_T1_rad zin z0) <> 0 ->
  line_formula (sqrt (term_sqrt zin z0)) zin (tan (theta_T1_rad zin z0)) =
  RtoC z0.
Proof.
  intros H0 Hne Ht HX Hc.
  pose proof (term_sqrt_pos_real zin z0 H0 Ht) as HR.
  pose proof (Z_T1_square zin z0 Hne (Rlt_le _ _ Ht)) as E2. cbv zeta in E2.
  destruct (theta_T1_relation zin z0 H0 Hne Ht (or_intror HX)) as [_ E1].
  cbv zeta in E1.
  assert (Hzt : 0 < sqrt (term_sqrt zin z0)) by (apply sqrt_lt_R0; exact Ht).
  set (zt := sqrt (term_sqrt zin z0)) in *.
  set (th := theta_T1_rad zin z0) in *.
  assert (HXz : imag zin * z0 <> 0) by (apply Rabs_lower_nonzero; exact HX).
  assert (ET : tan th * (imag zin * z0) = zt * (z0 - real zin)).
  { unfold tan. apply (Rmult_eq_reg_l (cos th)); [|exact Hc].
    rewrite <- E1. field. exact Hc. }
  set (T := tan th) in *. clearbody T zt. clear E1 Hc th.
  unfold line_formula. apply Cdiv_eq.
  { apply line_divisor_nonzero; lra. }
  destruct zin as [R X]. cbn [real imag] in *.
  apply complex_eq; cbn.
  - apply (Rmult_eq_reg_l (X * z0)); [|exact HXz]. nsatz.
  - apply (Rmult_eq_reg_l (X * z0)); [|exact HXz]. nsatz.
Qed.

(** X27. Stage 3 computes the line that matches. When the stage
    succeeds, away from its zero divisor [Re Z_in_matched = Z0], the line
    of impedance [Z_T1] and angle [theta_T1] takes [Z_in_matched] to [Z0]
    in the line function of the replay: in its quarter-wave branch when
    [Z_in_matched] is real, in its regular branch otherwise. *)
Theorem matching_line_matches (d d3 : Design) (zin : complex) :
  Z_in_matched d = Some zin ->
  calculate_matching_network d = Ok d3 ->
  0 < Z0 d -> real zin <> Z0 d -> 0 < term_sqrt zin (Z0 d) ->
  (imag zin = 0 /\ 1e-9 <= Cabs zin) \/
  (1e-9 <= Rabs (imag zin * Z0 d) /\
   1e-9 <= Rabs (cos (theta_T1_rad zin (Z0 d)))) ->
  exists zt th,
    Z_T1 d3 = Some zt /\ theta_T1 d3 = Some th /\
    0 < zt /\ 0 < th <= PI /\
    tline_input_z zin zt th = RtoC (Z0 d).
Proof.
  intros Hz H H0 Hne Ht Hcase.
  rewrite (calculate_matching_network_ok d zin Hz (Rlt_le _ _ Ht)) in H.
  injection H as <-.
  exists (sqrt (term_sqrt zin (Z0 d))), (theta_T1_rad zin (Z0 d)).
  split; [reflexivity|]. split; [reflexivity|].
  split; [apply sqrt_lt_R0; exact Ht|].
  split; [apply theta_T1_rad_range|].
  destruct Hcase as [[HX Habs]|[HX Hc]].
  - pose proof (term_sqrt_pos_real zin (Z0 d) H0 Ht) as HR.
    assert (Hzin : zin = mkC (real zin) 0)
      by (apply complex_eq; [reflexivity|exact HX]).
    rewrite Hzin at 2 3. rewrite theta_T1_real, term_sqrt_real.
    unfold tline_input_z. rewrite cos_PI2, Rabs_R0.
    replace (0 <? 1e-9) with true by (symmetry; decide_test; lra).
    replace (Cabs zin <? 1e-9) with false by (symmetry; decide_test; exact Habs).
    rewrite Hzin. cbn [real].
    assert (Hs : sqrt (real zin * Z0 d) ^ 2 = real zin * Z0 d).
    { simpl. rewrite Rmult_1_r. apply sqrt_sqrt. apply Rmult_le_pos; lra. }
    rewrite Hs. apply complex_eq; cbn; field; lra.
  - rewrite tline_input_z_line_formula by exact Hc.
    apply matching_line_regular; try assumption.
    apply Rabs_lower_nonzero. exact Hc.
Qed.

Lemma matching_line_matches_witness :
  exists zt th,
    Z_T1 exD_d3 = Some zt /\ theta_T1 exD_d3 = Some th /\
    0 < zt /\ 0 < th <= PI /\
    tline_input_z (mkC 78 0) zt th = RtoC (Z0 exD_d2).
Proof.
  apply (matching_line_matches exD_d2 exD_d3 (mkC 78 0)).
  - reflexivity.
  - exact exD_stage3.
  - cbn. lra.
  - cbn. lra.
  - cbn [Z0 exD_d2 exD_d1 set_region set_conjugate_line quarter_design].
    rewrite exD_term_sqrt. lra.
  - left. split; [reflexivity|]. unfold Cabs. cbn [real imag].
    replace (78 * 78 + 0 * 0) with (78 * 78) by ring.
    rewrite sqrt_square; lra.
Defined.

(** ** Stage 4: the pi-network is the line of stage 3, for every load *)

Lemma Cmul_cancel_r (a b c : complex) :
  real c * real c + imag c * imag c <> 0 -> (a * c)%C = (b * c)%C -> a = b.
Proof.
  intros Hc H. rewrite <- (Cdiv_eq (a * c)%C c a Hc eq_refl).
  rewrite H. apply Cdiv_eq; [exact Hc|reflexivity].
Qed.

Lemma Cinv_mul_cancel (w z : complex) :
  real w * real w + imag w * imag w <> 0 -> (1 / w * (z * w))%C = z.
Proof. intros H. apply complex_eq; cbn; field; exact H. Qed.

(** A shunt susceptance [B] across [z]: [z' (1 + jB z) = z]. *)
Lemma shunt_mul (z : complex) (B : R) :
  0 < real z ->
  (shunt z (mkC 0 B) * (1 + mkC 0 B * z))%C = z /\
  real (1 + mkC 0 B * z)%C * real (1 + mkC 0 B * z)%C +
  imag (1 + mkC 0 B * z)%C * imag (1 + mkC 0 B * z)%C <> 0.
Proof.
  intros Hz. split.
  - assert (Hn : real z * real z + imag z * imag z <> 0)
      by (apply sumsq_nonzero_l; lra).
    assert (HW : real (1 / z + mkC 0 B)%C * real (1 / z + mkC 0 B)%C +
                 imag (1 / z + mkC 0 B)%C * imag (1 / z + mkC 0 B)%C <> 0).
    { apply sumsq_nonzero_l. pose proof (Cinv_real_pos z Hz) as H.
      cbn [real Cadd]. lra. }
    assert (Hc : (1 + mkC 0 B * z)%C = (z * (1 / z + mkC 0 B))%C).
    { destruct z as [R X]. cbn [real imag] in Hn.
      apply complex_eq; cbn; field; exact Hn. }
    rewrite Hc. unfold shunt. apply Cinv_mul_cancel. exact HW.
  - destruct z as [R X]. cbn in *.
    destruct (Req_dec B 0) as [->|HB].
    + apply sumsq_nonzero_l. lra.
    + apply sumsq_nonzero_r. nra.
Qed.

Lemma pi_line_identity (z : complex) (B zm zt Tm Tt sm cm sT cT : R) :
  zm * sm = zt * sT -> B * (zm * sm) = cm - cT ->
  Tm * cm = sm -> Tt * cT = sT ->
  sm * sm + cm * cm = 1 -> sT * sT + cT * cT = 1 ->
  cm <> 0 -> cT <> 0 -> zm * sm <> 0 ->
  let y := mkC 0 B in
  let c1 := (1 + y * z)%C in
  let n2 := (zm * (z + Ci * zm * Tm * c1))%C in
  (zt * (z + Ci * zt * Tt) * (zm * c1 + Ci * z * Tm + y * n2))%C =
  (n2 * (zt + Ci * z * Tt))%C.
Proof.
  intros E1 E2 E3 E4 P1 P2 Hcm HcT Hzs. cbv zeta.
  assert (K : cm * cT * (zm * sm) <> 0)
    by (apply Rmult_integral_contrapositive_currified;
        [apply Rmult_integral_contrapositive_currified|]; assumption).
  destruct z as [R X].
  apply complex_eq; cbn;
    apply (Rmult_eq_reg_l (cm * cT * (zm * sm))); try exact K; nsatz.
Qed.

(** The pi-network on the tangents: stubs of susceptance [B] on both
    sides of a line [zm] with tangent [Tm] act on every load of positive
    resistance as the line [zt] with tangent [Tt]. *)
Lemma pi_network_line (z : complex) (B zm zt Tm Tt sm cm sT cT : R) :
  0 < real z -> zm <> 0 -> zt <> 0 ->
  zm * sm = zt * sT -> B * (zm * sm) = cm - cT ->
  Tm * cm = sm -> Tt * cT = sT ->
  sm * sm + cm * cm = 1 -> sT * sT + cT * cT = 1 ->
  cm <> 0 -> cT <> 0 -> zm * sm <> 0 ->
  shunt (line_formula zm (shunt z (mkC 0 B)) Tm) (mkC 0 B) =
  line_formula zt z Tt.
Proof.
  intros Hz Hzm Hzt E1 E2 E3 E4 P1 P2 Hcm HcT Hzs.
  set (y := mkC 0 B).
  assert (Hy : real y = 0) by reflexivity.
  (* the three steps of the replay *)
  pose proof (shunt_real_pos z y Hz Hy) as Hw1.
  destruct (shunt_mul z B Hz) as [Ea Hc1]. fold y in Ea, Hc1.
  set (w1 := shunt z y) in *.
  pose proof (line_formula_real_pos zm w1 Tm Hzm Hw1) as Hw2.
  assert (Hc2 : real (zm + Ci * w1 * Tm)%C * real (zm + Ci * w1 * Tm)%C +
                imag (zm + Ci * w1 * Tm)%C * imag (zm + Ci * w1 * Tm)%C <> 0)
    by (apply line_divisor_nonzero; lra).
  assert (Eb : (line_formula zm w1 Tm * (zm + Ci * w1 * Tm))%C =
               (zm * (w1 + Ci * zm * Tm))%C)
    by (unfold line_formula; apply Cdiv_mul; exact Hc2).
  set (w2 := line_formula zm w1 Tm) in *.
  destruct (shunt_mul w2 B Hw2) as [Ec Hc3]. fold y in Ec, Hc3.
  set (w3 := shunt w2 y) in *.
  (* the line of stage 3 *)
  symmetry. unfold line_formula. apply Cdiv_eq.
  { apply line_divisor_nonzero; lra. }
  pose proof (pi_line_identity z B zm zt Tm Tt sm cm sT cT
                E1 E2 E3 E4 P1 P2 Hcm HcT Hzs) as Eid.
  cbv zeta in Eid. fold y in Eid.
  apply (Cmul_cancel_r _ _ (1 + y * w2)%C Hc3).
  apply (Cmul_cancel_r _ _ (zm + Ci * w1 * Tm)%C Hc2).
  apply (Cmul_cancel_r _ _ (1 + y * z)%C Hc1).
  clearbody w1 w2 w3. clear Hw1 Hw2 Hc1 Hc2 Hc3 Hz.
  destruct z as [R X], w1 as [u1 v1], w2 as [u2 v2], w3 as [u3 v3].
  apply (f_equal real) in Ea as Ear. apply (f_equal imag) in Ea as Eai.
  apply (f_equal real) in Eb as Ebr. apply (f_equal imag) in Eb as Ebi.
  apply (f_equal real) in Ec as Ecr. apply (f_equal imag) in Ec as Eci.
  apply (f_equal real) in Eid as Eir. apply (f_equal imag) in Eid as Eii.
  unfold y in *. cbn in Ear, Eai, Ebr, Ebi, Ecr, Eci, Eir, Eii.
  clear Ea Eb Ec Eid E1 E2 E3 E4 P1 P2 Hcm HcT Hzs.
  apply complex_eq; cbn; nsatz.
Qed.

(** X28. Stage 4 builds the pi-network equivalent of that line. Outside
    the fallback and the clamps, the replay of the network at f1 (the
    stub, the series line [Z_m] of angle [pi p1], the stub again) on any
    load of positive resistance is the line [Z_T1], [theta_T1] on that
    load. *)
Theorem pi_network_equivalent_line (d d' : Design) (zt th : R) (z : complex) :
  Z_T1 d = Some zt -> theta_T1 d = Some th ->
  synthesize_pi_network d = Ok d' ->
  0 < real z -> 0 < zt ->
  1e-9 <= Rabs (cos (PI * p1 d)) -> 1e-9 <= Rabs (sin (PI * p1 d)) ->
  1e-9 <= Rabs (cos th) -> sin th <> 0 ->
  0 < pi_Y_open (p1 d) zt th \/ 0 < pi_Y_short (p1 d) zt th ->
  exists zm yn,
    Z_m d' = Some zm /\ Y_n d' = Some yn /\
    let y := stub_admittance yn (PI * p1 d) (is_Open (stub_type d')) in
    shunt (tline_input_z (shunt z y) zm (PI * p1 d)) y = tline_input_z z zt th.
Proof.
  intros Hzt Hth H Hz Hpos Hcm Hsm HcT HsT Hy.
  rewrite (synthesize_pi_network_ok d zt th Hzt Hth) in H. injection H as <-.
  do 2 eexists. split; [reflexivity|]. split; [reflexivity|].
  cbn [stub_type set_pi_network]. cbv zeta.
  set (p := p1 d) in *.
  rewrite (pi_stub_susceptance p zt th Hcm Hsm Hy).
  rewrite !tline_input_z_line_formula by assumption.
  assert (Hs0 : sin (PI * p) <> 0) by (apply Rabs_lower_nonzero; exact Hsm).
  assert (Hc0 : cos (PI * p) <> 0) by (apply Rabs_lower_nonzero; exact Hcm).
  assert (HcT0 : cos th <> 0) by (apply Rabs_lower_nonzero; exact HcT).
  assert (Hzm : pi_Z_m p zt th * sin (PI * p) = zt * sin th).
  { unfold pi_Z_m. rewrite (Rmult_comm p PI). field. exact Hs0. }
  assert (Hzs : pi_Z_m p zt th * sin (PI * p) <> 0).
  { rewrite Hzm. apply Rmult_integral_contrapositive_currified; lra. }
  assert (Hzm0 : pi_Z_m p zt th <> 0).
  { intros H0. apply Hzs. rewrite H0. ring. }
  apply (pi_network_line z (pi_B_n1 p zt th) (pi_Z_m p zt th) zt
           (tan (PI * p)) (tan th) (sin (PI * p)) (cos (PI * p))
           (sin th) (cos th)); try assumption; try lra.
  - unfold pi_B_n1. rewrite (Rmult_comm p PI). field.
    split; assumption.
  - unfold tan. field. exact Hc0.
  - unfold tan. field. exact HcT0.
  - rewrite <- (sin2_cos2 (PI * p)). unfold Rsqr. ring.
  - rewrite <- (sin2_cos2 th). unfold Rsqr. ring.
Qed.

Lemma pi_network_equivalent_line_witness :
  let d' := set_pi_network exG_d3 (pi_Z_m (p1 exG_d3) 40 (PI / 3))
              (pi_stub_type (p1 exG_d3) 40 (PI / 3))
              (pi_Y_n (p1 exG_d3) 40 (PI / 3)) in
  exists zm yn,
    Z_m d' = Some zm /\ Y_n d' = Some yn /\
    let y := stub_admittance yn (PI * p1 exG_d3) (is_Open (stub_type d')) in
    shunt (tline_input_z (shunt (mkC 30 20) y) zm (PI * p1 exG_d3)) y =
    tline_input_z (mkC 30 20) 40 (PI / 3).
Proof.
  pose proof PI_RGT_0 as HPI. pose proof sin_PI4_bounds as Hs.
  assert (Hp : PI * p1 exG_d3 = PI / 4) by (cbn; field).
  apply (pi_network_equivalent_line exG_d3 _ 40 (PI / 3) (mkC 30 20)).
  - reflexivity.
  - reflexivity.
  - apply synthesize_pi_network_ok; reflexivity.
  - cbn. lra.
  - lra.
  - rewrite Hp, cos_PI4_eq_sin, Rabs_right; lra.
  - rewrite Hp, Rabs_right; lra.
  - rewrite cos_PI3, Rabs_right; lra.
  - apply Rgt_not_eq. apply sin_gt_0; lra.
  - left. unfold pi_Y_open.
    replace (p1 exG_d3 * PI) with (PI / 4) by (cbn; field).
    rewrite tan_PI4.
    replace (Rabs 1 >? 1e-9) with true
      by (symmetry; decide_test; rewrite Rabs_R1; lra).
    destruct (pi_susceptance_sign (p1 exG_d3) 40 (PI / 3))
      as [_ [_ [_ [Hpos _]]]]; [cbn; lra|lra|lra|].
    assert (HB : 0 < pi_B_n1 (p1 exG_d3) 40 (PI / 3))
      by (apply Hpos; rewrite Rmult_comm, Hp; lra).
    lra.
Defined.

(** ** C7: the loop runs its body at every grid point *)

Lemma search_loop_not_unsolved body pts acc : search_loop body pts acc <> Unsolved.
Proof.
  revert acc. induction pts as [|pt pts IH]; intros acc; cbn [search_loop];
    [discriminate|].
  destruct (body pt); [apply IH|apply IH|discriminate].
Qed.

Lemma search_loop_raised body pts acc :
  search_loop body pts acc = Raised <->
  exists pt, In pt pts /\ body pt = Raised.
Proof.
  revert acc. induction pts as [|pt pts IH]; intros acc; cbn [search_loop].
  - split; [discriminate|]. intros [pt [[] _]].
  - destruct (body pt) as [c| |] eqn:E.
    + rewrite IH. split; intros [pt' [Hi Hr]].
      * exists pt'. split; [right; exact Hi|exact Hr].
      * destruct Hi as [<-|Hi]; [rewrite E in Hr; discriminate|eauto].
    + rewrite IH. split; intros [pt' [Hi Hr]].
      * exists pt'. split; [right; exact Hi|exact Hr].
      * destruct Hi as [<-|Hi]; [rewrite E in Hr; discriminate|eauto].
    + split; [|reflexivity]. intros _. exists pt. split; [left; reflexivity|exact E].
Qed.

Lemma search_loop_returns body pts acc l :
  search_loop body pts acc = Ok l <->
  (forall pt, In pt pts -> body pt <> Raised) /\
  l = acc ++ flat_map (emitted body) pts.
Proof.
  split.
  - intros H. split; [exact (search_loop_no_raise _ _ _ _ H)|].
    exact (search_loop_collect _ _ _ _ H).
  - intros [Hb ->]. destruct (search_loop_spec body pts acc Hb) as [l [Hl _]].
    rewrite Hl. f_equal. exact (search_loop_collect _ _ _ _ Hl).
Qed.

Lemma run_point_unsolved fa fb ZL1 ZL2 z0 allow theta_aux k :
  run_point fa fb ZL1 ZL2 z0 allow (theta_aux, k) = Unsolved <->
  design_at fa fb ZL1 ZL2 z0 allow theta_aux k = Unsolved.
Proof.
  destruct (run_point_cases fa fb ZL1 ZL2 z0 allow (theta_aux, k))
    as [[Hr _]|[[_ [Hr Hd]]|[_ [d [c [Hd [Hr _]]]]]]]; cbn [fst snd] in *.
  - split; intros H.
    + rewrite Hr in H. discriminate.
    + unfold run_point in Hr. cbn [fst snd] in Hr. rewrite H in Hr. discriminate.
  - tauto.
  - rewrite Hr, Hd. split; discriminate.
Qed.



(** ** C6 on input D *)


(** ** Region (c) in the candidates *)

(** X29. Region (c) in the search, in exact arithmetic. With the
    auxiliary stub enabled every candidate is tagged 'a' or 'b'.  With the
    stub disabled the classifier leaves a point of region (c) as it is,
    and for a positive [Z0] stage 3 rejects it whenever [Z_in1] lies off
    the edge of the region ([Re Z_in1 = Z0] or
    [|Z_in1|^2 = Re Z_in1 * Z0]): its radicand is negative there. *)
Theorem region_c_handling :
  (forall fa fb ZL1 ZL2 z0 scan l c,
     find_all_designs fa fb ZL1 ZL2 z0 true scan = Ok l -> In c l ->
     region_tag c = Some region_a \/ region_tag c = Some region_b) /\
  (forall (d1 : Design) (zin : complex),
     Z_in1 d1 = Some zin -> 0 < Z0 d1 ->
     norm_r zin (Z0 d1) <= 1 -> norm_g zin (Z0 d1) <= 1 ->
     real zin <> Z0 d1 ->
     real zin * real zin + imag zin * imag zin <> real zin * Z0 d1 ->
     exists d2,
       check_region_and_adjust false d1 = Ok d2 /\
       region d2 = Some region_c /\
       aux_stub_type d2 = aux_stub_type d1 /\
       Z_in_matched d2 = Some zin /\
       term_sqrt zin (Z0 d1) < 0 /\
       calculate_matching_network d2 = Unsolved).
Proof.
  split.
  - intros fa fb ZL1 ZL2 z0 scan l c Hl Hc.
    destruct (candidate_design _ _ _ _ _ _ _ _ _ Hl Hc)
      as [theta_aux [k [d [Hg [Hd Hcd]]]]].
    destruct (candidate_of_design _ _ _ _ _ _ _ _ _ _ Hd Hcd)
      as [z1 [th1 [yn [zm [_ [_ [_ [_ [Hreg _]]]]]]]]].
    rewrite Hreg.
    apply design_at_form in Hd.
    destruct Hd as [d0 [zmat [r [sty [sy2 [H0 H]]]]]]. cbv zeta in H.
    destruct H as [_ [_ [_ [Hst [_ Heq]]]]].
    assert (Hr : region d = Some r) by (rewrite Heq; reflexivity).
    rewrite Hr.
    destruct r; [left; reflexivity|right; reflexivity|exfalso].
    destruct Hst as [[_ [_ [_ Hf]]]|[_ [Hra _]]];
      [specialize (Hf eq_refl)|]; discriminate.
  - intros d1 zin Hz H0 Hr Hg Hne1 Hne2.
    rewrite (check_region_c_kept d1 zin Hz Hr Hg).
    eexists. split; [reflexivity|]. split; [reflexivity|].
    split; [reflexivity|]. split; [reflexivity|].
    assert (Hneg : term_sqrt zin (Z0 d1) < 0).
    { destruct (Rlt_le_dec (term_sqrt zin (Z0 d1)) 0) as [|Hpos];
        [assumption|exfalso].
      destruct (region_c_edge zin (Z0 d1) H0 Hr Hg Hpos); contradiction. }
    split; [exact Hneg|].
    match goal with |- calculate_matching_network ?d2 = _ =>
      destruct (calculate_matching_network_cases d2 zin eq_refl) as [[_ E]|[C _]]
    end; [exact E|exfalso].
    cbn [Z0 set_region] in C. lra.
Qed.

Lemma region_c_handling_witness :
  (exists l c,
     find_all_designs 1e9 3e9 exD_ZL1 exD_ZL2 50 true false = Ok l /\ In c l /\
     (region_tag c = Some region_a \/ region_tag c = Some region_b)) /\
  (exists d2,
     check_region_and_adjust false exE_d1 = Ok d2 /\
     region d2 = Some region_c /\
     aux_stub_type d2 = aux_stub_type exE_d1 /\
     Z_in_matched d2 = Some (mkC 20 30) /\
     term_sqrt (mkC 20 30) (Z0 exE_d1) < 0 /\
     calculate_matching_network d2 = Unsolved).
Proof.
  destruct region_c_handling as [H1 H2]. split.
  - destruct (emitted_candidate 1e9 3e9 exD_ZL1 exD_ZL2 50 true 0 1
                exD_design) as [l [c [Hl [Hc _]]]];
      [right; left; reflexivity|apply exD_design_at|].
    exists l, c. split; [exact Hl|]. split; [exact Hc|].
    exact (H1 _ _ _ _ _ _ _ _ Hl Hc).
  - apply (H2 exE_d1 (mkC 20 30)).
    + reflexivity.
    + cbn. lra.
    + rewrite norm_r_value; cbn; lra.
    + rewrite norm_g_value; cbn; lra.
    + cbn. lra.
    + cbn. lra.
Defined.

(** ** Frequencies far apart: the clamp on [tan (p1 pi)] *)

(** The tangent of a small angle. *)
Lemma tan_small (x : R) : 0 <= x -> x <= PI / 3 -> 0 <= tan x <= 2 * x.
Proof.
  intros H0 H3. pose proof PI_RGT_0 as HPI.
  destruct (Req_dec x 0) as [->|Hx]; [rewrite tan_0; lra|].
  assert (Hpos : 0 < x) by lra.
  pose proof (tan_gt_0 x Hpos ltac:(lra)) as Ht.
  pose proof (sin_lt_x x Hpos) as Hs.
  assert (Hc : 1 / 2 <= cos x).
  { rewrite <- cos_PI3. apply cos_decr_1; lra. }
  split; [lra|]. unfold tan.
  apply (Rmult_le_reg_r (cos x)); [lra|].
  replace (sin x / cos x * cos x) with (sin x) by (field; lra).
  nra.
Qed.

(** The design fraction of 1 Hz against 1 THz and the tangents it gives:
    [tan (p1 pi)] falls under the clamp of the two stub selections, and the
    f1-scaled angle of any conjugate line is all but zero. *)
Lemma p_far_bounds : 0 < p_far < 1e-12.
Proof.
  unfold p_far. split.
  - apply Rdiv_lt_0_compat; lra.
  - apply (Rmult_lt_reg_r (1 + 1e12)); [lra|].
    replace (1 / (1 + 1e12) * (1 + 1e12)) with 1 by (field; lra). lra.
Qed.

Lemma tan_p_far : 0 < tan (p_far * PI) <= 1e-11.
Proof.
  pose proof p_far_bounds as Hp. pose proof PI_RGT_0 as HPI.
  pose proof PI_4 as H4.
  assert (Hx : 0 < p_far * PI) by (apply Rmult_lt_0_compat; lra).
  assert (Hu : p_far * PI <= 4e-12).
  { apply Rle_trans with (1e-12 * 4); [|lra].
    apply Rmult_le_compat; lra. }
  assert (Hv : p_far * PI <= PI / 3).
  { replace (PI / 3) with (1 / 3 * PI) by field.
    apply Rmult_le_compat_r; lra. }
  split.
  - apply tan_gt_0; [exact Hx|lra].
  - destruct (tan_small (p_far * PI)) as [_ H]; [lra|lra|]. lra.
Qed.

Lemma tan_far_angle (theta : R) :
  0 <= theta < 2 * PI -> 0 <= tan (theta * p_far) <= 1e-10.
Proof.
  intros Ht. pose proof p_far_bounds as Hp. pose proof PI_RGT_0 as HPI.
  pose proof PI_4 as H4.
  assert (Hx : 0 <= theta * p_far) by (apply Rmult_le_pos; lra).
  assert (Hu : theta * p_far <= 8e-12).
  { apply Rle_trans with (8 * 1e-12); [|lra].
    apply Rmult_le_compat; lra. }
  assert (Hv : theta * p_far <= PI / 3).
  { apply Rle_trans with (2 * PI * (1 / 6)); [|lra].
    apply Rmult_le_compat; lra. }
  destruct (tan_small (theta * p_far)) as [H0 H]; [lra|lra|]. lra.
Qed.

(** The line of impedance 20 on the load [20 + 30j], and on the load 80. *)
Lemma line_20_30 (T : R) :
  0 <= T <= 1e-10 ->
  let z := line_formula 20 (mkC 20 30) T in
  19 < real z < 21 /\ 29 < imag z < 31.
Proof.
  intros HT z.
  set (D := 400 - 1200 * T + 1300 * (T * T)).
  assert (HD : 0 < D) by (unfold D; nra).
  assert (Er : real z = 8000 * (1 + T * T) / D).
  { unfold z, line_formula, D. cbn. field. nra. }
  assert (Ei : imag z = 20 * (600 - 900 * T - 600 * (T * T)) / D).
  { unfold z, line_formula, D. cbn. field. nra. }
  rewrite Er, Ei. repeat split.
  - apply (Rmult_lt_reg_r D); [exact HD|].
    replace (8000 * (1 + T * T) / D * D) with (8000 * (1 + T * T)) by (field; lra).
    unfold D. nra.
  - apply (Rmult_lt_reg_r D); [exact HD|].
    replace (8000 * (1 + T * T) / D * D) with (8000 * (1 + T * T)) by (field; lra).
    unfold D. nra.
  - apply (Rmult_lt_reg_r D); [exact HD|].
    replace (20 * (600 - 900 * T - 600 * (T * T)) / D * D)
      with (20 * (600 - 900 * T - 600 * (T * T))) by (field; lra).
    unfold D. nra.
  - apply (Rmult_lt_reg_r D); [exact HD|].
    replace (20 * (600 - 900 * T - 600 * (T * T)) / D * D)
      with (20 * (600 - 900 * T - 600 * (T * T))) by (field; lra).
    unfold D. nra.
Qed.

Lemma line_80 (T : R) :
  0 <= T <= 1e-10 ->
  let z := line_formula 20 (mkC 80 0) T in
  79 < real z <= 80 /\ - 1e-7 <= imag z <= 0 /\ (imag z = 0 -> T = 0).
Proof.
  intros HT z.
  set (D := 1 + 16 * (T * T)).
  assert (HD : 0 < D) by (unfold D; nra).
  assert (Er : real z = 80 * (1 + T * T) / D).
  { unfold z, line_formula, D. cbn. field. nra. }
  assert (Ei : imag z = - (300 * T) / D).
  { unfold z, line_formula, D. cbn. field. nra. }
  rewrite Er, Ei. repeat split.
  - apply (Rmult_lt_reg_r D); [exact HD|].
    replace (80 * (1 + T * T) / D * D) with (80 * (1 + T * T)) by (field; lra).
    unfold D. nra.
  - apply (Rmult_le_reg_r D); [exact HD|].
    replace (80 * (1 + T * T) / D * D) with (80 * (1 + T * T)) by (field; lra).
    unfold D. nra.
  - apply (Rmult_le_reg_r D); [exact HD|].
    replace (- (300 * T) / D * D) with (- (300 * T)) by (field; lra).
    unfold D. nra.
  - apply (Rmult_le_reg_r D); [exact HD|].
    replace (- (300 * T) / D * D) with (- (300 * T)) by (field; lra).
    unfold D. nra.
  - intros H. apply (Rmult_eq_compat_r D) in H.
    replace (- (300 * T) / D * D) with (- (300 * T)) in H by (field; lra).
    lra.
Qed.

Lemma Cinv_involutive_zero (w : complex) :
  real w <> 0 \/ imag w <> 0 -> (1 / (1 / w + RtoC 0))%C = w.
Proof.
  intros H.
  assert (Hn : real w * real w + imag w * imag w <> 0) by (destruct H; nra).
  replace (1 / w + RtoC 0)%C with (1 / w)%C
    by (apply complex_eq; cbn; ring).
  apply Cinv_involutive. exact Hn.
Qed.

(** Stage 3 on an impedance just below 80 ohm, all but real. *)
Lemma stage3_near_80 (zin : complex) :
  79 < real zin <= 80 -> - 1e-7 <= imag zin <= 0 ->
  0 < term_sqrt zin 50 /\
  62 < sqrt (term_sqrt zin 50) < 64 /\
  PI / 4 <= theta_T1_rad zin 50 <= PI / 2.
Proof.
  intros HR HX. pose proof PI_RGT_0 as HPI.
  set (R0 := real zin) in *. set (X := imag zin) in *.
  assert (Hq : 0 <= X ^ 2 * 50 / (R0 - 50) <= 1).
  { split.
    - apply Rmult_le_pos; [simpl; nra|left; apply Rinv_0_lt_compat; lra].
    - apply (Rmult_le_reg_r (R0 - 50)); [lra|].
      replace (X ^ 2 * 50 / (R0 - 50) * (R0 - 50)) with (X ^ 2 * 50)
        by (field; lra).
      simpl. nra. }
  assert (Ht : 3950 < term_sqrt zin 50 <= 4001).
  { unfold term_sqrt. cbv zeta. fold R0 X. lra. }
  assert (Hz : 62 < sqrt (term_sqrt zin 50) < 64).
  { split.
    - replace 62 with (sqrt (62 * 62)) by (apply sqrt_square; lra).
      apply sqrt_lt_1; lra.
    - replace 64 with (sqrt (64 * 64)) by (apply sqrt_square; lra).
      apply sqrt_lt_1; lra. }
  split; [lra|]. split; [exact Hz|].
  unfold theta_T1_rad. cbv zeta. fold R0 X.
  set (zt := sqrt (term_sqrt zin 50)) in *.
  case_test (Rabs (X * 50) <? 1e-9).
  - replace (PI / 2 <=? 0) with false by (symmetry; decide_test; lra). lra.
  - assert (Hden : X * 50 <= - 1e-9).
    { rewrite Rabs_left1 in E by lra. lra. }
    assert (Hnum : zt * (50 - R0) < - 1798) by nra.
    assert (Hq1 : 1 < zt * (50 - R0) / (X * 50)).
    { apply (Rmult_lt_reg_r (- (X * 50))); [lra|].
      replace (zt * (50 - R0) / (X * 50) * - (X * 50))
        with (- (zt * (50 - R0))) by (field; lra).
      lra. }
    pose proof (atan_increasing _ _ Hq1) as Hinc. rewrite atan_1 in Hinc.
    pose proof (atan_bound (zt * (50 - R0) / (X * 50))) as Hb.
    replace (atan (zt * (50 - R0) / (X * 50)) <=? 0) with false
      by (symmetry; decide_test; lra).
    lra.
Qed.

(** With [tan (p1 pi)] under the clamp stage 4 has no stub to choose:
    the open-stub value is the 0 of the clamp and the short-stub value is
    not positive. *)
Lemma pi_fallback_far (zt th : R) :
  0 < zt -> PI / 4 <= th <= PI / 2 ->
  pi_Y_open p_far zt th <= 0 /\ pi_Y_short p_far zt th <= 0 /\
  sin (p_far * PI) <> 0 /\ cos (p_far * PI) <> 0 /\ zt * sin th <> 0 /\
  pi_B_n1 p_far zt th <> 0.
Proof.
  intros Hzt Hth. pose proof PI_RGT_0 as HPI. pose proof p_far_bounds as Hp.
  pose proof tan_p_far as Ht.
  assert (Hx : 0 < p_far * PI) by (apply Rmult_lt_0_compat; lra).
  assert (Hv : p_far * PI < PI / 4).
  { replace (PI / 4) with (1 / 4 * PI) by field.
    apply Rmult_lt_compat_r; lra. }
  assert (Hs : 0 < sin (p_far * PI)) by (apply sin_gt_0; lra).
  assert (Hc : 0 < cos (p_far * PI)) by (apply cos_gt_0; lra).
  assert (Hsth : 0 < sin th) by (apply sin_gt_0; lra).
  assert (Hcc : cos th < cos (p_far * PI)) by (apply cos_decreasing_1; lra).
  assert (HB : 0 < (cos (p_far * PI) - cos th) / (zt * sin th)).
  { apply Rmult_lt_0_compat; [lra|apply Rinv_0_lt_compat; nra]. }
  split; [|split; [|split; [|split; [|split]]]]; try lra.
  - unfold pi_Y_open.
    replace (Rabs (tan (p_far * PI)) >? 1e-9) with false; [lra|].
    symmetry; decide_test. rewrite Rabs_right; lra.
  - unfold pi_Y_short, pi_B_n1, pi_Z_m.
    replace (zt * sin th / sin (p_far * PI) * sin (p_far * PI))
      with (zt * sin th) by (field; lra).
    nra.
  - nra.
  - unfold pi_B_n1, pi_Z_m.
    replace (zt * sin th / sin (p_far * PI) * sin (p_far * PI))
      with (zt * sin th) by (field; lra).
    lra.
Qed.

Lemma far_init ZL1 ZL2 z0 :
  __init__ 1 1e12 ZL1 ZL2 z0 = Ok (far_design ZL1 ZL2 z0).
Proof. apply init_ok. lra. Qed.

(** Stage 1 at these frequencies, for loads whose conjugate line has the
    impedance 20: [Z_in1] is the line formula at a tangent below 1e-10. *)
Lemma far_stage1 (ZL1 ZL2 : complex) (z0 : R) (k : Z) :
  (k = 0 \/ k = 1)%Z ->
  1e-6 <= Rabs (real ZL2 - real ZL1) ->
  inside_sqrt (far_design ZL1 ZL2 z0) = 400 ->
  exists th T,
    0 <= T <= 1e-10 /\
    calculate_conjugate_transform k (far_design ZL1 ZL2 z0) =
    Ok (set_conjugate_line (far_design ZL1 ZL2 z0) 20 th
          (line_formula 20 ZL1 T)).
Proof.
  intros Hk Hr Hin. set (d0 := far_design ZL1 ZL2 z0) in *.
  pose proof (theta1_rad_range d0) as Hrange. pose proof PI_RGT_0 as HPI.
  assert (Hs : sqrt (inside_sqrt d0) = 20)
    by (apply sqrt_of_square; [lra|rewrite Hin; lra]).
  exists (theta1_rad d0 + IZR k * PI),
         (tan ((theta1_rad d0 + IZR k * PI) * p_far)).
  split.
  - apply tan_far_angle. destruct Hk as [-> | ->]; lra.
  - rewrite calculate_conjugate_transform_ok; [|exact Hr|rewrite Hin; lra].
    unfold conj_Z_in1. rewrite Hs. reflexivity.
Qed.

Lemma design_at_far ZL1 ZL2 z0 allow k d1 d2 d3 :
  calculate_conjugate_transform k (far_design ZL1 ZL2 z0) = Ok d1 ->
  check_region_and_adjust allow d1 = Ok d2 ->
  calculate_matching_network d2 = Ok d3 ->
  design_at 1 1e12 ZL1 ZL2 z0 allow 0 k = synthesize_pi_network d3.
Proof.
  intros H1 H2 H3.
  exact (design_at_intro 1 1e12 ZL1 ZL2 z0 allow 0%Z k
           (far_design ZL1 ZL2 z0) d1 d2 d3 (far_init _ _ _) eq_refl
           H1 H2 H3).
Qed.

(** ** C4: the two fallbacks and what comes after them *)

Lemma run_point_stage3_unsolved fa fb ZL1 ZL2 z0 allow theta_aux k d0 dp d1 d2 :
  __init__ fa fb ZL1 ZL2 z0 = Ok d0 ->
  prepare theta_aux d0 = Ok dp ->
  calculate_conjugate_transform k dp = Ok d1 ->
  check_region_and_adjust allow d1 = Ok d2 ->
  calculate_matching_network d2 = Unsolved ->
  run_point fa fb ZL1 ZL2 z0 allow (theta_aux, k) = Unsolved.
Proof.
  intros H0 Hp H1 H2 H3. unfold run_point, design_at. cbn [fst snd].
  rewrite H0. cbn [bind]. fold (prepare theta_aux d0).
  rewrite Hp. cbn [bind]. rewrite H1. cbn [bind]. rewrite H2. cbn [bind].
  rewrite H3. reflexivity.
Qed.

(** The fallback of [_add_auxiliary_stub]: the stub (Open, 0.02), region
    'a', and the impedance of stage 1 unchanged. *)
Lemma aux_stub_fallback (d1 : Design) (zin : complex) :
  Z_in1 d1 = Some zin ->
  real zin <> 0 \/ imag zin <> 0 ->
  norm_r zin (Z0 d1) <= 1 -> norm_g zin (Z0 d1) <= 1 ->
  aux_Y2_open (p1 d1) zin <= 0 -> aux_Y2_short (p1 d1) zin <= 0 ->
  check_region_and_adjust true d1 =
  Ok (set_region (set_region d1 zin region_c (aux_stub_type d1) (aux_stub_Y2 d1))
        zin region_a (Some Open) (Some 0.02)).
Proof.
  intros Hz Hnz Hr Hg Ho Hs.
  rewrite (check_region_c_stub d1 zin Hz Hr Hg).
  match goal with |- _add_auxiliary_stub ?d' = _ =>
    destruct (add_auxiliary_stub_cases d' zin Hz)
      as [[P _]|[[_ [P _]]|[_ [_ E']]]]
  end; [cbn [p1 set_region] in P; lra|cbn [p1 set_region] in P; lra|].
  rewrite E', (Cinv_involutive_zero zin Hnz). reflexivity.
Qed.

(** Stage 3 on an impedance of region (c): rejected, unless the impedance
    lies on the edge of the region. *)
Lemma stage3_region_c (d2 : Design) (zin : complex) :
  Z_in_matched d2 = Some zin -> 0 < Z0 d2 ->
  norm_r zin (Z0 d2) <= 1 -> norm_g zin (Z0 d2) <= 1 ->
  calculate_matching_network d2 = Unsolved \/
  real zin = Z0 d2 \/
  real zin * real zin + imag zin * imag zin = real zin * Z0 d2.
Proof.
  intros Hz H0 Hr Hg.
  destruct (calculate_matching_network_cases d2 zin Hz) as [[_ E]|[C _]];
    [left; exact E|right].
  exact (region_c_edge zin (Z0 d2) H0 Hr Hg C).
Qed.

(** The fallback of [synthesize_pi_network] at a grid point, and the
    candidate the search returns for it. *)
Lemma pi_fallback_emitted fa fb ZL1 ZL2 z0 allow scan theta_aux k d zt th l :
  find_all_designs fa fb ZL1 ZL2 z0 allow scan = Ok l ->
  In (theta_aux, k) (grid scan) ->
  design_at fa fb ZL1 ZL2 z0 allow theta_aux k = Ok d ->
  Z_T1 d = Some zt -> theta_T1 d = Some th ->
  pi_Y_open (fa / (fa + fb)) zt th <= 0 ->
  pi_Y_short (fa / (fa + fb)) zt th <= 0 ->
  Y_n d = Some 0.02 /\ stub_type d = Some Open /\ Z_n d = Some (1 / 0.02) /\
  exists c,
    run_point fa fb ZL1 ZL2 z0 allow (theta_aux, k) = Ok c /\ In c l /\
    Z_stub c = Some (1 / 0.02) /\ stub_type_tag c = Some Open.
Proof.
  intros Hl Hg Hd Hzt Hth Ho Hs.
  destruct (pi_fallback_is_placeholder _ zt th Ho Hs) as [_ [Hy Hty]].
  pose proof Hd as Hform. apply design_at_form in Hform.
  destruct Hform as [d0 [zmat [r [sty [sy2 [H0 H]]]]]]. cbv zeta in H.
  destruct H as [_ [_ [_ [_ [_ Heq]]]]].
  assert (Ezt : zt = sqrt (term_sqrt zmat z0)).
  { rewrite Heq in Hzt. cbn in Hzt. injection Hzt as <-. reflexivity. }
  assert (Eth : th = theta_T1_rad zmat z0).
  { rewrite Heq in Hth. cbn in Hth. injection Hth as <-. reflexivity. }
  rewrite <- Ezt, <- Eth, Hy, Hty in Heq.
  assert (F1 : Y_n d = Some 0.02) by (rewrite Heq; reflexivity).
  assert (F2 : stub_type d = Some Open) by (rewrite Heq; reflexivity).
  assert (F3 : Z_n d = Some (1 / 0.02)) by (rewrite Heq; reflexivity).
  split; [exact F1|]. split; [exact F2|]. split; [exact F3|].
  destruct (run_point_of_design _ _ _ _ _ _ _ _ _ Hd) as [Hr [c Hc]].
  destruct (candidate_of_design _ _ _ _ _ _ _ _ _ _ Hd Hc)
    as [z1 [th1 [yn [zm [_ [_ [_ [_ [_ [_ [_ [_ [Hst [Hty' _]]]]]]]]]]]]]].
  exists c. split; [rewrite Hr; exact Hc|]. split; [|split].
  - apply (find_all_designs_inv _ _ _ _ _ _ _ _ Hl).
    exists (theta_aux, k). split; [exact Hg|]. rewrite Hr. exact Hc.
  - rewrite Hst. exact F3.
  - rewrite Hty'. exact F2.
Qed.


(** ** The two fallbacks on frequencies far apart *)

(** An impedance near [20 + 30j] lies inside region (c), and with
    [tan (p1 pi)] under the clamp neither auxiliary stub is positive. *)
Lemma region_c_far_facts (zin : complex) :
  19 < real zin < 21 -> 29 < imag zin < 31 ->
  norm_r zin 50 <= 1 /\ norm_g zin 50 <= 1 /\
  aux_Y2_open p_far zin <= 0 /\ aux_Y2_short p_far zin <= 0 /\
  real zin <> 50 /\
  real zin * real zin + imag zin * imag zin <> real zin * 50.
Proof.
  intros HR HX. pose proof tan_p_far as Ht.
  set (n := real zin * real zin + imag zin * imag zin).
  assert (Hn : 1202 < n) by (unfold n; nra).
  split; [|split; [|split; [|split; [|split]]]].
  - rewrite norm_r_value by lra. lra.
  - rewrite norm_g_value by (fold n; lra). fold n.
    apply (Rmult_le_reg_r n); [lra|].
    replace (real zin * 50 / n * n) with (real zin * 50) by (field; lra). lra.
  - unfold aux_Y2_open.
    replace (Rabs (tan (p_far * PI)) >? 1e-9) with false; [lra|].
    symmetry; decide_test. rewrite Rabs_right; lra.
  - unfold aux_Y2_short. cbn [real imag Cdiv RtoC]. fold n.
    assert (HB : (0 * real zin - 1 * imag zin) / n < 0).
    { apply (Rmult_lt_reg_r n); [lra|].
      replace ((0 * real zin - 1 * imag zin) / n * n) with (- imag zin)
        by (field; lra). lra. }
    nra.
  - lra.
  - fold n. lra.
Qed.

Lemma exH_stage1 (k : Z) :
  (k = 0 \/ k = 1)%Z ->
  exists d1 zin,
    calculate_conjugate_transform k (far_design exH_ZL1 exH_ZL2 50) = Ok d1 /\
    Z_in1 d1 = Some zin /\ Z0 d1 = 50 /\ p1 d1 = p_far /\
    19 < real zin < 21 /\ 29 < imag zin < 31.
Proof.
  intros Hk.
  destruct (far_stage1 exH_ZL1 exH_ZL2 50 k Hk) as [th [T [HT H1]]].
  - cbn. rewrite Rabs_right; lra.
  - unfold inside_sqrt. cbn. lra.
  - destruct (line_20_30 T HT) as [HR HX].
    eexists. eexists. split; [exact H1|]. split; [reflexivity|].
    split; [reflexivity|]. split; [reflexivity|]. split; assumption.
Qed.

(** The grid points of input H: the fallback of the auxiliary stub, then
    the rejection by stage 3. *)
Lemma exH_run_point (k : Z) :
  (k = 0 \/ k = 1)%Z ->
  exists d1 d2,
    calculate_conjugate_transform k (far_design exH_ZL1 exH_ZL2 50) = Ok d1 /\
    check_region_and_adjust true d1 = Ok d2 /\
    aux_stub_type d2 = Some Open /\ aux_stub_Y2 d2 = Some 0.02 /\
    region d2 = Some region_a /\
    calculate_matching_network d2 = Unsolved /\
    run_point 1 1e12 exH_ZL1 exH_ZL2 50 true (0%Z, k) = Unsolved.
Proof.
  intros Hk.
  destruct (exH_stage1 k Hk) as [d1 [zin [H1 [Hz [Hz0 [Hp [HR HX]]]]]]].
  destruct (region_c_far_facts zin HR HX) as [Hr [Hg [Ho [Hs [Hn1 Hn2]]]]].
  rewrite <- Hz0 in Hr, Hg, Hn1, Hn2. rewrite <- Hp in Ho, Hs.
  pose proof (aux_stub_fallback d1 zin Hz ltac:(left; lra) Hr Hg Ho Hs) as H2.
  match type of H2 with _ = Ok ?d2' =>
    assert (H3 : calculate_matching_network d2' = Unsolved)
  end.
  { match goal with |- calculate_matching_network ?d2' = _ =>
      destruct (stage3_region_c d2' zin eq_refl) as [E|[E|E]]
    end; try assumption; try contradiction.
    cbn [Z0 set_region]. lra. }
  eexists. eexists. split; [exact H1|]. split; [exact H2|].
  split; [reflexivity|]. split; [reflexivity|]. split; [reflexivity|].
  split; [exact H3|].
  exact (run_point_stage3_unsolved 1 1e12 exH_ZL1 exH_ZL2 50 true 0%Z k
           (far_design exH_ZL1 exH_ZL2 50) (far_design exH_ZL1 exH_ZL2 50)
           d1 _ (far_init _ _ _) eq_refl H1 H2 H3).
Qed.


(** Input H with the two loads exchanged, at the grid point (0, 0): region
    (a), and the fallback of stage 4. *)
Lemma exK_design_at :
  exists d zt th,
    design_at 1 1e12 exH_ZL2 exH_ZL1 50 true 0 0 = Ok d /\
    Z_T1 d = Some zt /\ theta_T1 d = Some th /\
    region d = Some region_a /\ aux_stub_type d = None /\
    0 < zt /\ PI / 4 <= th <= PI / 2.
Proof.
  destruct (far_stage1 exH_ZL2 exH_ZL1 50 0 ltac:(left; reflexivity))
    as [th1 [T [HT H1]]].
  - cbn. rewrite Rabs_left; lra.
  - unfold inside_sqrt. cbn. lra.
  - pose proof (line_80 T HT) as HL. cbv zeta in HL.
    change (mkC 80 0) with exH_ZL2 in HL.
    set (zin := line_formula 20 exH_ZL2 T) in *.
    destruct HL as [HR [HX _]].
    destruct (stage3_near_80 zin HR HX) as [Hts [Hzt Hth]].
    match type of H1 with _ = Ok ?d1' => set (d1 := d1') in * end.
    assert (H2 : check_region_and_adjust true d1 =
                 Ok (set_region d1 zin region_a None None)).
    { apply (check_region_a true d1 zin eq_refl).
      rewrite norm_r_value by (cbn; lra). cbn [Z0 d1 set_conjugate_line far_design].
      apply (Rmult_lt_reg_r 50); [lra|].
      replace (real zin / 50 * 50) with (real zin) by field. lra. }
    match type of H2 with _ = Ok ?d2' => set (d2 := d2') in * end.
    assert (H3 : calculate_matching_network d2 =
                 Ok (set_matching_line d2 (sqrt (term_sqrt zin 50))
                       (theta_T1_rad zin 50))).
    { apply (calculate_matching_network_ok d2 zin eq_refl).
      cbn [Z0 d2 d1 set_region set_conjugate_line far_design]. lra. }
    rewrite (design_at_far _ _ _ _ _ _ _ _ H1 H2 H3).
    rewrite (synthesize_pi_network_ok _ (sqrt (term_sqrt zin 50))
               (theta_T1_rad zin 50)) by reflexivity.
    eexists. exists (sqrt (term_sqrt zin 50)), (theta_T1_rad zin 50).
    split; [reflexivity|]. split; [reflexivity|]. split; [reflexivity|].
    split; [reflexivity|]. split; [reflexivity|]. split; [lra|exact Hth].
Qed.

